(** * og/entity/Polyline.js: mesh builder, point patcher and buffer bookkeeping

    A shallow embedding of the CPU side of [Polyline]: the two static mesh
    builders ([appendLineData3v], [appendLineDataLonLat]), the full rebuilds
    ([_createData3v], [_createDataLonLat]), the single point patcher
    ([setPoint3v]), [clear] and the lazy buffer update ([_update]).

    JavaScript numbers are kept abstract (class [Num]): the code only adds,
    subtracts and compares coordinates.  Two instances are used to run the
    model: binary64 floats (what the engine computes with) and [Z]. *)

From Stdlib Require Import ZArith Floats QArith.
From stdpp Require Import base list.

Set Default Proof Using "Type".
Open Scope Z_scope.

(** ** Numbers *)

Class Num (A : Type) := {
  nadd : A → A → A;
  nsub : A → A → A;
  nltb : A → A → bool;
  nconst : Z → A
}.

(** Numbers that [<] orders strictly: no number is below itself, and
    below is transitive.  The numbers of the engine are so, signed zeros
    and [NaN] included ([NaN] is below nothing and nothing is below it), and
    so are the integers. *)
Class NumOrder (A : Type) `{Num A} : Prop := {
  nltb_irrefl : ∀ a : A, nltb a a = false;
  nltb_trans : ∀ a b c : A, nltb a b = true → nltb b c = true → nltb a c = true
}.

(** ** JavaScript arrays

    An array that the code assigns by index ([a[k] = v]) is a list of
    optional entries: [None] is a hole, which reads as [undefined].  Arrays
    that are only ever pushed to are plain lists. *)

Abbreviation jsarray T := (list (option T)).

(** [a[k]] on an array with holes; [undefined] is [None]. *)
Definition js_read {T} (a : jsarray T) (k : nat) : option T := mjoin (a !! k).

Definition js_get {T} (a : jsarray T) (k : Z) : option T :=
  if k <? 0 then None else js_read a (Z.to_nat k).

(** [a[k]] on a dense array. *)
Definition dget {T} (a : list T) (k : Z) : option T :=
  if k <? 0 then None else a !! Z.to_nat k.

(** [a[k] = v]: replaces in range, and otherwise grows the array, leaving
    holes between the old end and [k]. *)
Definition js_store {T} (a : jsarray T) (k : nat) (v : T) : jsarray T :=
  if decide (k < length a)%nat then <[k := Some v]> a
  else a ++ replicate (k - length a)%nat None ++ [Some v].

(** Index values are numbers too: [undefined + 9] is [NaN], and so is
    everything computed from it.  [None] stands for [NaN]. *)
Definition jsidx := option Z.
Definition idx_add (i : jsidx) (k : Z) : jsidx := (λ z, z + k) <$> i.

(** Outcome of a call that may throw.  Arrays are mutated in place, so a
    thrown call leaves the state reached so far. *)
Inductive outcome (S : Type) : Type :=
| Done (s : S)
| Throw (s : S).
Arguments Done {S} s.
Arguments Throw {S} s.

Definition state_of {S} (r : outcome S) : S :=
  match r with Done s | Throw s => s end.

Section Model.
Context {A : Type} `{NumA : Num A}.

(** ** Vectors, geodetic points, extents *)

(** Modelled from the spec: [math/Vec3.js] is not under src.  The code reads
    and writes the fields [x], [y], [z]; [new Vec3(a, b, c)] stores its
    arguments. *)
Record Vec3 := mkVec3 { x : A; y : A; z : A }.

(** Modelled from the spec: [LonLat.js] is not under src.  The code reads
    and writes [lon] and [lat]; [new LonLat(a, b, c)] stores longitude,
    latitude and height. *)
Record LonLat := mkLonLat { lon : A; lat : A; height : A }.

(** Modelled from the spec: [Extent.js] is not under src.  A geodetic
    bounding box, given by its two corners. *)
Record Extent := mkExtent { southWest : LonLat; northEast : LonLat }.

(** Modelled from the spec: [LonLat.set] is not under src.  From its use
    ([southWest.set(180, 90)]) it assigns longitude and latitude. *)
Definition LonLat_set (lo la : A) (p : LonLat) : LonLat :=
  mkLonLat lo la (height p).

(** Modelled from the spec: the ellipsoid is not under src; it is an
    external collaborator with two pure conversions.  The geodetic builder
    may hand [undefined] to [lonLatToCartesian] (a point read past the end of
    a segment); what the conversion does then is part of the collaborator: it
    throws ([None]) or returns some vector. *)
Record Ellipsoid := mkEllipsoid {
  cartesianToLonLat : Vec3 → LonLat;
  lonLatToCartesian : LonLat → Vec3;
  lonLatToCartesian_undefined : option Vec3
}.

(** [LonLat.prototype.forwardMercator]: not under src, external and pure. *)
Variable forwardMercator : LonLat → LonLat.

(** A Cartesian path point is a [[x, y, z]] array or a [Vec3]. *)
Inductive Point3 :=
| P3Array (a0 a1 a2 : A)
| P3Vec (v : Vec3).

(** [if (p.constructor === Array) p = new Vec3(p[0], p[1], p[2])] *)
Definition toVec3 (p : Point3) : Vec3 :=
  match p with
  | P3Array a0 a1 a2 => mkVec3 a0 a1 a2
  | P3Vec v => v
  end.

(** A geodetic path point is a [[lon, lat, height]] array or a [LonLat]. *)
Inductive PointLL :=
| LLArray (a0 a1 a2 : A)
| LLObj (p : LonLat).

(** [if (p instanceof Array) p = new LonLat(p[0], p[1], p[2])] *)
Definition toLonLat (p : PointLL) : LonLat :=
  match p with
  | LLArray a0 a1 a2 => mkLonLat a0 a1 a2
  | LLObj q => q
  end.

(** [new Vec3(p0.x + p0.x - p1.x, p0.y + p0.y - p1.y, p0.z + p0.z - p1.z)]:
    the mirror image of [p1] in [p0], that is [2·p0 − p1]. *)
Definition mirror (p0 p1 : Vec3) : Vec3 :=
  mkVec3 (nsub (nadd (x p0) (x p0)) (x p1))
         (nsub (nadd (y p0) (y p0)) (y p1))
         (nsub (nadd (z p0) (z p0)) (z p1)).

(** The twelve numbers pushed for one position: [x, y, z] four times. *)
Definition quad (p : Vec3) : jsarray A :=
  [Some (x p); Some (y p); Some (z p); Some (x p); Some (y p); Some (z p);
   Some (x p); Some (y p); Some (z p); Some (x p); Some (y p); Some (z p)].

(** [outOrders.push(1, -1, 2, -2)] *)
Definition order_cycle : list Z := [1; -1; 2; -2].

(** The four comparisons that grow an extent to take in one point. *)
Definition extend (e : Extent) (p : LonLat) : Extent :=
  let sw := southWest e in
  let ne := northEast e in
  mkExtent
    (mkLonLat (if nltb (lon p) (lon sw) then lon p else lon sw)
              (if nltb (lat p) (lat sw) then lat p else lat sw)
              (height sw))
    (mkLonLat (if nltb (lon ne) (lon p) then lon p else lon ne)
              (if nltb (lat ne) (lat p) then lat p else lat ne)
              (height ne)).

(** [southWest.set(180, 90); northEast.set(-180, -90)] *)
Definition reset_extent (e : Extent) : Extent :=
  mkExtent (LonLat_set (nconst 180) (nconst 90) (southWest e))
           (LonLat_set (nconst (-180)) (nconst (-90)) (northEast e)).

(** ** The out-parameters of the builders

    Both call sites pass the polyline's own arrays and extent. *)
Record Out := mkOut {
  outVertices : jsarray A;
  outOrders : list Z;
  outIndexes : list jsidx;
  outPathLonLat : jsarray (jsarray LonLat);
  outPath3v : jsarray (list Vec3);
  outPathMerc : jsarray (jsarray LonLat);
  outExtent : Extent
}.

Definition push_vertices (p : Vec3) (o : Out) : Out :=
  mkOut (outVertices o ++ quad p) (outOrders o ++ order_cycle) (outIndexes o)
        (outPathLonLat o) (outPath3v o) (outPathMerc o) (outExtent o).

Definition push_indexes (l : list jsidx) (o : Out) : Out :=
  mkOut (outVertices o) (outOrders o) (outIndexes o ++ l)
        (outPathLonLat o) (outPath3v o) (outPathMerc o) (outExtent o).

(** [outTransformedPathLonLat[j] = []; outTransformedPathMerc[j] = [];
    outPath3v[j] = []] *)
Definition open_slots (j : nat) (o : Out) : Out :=
  mkOut (outVertices o) (outOrders o) (outIndexes o)
        (js_store (outPathLonLat o) j []) (js_store (outPath3v o) j [])
        (js_store (outPathMerc o) j []) (outExtent o).

(** [a[j].push(v)] on an array of dense arrays and on an array of arrays
    with holes.  Slot [j] was assigned at the top of the iteration. *)
Definition slot_push {T} (a : jsarray (list T)) (j : nat) (v : T) : jsarray (list T) :=
  match js_read a j with
  | Some s => <[j := Some (s ++ [v])]> a
  | None => a
  end.

Definition slot_push_js {T} (a : jsarray (jsarray T)) (j : nat) (v : T) : jsarray (jsarray T) :=
  match js_read a j with
  | Some s => <[j := Some (s ++ [Some v])]> a
  | None => a
  end.

(** The geodetic triple of one point: pushed to slot [j] of the three path
    arrays, and taken into the extent. *)
Definition record_point (j : nat) (c : Vec3) (g : LonLat) (o : Out) : Out :=
  mkOut (outVertices o) (outOrders o) (outIndexes o)
        (slot_push_js (outPathLonLat o) j g)
        (slot_push (outPath3v o) j c)
        (slot_push_js (outPathMerc o) j (forwardMercator g))
        (extend (outExtent o) g).

(** [outIndexes.push(index++, index++, index++, index++)] *)
Definition four_up (index : jsidx) : list jsidx :=
  [index; idx_add index 1; idx_add index 2; idx_add index 3].

(** ** appendLineData3v *)

(** One turn of the inner loop. *)
Definition point3v (ellipsoid : option Ellipsoid) (j : nat)
    (st : jsidx * Out) (p : Point3) : jsidx * Out :=
  let cur := toVec3 p in
  let o :=
    match ellipsoid with
    | Some e => record_point j cur (cartesianToLonLat e cur) (st.2)
    | None => st.2
    end in
  (idx_add st.1 4, push_indexes (four_up st.1) (push_vertices cur o)).

(** The block before the first point: [path[path.length - 1]] when closed,
    else the mirror of [path[1]] in [path[0]].  [None]: the point read is
    [undefined] and [.constructor] throws. *)
Definition cap_before3v (isClosed : bool) (path : list Point3) : option Vec3 :=
  if isClosed then toVec3 <$> dget path (Z.of_nat (length path) - 1)
  else
    match dget path 0, dget path 1 with
    | Some p0, Some p1 => Some (mirror (toVec3 p0) (toVec3 p1))
    | _, _ => None
    end.

(** The block after the last point: [path[0]] when closed, else the mirror
    of [path[path.length - 2]] in [path[path.length - 1]]. *)
Definition cap_after3v (isClosed : bool) (path : list Point3) : option Vec3 :=
  if isClosed then toVec3 <$> dget path 0
  else
    match dget path (Z.of_nat (length path) - 1),
          dget path (Z.of_nat (length path) - 2) with
    | Some p0, Some p1 => Some (mirror (toVec3 p0) (toVec3 p1))
    | _, _ => None
    end.

(** The four indexes that close a segment. *)
Definition closing_indexes (isClosed : bool) (startIndex index : jsidx) : list jsidx :=
  if isClosed
  then [startIndex; idx_add startIndex 1; idx_add startIndex 1; idx_add startIndex 1]
  else [idx_add index (-1); idx_add index (-1); idx_add index (-1); idx_add index (-1)].

(** [if (j < n - 1) { index += 8; outIndexes.push(index, index); }] *)
Definition seam (nseg : nat) (j : nat) (st : jsidx * Out) : jsidx * Out :=
  if Z.of_nat j <? Z.of_nat nseg - 1
  then (idx_add st.1 8, push_indexes [idx_add st.1 8; idx_add st.1 8] st.2)
  else st.

(** One turn of the outer loop, for segment [j] of [nseg]. *)
Definition segment3v (isClosed : bool) (ellipsoid : option Ellipsoid)
    (nseg j : nat) (path : list Point3) (st : jsidx * Out) : outcome (jsidx * Out) :=
  let startIndex := st.1 in
  let o := open_slots j st.2 in
  match cap_before3v isClosed path with
  | None => Throw (startIndex, o)
  | Some last =>
    let st1 := foldl (point3v ellipsoid j) (startIndex, push_vertices last o) path in
    match cap_after3v isClosed path with
    | None => Throw st1
    | Some first =>
      let o1 := push_indexes (closing_indexes isClosed startIndex st1.1) st1.2 in
      Done (seam nseg j (st1.1, push_vertices first o1))
    end
  end.

(** The outer loop from segment [j] on. *)
Fixpoint segments3v (isClosed : bool) (ellipsoid : option Ellipsoid)
    (nseg j : nat) (paths : list (list Point3)) (st : jsidx * Out)
    : outcome (jsidx * Out) :=
  match paths with
  | [] => Done st
  | path :: rest =>
    match segment3v isClosed ellipsoid nseg j path st with
    | Done st' => segments3v isClosed ellipsoid nseg (S j) rest st'
    | Throw st' => Throw st'
    end
  end.

(** The leading degenerate pair: [(0, 0)] on empty output, and otherwise
    nine past the fifth index from the end. *)
Definition leading_pair (o : Out) : jsidx * Out :=
  match outIndexes o with
  | [] => (Some 0, push_indexes [Some 0; Some 0] o)
  | _ =>
    let index :=
      idx_add (mjoin (dget (outIndexes o) (Z.of_nat (length (outIndexes o)) - 5))) 9 in
    (index, push_indexes [index; index] o)
  end.

Definition set_extent (e : Extent) (o : Out) : Out :=
  mkOut (outVertices o) (outOrders o) (outIndexes o)
        (outPathLonLat o) (outPath3v o) (outPathMerc o) e.

Definition appendLineData3v (path3v : list (list Point3)) (isClosed : bool)
    (ellipsoid : option Ellipsoid) (o : Out) : outcome Out :=
  let o0 := set_extent (reset_extent (outExtent o)) o in
  match segments3v isClosed ellipsoid (length path3v) 0 path3v (leading_pair o0) with
  | Done st => Done st.2
  | Throw st => Throw st.2
  end.

(** ** appendLineDataLonLat *)

(** [ellipsoid.lonLatToCartesian(pp)] where [pp] may be [undefined]. *)
Definition toCartesian (e : Ellipsoid) (pp : option PointLL) : option Vec3 :=
  match pp with
  | Some p => Some (lonLatToCartesian e (toLonLat p))
  | None => lonLatToCartesian_undefined e
  end.

(** One turn of the inner loop.  The extent comparisons come last here;
    they touch nothing but the extent. *)
Definition pointLonLat (e : Ellipsoid) (j : nat)
    (st : jsidx * Out) (p : PointLL) : jsidx * Out :=
  let cur := toLonLat p in
  let cartesian := lonLatToCartesian e cur in
  (idx_add st.1 4,
   push_indexes (four_up st.1) (push_vertices cartesian (record_point j cartesian cur st.2))).

(** The cap blocks, from the converted end points.  [None]: one of the
    conversions threw. *)
Definition cap_beforeLonLat (isClosed : bool) (e : Ellipsoid) (path : list PointLL)
    : option Vec3 :=
  if isClosed then toCartesian e (dget path (Z.of_nat (length path) - 1))
  else
    match toCartesian e (dget path 0) with
    | Some p0 =>
      match toCartesian e (dget path 1) with
      | Some p1 => Some (mirror p0 p1)
      | None => None
      end
    | None => None
    end.

Definition cap_afterLonLat (isClosed : bool) (e : Ellipsoid) (path : list PointLL)
    : option Vec3 :=
  if isClosed then toCartesian e (dget path 0)
  else
    match toCartesian e (dget path (Z.of_nat (length path) - 1)) with
    | Some p0 =>
      match toCartesian e (dget path (Z.of_nat (length path) - 2)) with
      | Some p1 => Some (mirror p0 p1)
      | None => None
      end
    | None => None
    end.

Definition segmentLonLat (isClosed : bool) (e : Ellipsoid)
    (nseg j : nat) (path : list PointLL) (st : jsidx * Out) : outcome (jsidx * Out) :=
  let startIndex := st.1 in
  let o := open_slots j st.2 in
  match cap_beforeLonLat isClosed e path with
  | None => Throw (startIndex, o)
  | Some last =>
    let st1 := foldl (pointLonLat e j) (startIndex, push_vertices last o) path in
    match cap_afterLonLat isClosed e path with
    | None => Throw st1
    | Some first =>
      let o1 := push_indexes (closing_indexes isClosed startIndex st1.1) st1.2 in
      Done (seam nseg j (st1.1, push_vertices first o1))
    end
  end.

Fixpoint segmentsLonLat (isClosed : bool) (e : Ellipsoid)
    (nseg j : nat) (paths : list (list PointLL)) (st : jsidx * Out)
    : outcome (jsidx * Out) :=
  match paths with
  | [] => Done st
  | path :: rest =>
    match segmentLonLat isClosed e nseg j path st with
    | Done st' => segmentsLonLat isClosed e nseg (S j) rest st'
    | Throw st' => Throw st'
    end
  end.

Definition appendLineDataLonLat (pathLonLat : list (list PointLL)) (isClosed : bool)
    (e : Ellipsoid) (o : Out) : outcome Out :=
  let o0 := set_extent (reset_extent (outExtent o)) o in
  match segmentsLonLat isClosed e (length pathLonLat) 0 pathLonLat (leading_pair o0) with
  | Done st => Done st.2
  | Throw st => Throw st.2
  end.

(** ** The polyline object

    The fields the mesh, the patcher and the buffer bookkeeping read or
    write.  [_path3v] is in its built form: after a rebuild its points are
    [Vec3] objects, held here by their coordinates.  The builder makes a
    fresh [Vec3] for a point given as an array and stores a point given as
    a [Vec3] itself, so one [Vec3] may sit at several places of a path;
    the one routine that assigns to a stored [Vec3], [setPoint3v], is
    given those places ([setPoint3v_shared]).

    Buffer handles are numbers handed out by the graphics handler; [None]
    is [null]. *)

Record RenderNode := mkRenderNode { ellipsoid : option Ellipsoid }.

Record Polyline := mkPolyline {
  _closedLine : bool;
  _path3v : jsarray (list Vec3);
  _pathLonLat : jsarray (jsarray LonLat);
  _pathLonLatMerc : jsarray (jsarray LonLat);
  _extent : Extent;
  _vertices : jsarray A;
  _orders : list Z;
  _indexes : list jsidx;
  _verticesBuffer : option nat;
  _ordersBuffer : option nat;
  _indexesBuffer : option nat;
  _renderNode : option RenderNode;
  _changedBuffers : jsarray bool
}.

Definition VERTICES_BUFFER : nat := 0.
Definition INDEX_BUFFER : nat := 1.

(** Modelled from the spec: the graphics handler
    ([renderNode.renderer.handler] and its [gl]) is not under src.  It
    creates vertex and index buffers and deletes buffers; the model keeps
    the calls it received, in order, and hands out fresh handles. *)
Inductive BufferData :=
| FloatData (d : jsarray A)
| OrderData (d : list Z).

Inductive GLCall :=
| deleteBuffer (b : option nat)
| createArrayBuffer (data : BufferData) (itemSize : Z) (numItems : Q) (b : nat)
| createElementArrayBuffer (data : list jsidx) (itemSize : Z) (numItems : Z) (b : nat).

Record Handler := mkHandler { gl_calls : list GLCall; gl_fresh : nat }.

Definition gl_delete (b : option nat) (h : Handler) : Handler :=
  mkHandler (gl_calls h ++ [deleteBuffer b]) (gl_fresh h).

Definition gl_createArrayBuffer (d : BufferData) (itemSize : Z) (numItems : Q)
    (h : Handler) : nat * Handler :=
  (gl_fresh h,
   mkHandler (gl_calls h ++ [createArrayBuffer d itemSize numItems (gl_fresh h)])
             (S (gl_fresh h))).

Definition gl_createElementArrayBuffer (d : list jsidx) (itemSize numItems : Z)
    (h : Handler) : nat * Handler :=
  (gl_fresh h,
   mkHandler (gl_calls h ++ [createElementArrayBuffer d itemSize numItems (gl_fresh h)])
             (S (gl_fresh h))).

(** *** Field updates *)

Definition with_mesh (v : jsarray A) (o : list Z) (i : list jsidx) (p : Polyline) : Polyline :=
  mkPolyline (_closedLine p) (_path3v p) (_pathLonLat p) (_pathLonLatMerc p) (_extent p)
    v o i (_verticesBuffer p) (_ordersBuffer p) (_indexesBuffer p)
    (_renderNode p) (_changedBuffers p).

Definition with_vertices (v : jsarray A) (p : Polyline) : Polyline :=
  with_mesh v (_orders p) (_indexes p) p.

Definition with_paths (c : jsarray (list Vec3)) (l m : jsarray (jsarray LonLat))
    (p : Polyline) : Polyline :=
  mkPolyline (_closedLine p) c l m (_extent p)
    (_vertices p) (_orders p) (_indexes p)
    (_verticesBuffer p) (_ordersBuffer p) (_indexesBuffer p)
    (_renderNode p) (_changedBuffers p).

Definition with_path3v (c : jsarray (list Vec3)) (p : Polyline) : Polyline :=
  with_paths c (_pathLonLat p) (_pathLonLatMerc p) p.

Definition with_extent (e : Extent) (p : Polyline) : Polyline :=
  mkPolyline (_closedLine p) (_path3v p) (_pathLonLat p) (_pathLonLatMerc p) e
    (_vertices p) (_orders p) (_indexes p)
    (_verticesBuffer p) (_ordersBuffer p) (_indexesBuffer p)
    (_renderNode p) (_changedBuffers p).

Definition with_buffers (v o i : option nat) (p : Polyline) : Polyline :=
  mkPolyline (_closedLine p) (_path3v p) (_pathLonLat p) (_pathLonLatMerc p) (_extent p)
    (_vertices p) (_orders p) (_indexes p) v o i
    (_renderNode p) (_changedBuffers p).

Definition with_changed (c : jsarray bool) (p : Polyline) : Polyline :=
  mkPolyline (_closedLine p) (_path3v p) (_pathLonLat p) (_pathLonLatMerc p) (_extent p)
    (_vertices p) (_orders p) (_indexes p)
    (_verticesBuffer p) (_ordersBuffer p) (_indexesBuffer p)
    (_renderNode p) c.

(** ** Full rebuild *)

Definition _clearData (p : Polyline) : Polyline :=
  with_paths [] [] [] (with_mesh [] [] [] p).

Definition out_of (p : Polyline) : Out :=
  mkOut (_vertices p) (_orders p) (_indexes p)
        (_pathLonLat p) (_path3v p) (_pathLonLatMerc p) (_extent p).

(** The builders write into the polyline's own arrays. *)
Definition store_out (o : Out) (p : Polyline) : Polyline :=
  with_extent (outExtent o)
    (with_paths (outPath3v o) (outPathLonLat o) (outPathMerc o)
       (with_mesh (outVertices o) (outOrders o) (outIndexes o) p)).

Definition into (p : Polyline) (r : outcome Out) : outcome Polyline :=
  match r with
  | Done o => Done (store_out o p)
  | Throw o => Throw (store_out o p)
  end.

(** [this._renderNode.ellipsoid] throws on a polyline that is not attached. *)
Definition _createData3v (path3v : list (list Point3)) (p : Polyline) : outcome Polyline :=
  let p0 := _clearData p in
  match _renderNode p0 with
  | None => Throw p0
  | Some rn => into p0 (appendLineData3v path3v (_closedLine p0) (ellipsoid rn) (out_of p0))
  end.

(** With no ellipsoid, the builder's first [ellipsoid.lonLatToCartesian]
    throws: right after the leading pair and the slots of segment 0, or
    never when there is no segment. *)
Definition _createDataLonLat (pathLonLat : list (list PointLL)) (p : Polyline)
    : outcome Polyline :=
  let p0 := _clearData p in
  match _renderNode p0 with
  | None => Throw p0
  | Some rn =>
    match ellipsoid rn with
    | Some e => into p0 (appendLineDataLonLat pathLonLat (_closedLine p0) e (out_of p0))
    | None =>
      let o0 := set_extent (reset_extent (outExtent (out_of p0))) (out_of p0) in
      match pathLonLat with
      | [] => Done (store_out (leading_pair o0).2 p0)
      | _ => Throw (store_out (open_slots 0 (leading_pair o0).2) p0)
      end
    end
  end.

(** ** setPoint3v *)

(** [for (i = 0; i < segmentIndex; i++) kk += this._path3v[i].length * 12 + 24]:
    the offset of segment [n] in the vertex array.  [None]: one of the
    segments before it is [undefined] and [.length] throws. *)
Fixpoint segment_offset (paths : jsarray (list Vec3)) (n : nat) : option nat :=
  match n with
  | O => Some 0%nat
  | S n' =>
    match segment_offset paths n', js_read paths n' with
    | Some kk, Some s => Some (kk + (length s * 12 + 24))%nat
    | _, _ => None
    end
  end.

(** [v[k] = p.x; v[k + 1] = p.y; ... v[k + 11] = p.z] *)
Definition write_block (v : jsarray A) (k : nat) (p : Vec3) : jsarray A :=
  let v := js_store v k (x p) in
  let v := js_store v (k + 1) (y p) in
  let v := js_store v (k + 2) (z p) in
  let v := js_store v (k + 3) (x p) in
  let v := js_store v (k + 4) (y p) in
  let v := js_store v (k + 5) (z p) in
  let v := js_store v (k + 6) (x p) in
  let v := js_store v (k + 7) (y p) in
  let v := js_store v (k + 8) (z p) in
  let v := js_store v (k + 9) (x p) in
  let v := js_store v (k + 10) (y p) in
  js_store v (k + 11) (z p).

(** The caps as the patcher and the equal-length setters compute them, on
    a path of [Vec3] objects. *)
Definition patch_cap_before (isClosed : bool) (path : list Vec3) : option Vec3 :=
  if isClosed then dget path (Z.of_nat (length path) - 1)
  else
    match dget path 0, dget path 1 with
    | Some p0, Some p1 => Some (mirror p0 p1)
    | _, _ => None
    end.

Definition patch_cap_after (isClosed : bool) (path : list Vec3) : option Vec3 :=
  if isClosed then dget path 0
  else
    match dget path (Z.of_nat (length path) - 1),
          dget path (Z.of_nat (length path) - 1 - 1) with
    | Some p0, Some p1 => Some (mirror p0 p1)
    | _, _ => None
    end.

(** The extent loop of the patcher: every stored geodetic point of every
    segment, in order.  A hole throws ([pi.length], [pi[j].lon]). *)
Fixpoint extent_points (pi : jsarray LonLat) (e : Extent) : outcome Extent :=
  match pi with
  | [] => Done e
  | Some g :: rest => extent_points rest (extend e g)
  | None :: _ => Throw e
  end.

Fixpoint extent_paths (l : jsarray (jsarray LonLat)) (e : Extent) : outcome Extent :=
  match l with
  | [] => Done e
  | Some pi :: rest =>
    match extent_points pi e with
    | Done e' => extent_paths rest e'
    | Throw e' => Throw e'
    end
  | None :: _ => Throw e
  end.

(** [l[segmentIndex][index] = lonLat; m[segmentIndex][index] = ...] and the
    extent recomputed from scratch. *)
Definition patch_geodetic (e : Ellipsoid) (coordinates : Vec3) (seg i : nat)
    (p : Polyline) : outcome Polyline :=
  let lonLat := cartesianToLonLat e coordinates in
  match js_read (_pathLonLat p) seg with
  | None => Throw p
  | Some ls =>
    let l' := <[seg := Some (js_store ls i lonLat)]> (_pathLonLat p) in
    let p1 := with_paths (_path3v p) l' (_pathLonLatMerc p) p in
    match js_read (_pathLonLatMerc p) seg with
    | None => Throw p1
    | Some ms =>
      let m' := <[seg := Some (js_store ms i (forwardMercator lonLat))]> (_pathLonLatMerc p) in
      let p2 := with_paths (_path3v p) l' m' p in
      match extent_paths l' (reset_extent (_extent p)) with
      | Done ex => Done (with_extent ex p2)
      | Throw ex => Throw (with_extent ex p2)
      end
    end
  end.

(** [if (index === 0 || index === 1)]: the block before the first point,
    from the path as just edited.  On an open path of one point
    [path[1].x] throws. *)
Definition patch_before (index : Z) (kk : nat) (path : list Vec3) (p : Polyline)
    : outcome Polyline :=
  if (index =? 0) || (index =? 1) then
    match patch_cap_before (_closedLine p) path with
    | Some last => Done (with_vertices (write_block (_vertices p) kk last) p)
    | None => Throw p
    end
  else Done p.

(** [if (index === path.length - 1 || index === path.length - 2)]: the
    block after the last point. *)
Definition patch_after (index : Z) (kk : nat) (path : list Vec3) (p : Polyline)
    : outcome Polyline :=
  if (index =? Z.of_nat (length path) - 1) || (index =? Z.of_nat (length path) - 2) then
    match patch_cap_after (_closedLine p) path with
    | Some first =>
      Done (with_vertices (write_block (_vertices p) (kk + length path * 12 + 12) first) p)
    | None => Throw p
    end
  else Done p.

(** [if (!forceLonLat && this._renderNode.ellipsoid)] *)
Definition patch_lonlat (rn : RenderNode) (forceLonLat : bool) (coordinates : Vec3)
    (seg i : nat) (p : Polyline) : outcome Polyline :=
  match (if forceLonLat then None else ellipsoid rn) with
  | Some e => patch_geodetic e coordinates seg i p
  | None => Done p
  end.

(** [path[index].x = coordinates.x; path[index].y = coordinates.y;
    path[index].z = coordinates.z] changes the stored [Vec3] itself.  The
    builder stores a point given as a [Vec3] as it is (a point given as an
    array becomes a fresh [Vec3]), so a caller may have put one [Vec3] at
    several places of a path, and the assignment then shows at each of
    them.  [put_point c paths (s, k)] is the assignment as seen at place
    [k] of segment [s]; a place that does not exist holds no object. *)
Definition put_point (c : Vec3) (paths : jsarray (list Vec3)) (place : nat * nat)
    : jsarray (list Vec3) :=
  match js_read paths place.1 with
  | Some path => <[place.1 := Some (<[place.2 := c]> path)]> paths
  | None => paths
  end.

(** [setPoint3v], given the places [same] of [_path3v], other than the
    edited one, that hold the very [Vec3] stored at the edited place.  The
    caps are computed from the segment as it reads after the assignment. *)
Definition setPoint3v_shared (same : list (nat * nat)) (coordinates : Vec3) (index : Z)
    (segmentIndex : option Z) (forceLonLat : bool) (p : Polyline) : outcome Polyline :=
  let segmentIndex := default 0 segmentIndex in
  let seg := Z.to_nat segmentIndex in
  let i := Z.to_nat index in
  let c := mkVec3 (x coordinates) (y coordinates) (z coordinates) in
  match _renderNode p with
  | Some rn =>
    match segment_offset (_path3v p) seg with
    | None => Throw p
    | Some kk =>
      match js_get (_path3v p) segmentIndex with
      | None => Throw p
      | Some path0 =>
        match dget path0 index with
        | None => Throw p
        | Some _ =>
          let paths := foldl (put_point c) (_path3v p) ((seg, i) :: same) in
          let p1 := with_path3v paths p in
          match js_read paths seg with
          | None => Throw p1
          | Some path =>
            match patch_before index kk path p1 with
            | Throw q => Throw q
            | Done p2 =>
              match patch_lonlat rn forceLonLat coordinates seg i p2 with
              | Throw q => Throw q
              | Done p3 =>
                let p4 :=
                  with_vertices (write_block (_vertices p3) (kk + i * 12 + 12) coordinates)
                    p3 in
                match patch_after index kk path p4 with
                | Throw q => Throw q
                | Done p5 =>
                  Done (with_changed (js_store (_changedBuffers p5) VERTICES_BUFFER true) p5)
                end
              end
            end
          end
        end
      end
    end
  | None =>
    match js_get (_path3v p) segmentIndex with
    | None => Throw p
    | Some path0 =>
      match dget path0 index with
      | None => Throw p
      | Some _ =>
        Done (with_path3v (foldl (put_point c) (_path3v p) ((seg, i) :: same)) p)
      end
    end
  end.

(** [setPoint3v] of a point whose [Vec3] is stored at the edited place
    only, as every point given as an array is: [setPoint3v_shared []],
    written out. *)
Definition setPoint3v (coordinates : Vec3) (index : Z) (segmentIndex : option Z)
    (forceLonLat : bool) (p : Polyline) : outcome Polyline :=
  let segmentIndex := default 0 segmentIndex in
  let seg := Z.to_nat segmentIndex in
  let i := Z.to_nat index in
  match _renderNode p with
  | Some rn =>
    match segment_offset (_path3v p) seg with
    | None => Throw p
    | Some kk =>
      match js_get (_path3v p) segmentIndex with
      | None => Throw p
      | Some path0 =>
        match dget path0 index with
        | None => Throw p
        | Some _ =>
          let path := <[i := mkVec3 (x coordinates) (y coordinates) (z coordinates)]> path0 in
          let p1 := with_path3v (<[seg := Some path]> (_path3v p)) p in
          match patch_before index kk path p1 with
          | Throw q => Throw q
          | Done p2 =>
            match patch_lonlat rn forceLonLat coordinates seg i p2 with
            | Throw q => Throw q
            | Done p3 =>
              let p4 :=
                with_vertices (write_block (_vertices p3) (kk + i * 12 + 12) coordinates) p3 in
              match patch_after index kk path p4 with
              | Throw q => Throw q
              | Done p5 =>
                Done (with_changed (js_store (_changedBuffers p5) VERTICES_BUFFER true) p5)
              end
            end
          end
        end
      end
    end
  | None =>
    match js_get (_path3v p) segmentIndex with
    | None => Throw p
    | Some path0 =>
      match dget path0 index with
      | None => Throw p
      | Some _ =>
        let path := <[i := mkVec3 (x coordinates) (y coordinates) (z coordinates)]> path0 in
        Done (with_path3v (<[seg := Some path]> (_path3v p)) p)
      end
    end
  end.

(** A client moving points one after another,
    [line.setPoint3v(point, index, segment)] for each edit in turn.  This is
    the caller's loop, not a method of the class; the call that throws ends
    it. *)
Record Edit := mkEdit { edit_point : Vec3; edit_index : Z; edit_segment : option Z }.

Fixpoint setPoints (edits : list Edit) (p : Polyline) : outcome Polyline :=
  match edits with
  | [] => Done p
  | ed :: rest =>
    match setPoint3v (edit_point ed) (edit_index ed) (edit_segment ed) false p with
    | Done p' => setPoints rest p'
    | Throw q => Throw q
    end
  end.

(** ** Buffers *)

(** [_deleteBuffers]: nothing happens on a polyline that is not attached. *)
Definition _deleteBuffers (st : Polyline * Handler) : Polyline * Handler :=
  match _renderNode st.1 with
  | Some _ =>
    let h := gl_delete (_verticesBuffer st.1) st.2 in
    let h := gl_delete (_ordersBuffer st.1) h in
    let h := gl_delete (_indexesBuffer st.1) h in
    (with_buffers None None None st.1, h)
  | None => st
  end.

Definition clear (st : Polyline * Handler) : Polyline * Handler :=
  _deleteBuffers (with_mesh [] [] [] st.1, st.2).

(** [length / d] as a JavaScript number. *)
Definition length_over {T} (l : list T) (d : positive) : Q :=
  Qmake (Z.of_nat (length l)) d.

Definition _createVerticesBuffer (st : Polyline * Handler) : Polyline * Handler :=
  let h := gl_delete (_verticesBuffer st.1) st.2 in
  let r := gl_createArrayBuffer (FloatData (_vertices st.1)) 3
             (length_over (_vertices st.1) 3) h in
  (with_buffers (Some r.1) (_ordersBuffer st.1) (_indexesBuffer st.1) st.1, r.2).

Definition _createIndexBuffer (st : Polyline * Handler) : Polyline * Handler :=
  let h := gl_delete (_ordersBuffer st.1) st.2 in
  let h := gl_delete (_indexesBuffer st.1) h in
  let r := gl_createArrayBuffer (OrderData (_orders st.1)) 1
             (length_over (_orders st.1) 2) h in
  let r' := gl_createElementArrayBuffer (_indexes st.1) 1
              (Z.of_nat (length (_indexes st.1))) r.2 in
  (with_buffers (_verticesBuffer st.1) (Some r.1) (Some r'.1) st.1, r'.2).

(** [this._buffersUpdateCallbacks], as the constructor fills it. *)
Definition _buffersUpdateCallbacks : list (Polyline * Handler → Polyline * Handler) :=
  [_createVerticesBuffer; _createIndexBuffer].

(** [while (i--) { if (changed[i]) { callbacks[i].call(this); changed[i] = false; } }]
    with [i] counting down from the argument. *)
Fixpoint update_loop (i : nat) (st : Polyline * Handler) : outcome (Polyline * Handler) :=
  match i with
  | O => Done st
  | S i' =>
    match js_read (_changedBuffers st.1) i' with
    | Some true =>
      match _buffersUpdateCallbacks !! i' with
      | Some callback =>
        let st' := callback st in
        update_loop i' (with_changed (js_store (_changedBuffers st'.1) i' false) st'.1, st'.2)
      | None => Throw st
      end
    | _ => update_loop i' st
    end
  end.

Definition _update (st : Polyline * Handler) : outcome (Polyline * Handler) :=
  match _renderNode st.1 with
  | Some _ => update_loop (length (_changedBuffers st.1)) st
  | None => Done st
  end.

(** [_refresh]: every flag set, from the last one down. *)
Fixpoint refresh_loop (i : nat) (c : jsarray bool) : jsarray bool :=
  match i with
  | O => c
  | S i' => refresh_loop i' (js_store c i' true)
  end.

Definition _refresh (p : Polyline) : Polyline :=
  with_changed (refresh_loop (length (_changedBuffers p)) (_changedBuffers p)) p.

(** * Properties *)

(** ** Arrays *)

Lemma js_store_in_range {T} (a : jsarray T) (k : nat) (v : T) :
  (k < length a)%nat → js_store a k v = <[k := Some v]> a.
Proof. intros Hk. unfold js_store. by rewrite decide_True. Qed.

Lemma js_store_at_end {T} (a : jsarray T) (v : T) (k : nat) :
  length a = k → js_store a k v = a ++ [Some v].
Proof.
  intros <-. unfold js_store. rewrite decide_False by lia.
  by rewrite Nat.sub_diag.
Qed.

Lemma js_read_store {T} (a : jsarray T) (k k' : nat) (v : T) :
  js_read (js_store a k v) k' = if decide (k' = k) then Some v else js_read a k'.
Proof.
  unfold js_read, js_store.
  destruct (decide (k < length a)%nat) as [Hlt|Hge].
  - destruct (decide (k' = k)) as [->|Hne].
    + by rewrite list_lookup_insert_eq.
    + by rewrite list_lookup_insert_ne.
  - destruct (decide (k' < length a)%nat) as [Hin|Hout].
    + rewrite lookup_app_l by done. by rewrite decide_False by lia.
    + rewrite lookup_app_r by lia.
      rewrite (lookup_ge_None_2 a k') by lia.
      destruct (decide (k' - length a < k - length a)%nat) as [Hh|Hh].
      * rewrite lookup_app_l by (by rewrite length_replicate).
        rewrite lookup_replicate_2 by done. by rewrite decide_False by lia.
      * rewrite lookup_app_r by (rewrite length_replicate; lia).
        rewrite length_replicate.
        destruct (decide (k' = k)) as [->|Hne].
        -- by replace (k - length a - (k - length a))%nat with 0%nat by lia.
        -- by replace (k' - length a - (k - length a))%nat
             with (S (k' - length a - (k - length a) - 1)) by lia.
Qed.

Lemma idx_add_add (i : jsidx) (a b : Z) : idx_add (idx_add i a) b = idx_add i (a + b).
Proof. destruct i as [n|]; simpl; [f_equal; lia | done]. Qed.

Lemma idx_add_0 (i : jsidx) : idx_add i 0 = i.
Proof. destruct i as [n|]; simpl; [f_equal; lia | done]. Qed.

(** ** The layout one segment adds *)

(** The indexes of [n] consecutive points, four each, from [index] on. *)
Fixpoint run_indexes (index : jsidx) (n : nat) : list jsidx :=
  match n with
  | O => []
  | S n' => four_up index ++ run_indexes (idx_add index 4) n'
  end.

Definition seam_indexes (nseg j : nat) (index : jsidx) : list jsidx :=
  if Z.of_nat j <? Z.of_nat nseg - 1 then [idx_add index 8; idx_add index 8] else [].

Definition seam_next (nseg j : nat) (index : jsidx) : jsidx :=
  if Z.of_nat j <? Z.of_nat nseg - 1 then idx_add index 8 else index.

(** Everything segment [j], of [n] points, adds to the index array. *)
Definition segment_indexes (isClosed : bool) (nseg j : nat) (index : jsidx) (n : nat)
    : list jsidx :=
  run_indexes index n
  ++ closing_indexes isClosed index (idx_add index (4 * Z.of_nat n))
  ++ seam_indexes nseg j (idx_add index (4 * Z.of_nat n)).

Definition segment_next (nseg j : nat) (index : jsidx) (n : nat) : jsidx :=
  seam_next nseg j (idx_add index (4 * Z.of_nat n)).

(** The index array of a whole path, from its shape alone. *)
Fixpoint shape_indexes (isClosed : bool) (nseg j : nat) (index : jsidx) (lens : list nat)
    : list jsidx :=
  match lens with
  | [] => []
  | n :: rest =>
    segment_indexes isClosed nseg j index n
    ++ shape_indexes isClosed nseg (S j) (segment_next nseg j index n) rest
  end.

(** The order array of a whole path, from its shape alone. *)
Definition shape_orders (lens : list nat) : list Z :=
  flat_map (λ n, concat (replicate (n + 2) order_cycle)) lens.

(** The vertex blocks of one segment: cap, points, cap. *)
Definition segment_vertices (last first : Vec3) (vs : list Vec3) : jsarray A :=
  quad last ++ flat_map quad vs ++ quad first.

Definition path_vertices (isClosed : bool) (vs : list Vec3) : jsarray A :=
  match patch_cap_before isClosed vs, patch_cap_after isClosed vs with
  | Some last, Some first => segment_vertices last first vs
  | _, _ => []
  end.

Lemma length_quad (p : Vec3) : length (quad p) = 12%nat.
Proof. done. Qed.

Lemma length_flat_quad (vs : list Vec3) :
  length (flat_map quad vs) = (12 * length vs)%nat.
Proof. induction vs as [|v vs IH]; simpl; [done | lia]. Qed.

Lemma length_run_indexes (index : jsidx) (n : nat) :
  length (run_indexes index n) = (4 * n)%nat.
Proof.
  revert index. induction n as [|n IH]; intros index; simpl; [done|].
  rewrite IH. lia.
Qed.

Lemma length_closing_indexes (c : bool) (i k : jsidx) :
  length (closing_indexes c i k) = 4%nat.
Proof. by destruct c. Qed.

Lemma run_indexes_snoc (index : jsidx) (n : nat) :
  run_indexes index (S n)
  = run_indexes index n ++ four_up (idx_add index (4 * Z.of_nat n)).
Proof.
  revert index. induction n as [|n IH]; intros index.
  - cbn [run_indexes]. rewrite app_nil_r. change (4 * Z.of_nat 0) with 0.
    by rewrite idx_add_0.
  - change (run_indexes index (S (S n)))
      with (four_up index ++ run_indexes (idx_add index 4) (S n)).
    rewrite (IH (idx_add index 4)), idx_add_add.
    change (run_indexes index (S n))
      with (four_up index ++ run_indexes (idx_add index 4) n).
    rewrite <- app_assoc.
    by replace (4 + 4 * Z.of_nat n) with (4 * Z.of_nat (S n)) by lia.
Qed.

Lemma replicate_cycle_snoc (n : nat) :
  concat (replicate n order_cycle) ++ order_cycle
  = concat (replicate (S n) order_cycle).
Proof.
  induction n as [|n IH]; [done|].
  change (concat (replicate (S n) order_cycle))
    with (order_cycle ++ concat (replicate n order_cycle)).
  rewrite <- app_assoc, IH. done.
Qed.

(** ** Both builders drive one mesh machine

    What a builder does to the running index and the three mesh arrays
    depends on the points only through their Cartesian positions and the
    two cap positions. *)

Record Mesh := mkMesh {
  m_index : jsidx;
  m_vertices : jsarray A;
  m_orders : list Z;
  m_indexes : list jsidx
}.

Definition mesh_of (st : jsidx * Out) : Mesh :=
  mkMesh st.1 (outVertices st.2) (outOrders st.2) (outIndexes st.2).

Definition outcome_map {S T} (f : S → T) (r : outcome S) : outcome T :=
  match r with Done s => Done (f s) | Throw s => Throw (f s) end.

Definition mesh_cap (v : Vec3) (m : Mesh) : Mesh :=
  mkMesh (m_index m) (m_vertices m ++ quad v) (m_orders m ++ order_cycle) (m_indexes m).

Definition mesh_point (m : Mesh) (v : Vec3) : Mesh :=
  mkMesh (idx_add (m_index m) 4) (m_vertices m ++ quad v) (m_orders m ++ order_cycle)
         (m_indexes m ++ four_up (m_index m)).

Definition mesh_close (isClosed : bool) (nseg j : nat) (startIndex : jsidx)
    (first : Vec3) (m : Mesh) : Mesh :=
  mkMesh (seam_next nseg j (m_index m))
         (m_vertices m ++ quad first) (m_orders m ++ order_cycle)
         (m_indexes m ++ closing_indexes isClosed startIndex (m_index m)
                      ++ seam_indexes nseg j (m_index m)).

Definition mesh_segment (isClosed : bool) (nseg j : nat)
    (last first : option Vec3) (vs : list Vec3) (m : Mesh) : outcome Mesh :=
  match last with
  | None => Throw m
  | Some l =>
    let m1 := foldl mesh_point (mesh_cap l m) vs in
    match first with
    | None => Throw m1
    | Some f => Done (mesh_close isClosed nseg j (m_index m) f m1)
    end
  end.

Lemma mesh_of_open_slots j st : mesh_of (st.1, open_slots j st.2) = mesh_of st.
Proof. done. Qed.

Lemma mesh_of_point3v ell j st p :
  mesh_of (point3v ell j st p) = mesh_point (mesh_of st) (toVec3 p).
Proof. by destruct ell. Qed.

Lemma mesh_of_pointLonLat e j st p :
  mesh_of (pointLonLat e j st p)
  = mesh_point (mesh_of st) (lonLatToCartesian e (toLonLat p)).
Proof. done. Qed.

Lemma mesh_of_points3v ell j path st :
  mesh_of (foldl (point3v ell j) st path)
  = foldl mesh_point (mesh_of st) (toVec3 <$> path).
Proof.
  revert st. induction path as [|p path IH]; intros st; simpl; [done|].
  by rewrite IH, mesh_of_point3v.
Qed.

Lemma mesh_of_pointsLonLat e j path st :
  mesh_of (foldl (pointLonLat e j) st path)
  = foldl mesh_point (mesh_of st) ((λ p, lonLatToCartesian e (toLonLat p)) <$> path).
Proof.
  revert st. induction path as [|p path IH]; intros st; simpl; [done|].
  by rewrite IH, mesh_of_pointLonLat.
Qed.

Lemma mesh_of_seam nseg j st :
  mesh_of (seam nseg j st)
  = mkMesh (seam_next nseg j st.1) (outVertices st.2) (outOrders st.2)
           (outIndexes st.2 ++ seam_indexes nseg j st.1).
Proof.
  unfold seam, seam_next, seam_indexes, mesh_of.
  destruct (Z.of_nat j <? Z.of_nat nseg - 1); simpl; [done|].
  by rewrite app_nil_r.
Qed.

Lemma segment3v_mesh isClosed ell nseg j path st :
  outcome_map mesh_of (segment3v isClosed ell nseg j path st)
  = mesh_segment isClosed nseg j (cap_before3v isClosed path)
      (cap_after3v isClosed path) (toVec3 <$> path) (mesh_of st).
Proof.
  unfold segment3v, mesh_segment.
  destruct (cap_before3v isClosed path) as [last|]; [|done].
  set (st1 := foldl (point3v ell j) (st.1, push_vertices last (open_slots j st.2)) path).
  assert (mesh_of st1 = foldl mesh_point (mesh_cap last (mesh_of st)) (toVec3 <$> path))
    as E by (unfold st1; by rewrite mesh_of_points3v).
  rewrite <- E.
  destruct (cap_after3v isClosed path) as [first|]; simpl; [|done].
  rewrite mesh_of_seam. unfold mesh_close. simpl.
  by rewrite <- app_assoc.
Qed.

Lemma segmentLonLat_mesh isClosed e nseg j path st :
  outcome_map mesh_of (segmentLonLat isClosed e nseg j path st)
  = mesh_segment isClosed nseg j (cap_beforeLonLat isClosed e path)
      (cap_afterLonLat isClosed e path)
      ((λ p, lonLatToCartesian e (toLonLat p)) <$> path) (mesh_of st).
Proof.
  unfold segmentLonLat, mesh_segment.
  destruct (cap_beforeLonLat isClosed e path) as [last|]; [|done].
  set (st1 := foldl (pointLonLat e j) (st.1, push_vertices last (open_slots j st.2)) path).
  assert (mesh_of st1 = foldl mesh_point (mesh_cap last (mesh_of st)) ((λ p, lonLatToCartesian e (toLonLat p)) <$> path))
    as E by (unfold st1; by rewrite mesh_of_pointsLonLat).
  rewrite <- E.
  destruct (cap_afterLonLat isClosed e path) as [first|]; simpl; [|done].
  rewrite mesh_of_seam. unfold mesh_close. simpl.
  by rewrite <- app_assoc.
Qed.

(** The outer loop of the machine: each segment comes with its caps. *)
Fixpoint mesh_segments (isClosed : bool) (nseg j : nat)
    (segs : list (option Vec3 * option Vec3 * list Vec3)) (m : Mesh) : outcome Mesh :=
  match segs with
  | [] => Done m
  | (last, first, vs) :: rest =>
    match mesh_segment isClosed nseg j last first vs m with
    | Done m' => mesh_segments isClosed nseg (S j) rest m'
    | Throw m' => Throw m'
    end
  end.

Definition caps3v (isClosed : bool) (path : list Point3)
    : option Vec3 * option Vec3 * list Vec3 :=
  (cap_before3v isClosed path, cap_after3v isClosed path, toVec3 <$> path).

Definition capsLonLat (isClosed : bool) (e : Ellipsoid) (path : list PointLL)
    : option Vec3 * option Vec3 * list Vec3 :=
  (cap_beforeLonLat isClosed e path, cap_afterLonLat isClosed e path,
   (λ p, lonLatToCartesian e (toLonLat p)) <$> path).

Lemma segments3v_mesh isClosed ell nseg j paths st :
  outcome_map mesh_of (segments3v isClosed ell nseg j paths st)
  = mesh_segments isClosed nseg j (caps3v isClosed <$> paths) (mesh_of st).
Proof.
  revert j st. induction paths as [|path paths IH]; intros j st; [done|].
  simpl. unfold caps3v at 1. rewrite <- (segment3v_mesh isClosed ell nseg j path st).
  destruct (segment3v isClosed ell nseg j path st) as [st'|st']; simpl; [|done].
  apply IH.
Qed.

Lemma segmentsLonLat_mesh isClosed e nseg j paths st :
  outcome_map mesh_of (segmentsLonLat isClosed e nseg j paths st)
  = mesh_segments isClosed nseg j (capsLonLat isClosed e <$> paths) (mesh_of st).
Proof.
  revert j st. induction paths as [|path paths IH]; intros j st; [done|].
  simpl. unfold capsLonLat at 1. rewrite <- (segmentLonLat_mesh isClosed e nseg j path st).
  destruct (segmentLonLat isClosed e nseg j path st) as [st'|st']; simpl; [|done].
  apply IH.
Qed.

(** ** What the machine adds, in closed form *)

Lemma mesh_points_run (vs : list Vec3) (m : Mesh) :
  foldl mesh_point m vs
  = mkMesh (idx_add (m_index m) (4 * Z.of_nat (length vs)))
           (m_vertices m ++ flat_map quad vs)
           (m_orders m ++ concat (replicate (length vs) order_cycle))
           (m_indexes m ++ run_indexes (m_index m) (length vs)).
Proof.
  revert m. induction vs as [|v vs IH]; intros [i V O I].
  - cbn [foldl length flat_map replicate concat run_indexes m_index m_vertices
         m_orders m_indexes].
    change (4 * Z.of_nat 0) with 0. by rewrite idx_add_0, !app_nil_r.
  - cbn [foldl]. rewrite IH. unfold mesh_point.
    cbn [m_index m_vertices m_orders m_indexes length flat_map run_indexes].
    rewrite idx_add_add, <- !app_assoc.
    replace (4 + 4 * Z.of_nat (length vs)) with (4 * Z.of_nat (S (length vs))) by lia.
    done.
Qed.

Lemma mesh_segment_done isClosed nseg j last first vs m :
  mesh_segment isClosed nseg j (Some last) (Some first) vs m
  = Done (mkMesh (segment_next nseg j (m_index m) (length vs))
                 (m_vertices m ++ segment_vertices last first vs)
                 (m_orders m ++ concat (replicate (length vs + 2) order_cycle))
                 (m_indexes m ++ segment_indexes isClosed nseg j (m_index m) (length vs))).
Proof.
  unfold mesh_segment. rewrite mesh_points_run.
  unfold mesh_close, mesh_cap, segment_next, segment_vertices, segment_indexes.
  cbn [m_index m_vertices m_orders m_indexes].
  f_equal. f_equal.
  - by rewrite <- !app_assoc.
  - rewrite <- !app_assoc. f_equal.
    replace (length vs + 2)%nat with (S (S (length vs))) by lia.
    rewrite <- replicate_cycle_snoc. done.
  - by rewrite <- !app_assoc.
Qed.

(** A segment that reads no missing point. *)
Definition has_caps (s : option Vec3 * option Vec3 * list Vec3) : Prop :=
  is_Some s.1.1 ∧ is_Some s.1.2.

Definition segment_block (s : option Vec3 * option Vec3 * list Vec3) : jsarray A :=
  match s with
  | (Some last, Some first, vs) => segment_vertices last first vs
  | _ => []
  end.

Fixpoint shape_next (nseg j : nat) (index : jsidx) (lens : list nat) : jsidx :=
  match lens with
  | [] => index
  | n :: rest => shape_next nseg (S j) (segment_next nseg j index n) rest
  end.

Lemma mesh_segments_done isClosed nseg j segs m :
  Forall has_caps segs →
  mesh_segments isClosed nseg j segs m
  = Done (mkMesh (shape_next nseg j (m_index m) ((λ s, length s.2) <$> segs))
                 (m_vertices m ++ flat_map segment_block segs)
                 (m_orders m ++ shape_orders ((λ s, length s.2) <$> segs))
                 (m_indexes m
                  ++ shape_indexes isClosed nseg j (m_index m) ((λ s, length s.2) <$> segs))).
Proof.
  revert j m. induction segs as [|[[last first] vs] segs IH]; intros j [i V O I] Hcaps.
  - simpl. by rewrite !app_nil_r.
  - apply Forall_cons in Hcaps as [[Hl Hf] Hrest]. simpl in Hl, Hf.
    destruct Hl as [l ->], Hf as [f ->].
    cbn [mesh_segments]. rewrite mesh_segment_done, IH by done.
    cbn [m_index m_vertices m_orders m_indexes fmap list_fmap flat_map segment_block
         shape_next shape_indexes snd].
    unfold shape_orders. cbn [flat_map].
    by rewrite <- !app_assoc.
Qed.

(** ** Reading the end points *)

Lemma dget_nat {T} (l : list T) (k : nat) : dget l (Z.of_nat k) = l !! k.
Proof.
  unfold dget. destruct (Z.ltb_spec (Z.of_nat k) 0); [lia|].
  by rewrite Nat2Z.id.
Qed.

Lemma dget_fmap {S T} (f : S → T) (l : list S) (k : Z) :
  dget (f <$> l) k = f <$> dget l k.
Proof. unfold dget. destruct (k <? 0); [done|]. apply list_lookup_fmap. Qed.

Lemma dget_below {T} (l : list T) (k : Z) :
  0 ≤ k < Z.of_nat (length l) → is_Some (dget l k).
Proof.
  intros Hk. unfold dget. destruct (Z.ltb_spec k 0); [lia|].
  apply lookup_lt_is_Some. lia.
Qed.

Lemma dget_beyond {T} (l : list T) (k : Z) :
  k < 0 ∨ Z.of_nat (length l) ≤ k → dget l k = None.
Proof.
  intros Hk. unfold dget. destruct (Z.ltb_spec k 0); [done|].
  apply lookup_ge_None. lia.
Qed.

Lemma cap_before3v_vectors isClosed path :
  cap_before3v isClosed path = patch_cap_before isClosed (toVec3 <$> path).
Proof.
  unfold cap_before3v, patch_cap_before. rewrite length_fmap, !dget_fmap.
  destruct isClosed; [done|].
  by destruct (dget path 0), (dget path 1).
Qed.

Lemma cap_after3v_vectors isClosed path :
  cap_after3v isClosed path = patch_cap_after isClosed (toVec3 <$> path).
Proof.
  unfold cap_after3v, patch_cap_after. rewrite length_fmap, !dget_fmap.
  destruct isClosed; [done|].
  replace (Z.of_nat (length path) - 1 - 1) with (Z.of_nat (length path) - 2) by lia.
  by destruct (dget path (Z.of_nat (length path) - 1)),
              (dget path (Z.of_nat (length path) - 2)).
Qed.

(** A closed segment needs one point, an open one two. *)
Definition enough_points (isClosed : bool) (n : nat) : Prop :=
  if isClosed then (1 ≤ n)%nat else (2 ≤ n)%nat.

Lemma patch_cap_before_Some isClosed vs :
  enough_points isClosed (length vs) → is_Some (patch_cap_before isClosed vs).
Proof.
  unfold enough_points, patch_cap_before. destruct isClosed; intros Hn.
  - apply dget_below. lia.
  - destruct (dget_below vs 0) as [p0 ->]; [lia|].
    destruct (dget_below vs 1) as [p1 ->]; [lia|]. done.
Qed.

Lemma patch_cap_after_Some isClosed vs :
  enough_points isClosed (length vs) → is_Some (patch_cap_after isClosed vs).
Proof.
  unfold enough_points, patch_cap_after. destruct isClosed; intros Hn.
  - apply dget_below. lia.
  - destruct (dget_below vs (Z.of_nat (length vs) - 1)) as [p0 ->]; [lia|].
    destruct (dget_below vs (Z.of_nat (length vs) - 1 - 1)) as [p1 ->]; [lia|]. done.
Qed.

Lemma toCartesian_below e path k :
  0 ≤ k < Z.of_nat (length path) →
  toCartesian e (dget path k)
  = dget ((λ p, lonLatToCartesian e (toLonLat p)) <$> path) k.
Proof.
  intros Hk. rewrite dget_fmap.
  by destruct (dget_below path k Hk) as [p ->].
Qed.

Lemma cap_beforeLonLat_vectors isClosed e path :
  enough_points isClosed (length path) →
  cap_beforeLonLat isClosed e path
  = patch_cap_before isClosed ((λ p, lonLatToCartesian e (toLonLat p)) <$> path).
Proof.
  unfold enough_points, cap_beforeLonLat, patch_cap_before.
  rewrite length_fmap. destruct isClosed; intros Hn.
  - apply toCartesian_below. lia.
  - rewrite !toCartesian_below by lia.
    set (vs := _ <$> path). by destruct (dget vs 0), (dget vs 1).
Qed.

Lemma cap_afterLonLat_vectors isClosed e path :
  enough_points isClosed (length path) →
  cap_afterLonLat isClosed e path
  = patch_cap_after isClosed ((λ p, lonLatToCartesian e (toLonLat p)) <$> path).
Proof.
  unfold enough_points, cap_afterLonLat, patch_cap_after.
  rewrite length_fmap. destruct isClosed; intros Hn.
  - apply toCartesian_below. lia.
  - replace (Z.of_nat (length path) - 1 - 1) with (Z.of_nat (length path) - 2) by lia.
    rewrite !toCartesian_below by lia.
    set (vs := _ <$> path).
    by destruct (dget vs (Z.of_nat (length path) - 1)),
                (dget vs (Z.of_nat (length path) - 2)).
Qed.

(** ** The builders on paths whose segments have enough points *)

(** The index the leading pair repeats, from the index array so far. *)
Definition lead_index (I : list jsidx) : jsidx :=
  match I with
  | [] => Some 0
  | _ => idx_add (mjoin (dget I (Z.of_nat (length I) - 5))) 9
  end.

Lemma mesh_of_leading_pair o :
  mesh_of (leading_pair o)
  = mkMesh (lead_index (outIndexes o)) (outVertices o) (outOrders o)
           (outIndexes o ++ [lead_index (outIndexes o); lead_index (outIndexes o)]).
Proof.
  unfold leading_pair, lead_index, mesh_of.
  destruct (outIndexes o) as [|i I] eqn:E; simpl; by rewrite E.
Qed.

Lemma segment_block_caps3v isClosed path :
  segment_block (caps3v isClosed path) = path_vertices isClosed (toVec3 <$> path).
Proof.
  unfold caps3v, segment_block, path_vertices.
  by rewrite cap_before3v_vectors, cap_after3v_vectors.
Qed.

Lemma segment_block_capsLonLat isClosed e path :
  enough_points isClosed (length path) →
  segment_block (capsLonLat isClosed e path)
  = path_vertices isClosed ((λ p, lonLatToCartesian e (toLonLat p)) <$> path).
Proof.
  intros Hn. unfold capsLonLat, segment_block, path_vertices.
  rewrite cap_beforeLonLat_vectors, cap_afterLonLat_vectors by done. done.
Qed.

Lemma has_caps3v isClosed path :
  enough_points isClosed (length path) → has_caps (caps3v isClosed path).
Proof.
  intros Hn. unfold has_caps, caps3v. simpl.
  rewrite cap_before3v_vectors, cap_after3v_vectors.
  split; [apply patch_cap_before_Some | apply patch_cap_after_Some];
    by rewrite length_fmap.
Qed.

Lemma has_capsLonLat isClosed e path :
  enough_points isClosed (length path) → has_caps (capsLonLat isClosed e path).
Proof.
  intros Hn. unfold has_caps, capsLonLat. simpl.
  rewrite cap_beforeLonLat_vectors, cap_afterLonLat_vectors by done.
  split; [apply patch_cap_before_Some | apply patch_cap_after_Some];
    by rewrite length_fmap.
Qed.

(** The three mesh arrays after a build, in terms of the arrays before,
    the Cartesian positions and the shape. *)
Definition built (isClosed : bool) (vss : list (list Vec3)) (o o' : Out) : Prop :=
  outVertices o' = outVertices o ++ flat_map (path_vertices isClosed) vss
  ∧ outOrders o' = outOrders o ++ shape_orders (length <$> vss)
  ∧ outIndexes o'
    = outIndexes o
      ++ [lead_index (outIndexes o); lead_index (outIndexes o)]
      ++ shape_indexes isClosed (length vss) 0 (lead_index (outIndexes o)) (length <$> vss).

(** The Cartesian positions of a path, segment by segment. *)
Definition vectors3v (path3v : list (list Point3)) : list (list Vec3) :=
  (λ path : list Point3, toVec3 <$> path) <$> path3v.

Definition vectorsLonLat (e : Ellipsoid) (pathLonLat : list (list PointLL))
    : list (list Vec3) :=
  (λ path : list PointLL, (λ p, lonLatToCartesian e (toLonLat p)) <$> path) <$> pathLonLat.

Lemma appendLineData3v_built path3v isClosed ell o :
  Forall (λ path, enough_points isClosed (length path)) path3v →
  ∃ o', appendLineData3v path3v isClosed ell o = Done o'
        ∧ built isClosed (vectors3v path3v) o o'.
Proof.
  intros Hn. unfold appendLineData3v.
  set (o0 := set_extent (reset_extent (outExtent o)) o).
  pose proof (segments3v_mesh isClosed ell (length path3v) 0 path3v (leading_pair o0)) as E.
  rewrite mesh_of_leading_pair, mesh_segments_done in E.
  2:{ apply Forall_fmap. eapply Forall_impl; [exact Hn|]. intros path. apply has_caps3v. }
  destruct (segments3v _ _ _ _ _ _) as [st|st]; [|done].
  exists st.2. split; [done|].
  cbn [outcome_map m_index m_vertices m_orders m_indexes] in E.
  injection E as _ EV EO EI.
  rewrite <- list_fmap_compose in EO, EI.
  unfold built, vectors3v. rewrite length_fmap, <- !list_fmap_compose.
  split; [|split].
  - rewrite EV. change (outVertices o0) with (outVertices o). f_equal.
    clear. induction path3v as [|path path3v IH]; [done|].
    cbn [fmap list_fmap flat_map]. by rewrite segment_block_caps3v, IH.
  - by rewrite EO.
  - by rewrite EI, <- app_assoc.
Qed.

Lemma appendLineDataLonLat_built pathLonLat isClosed e o :
  Forall (λ path, enough_points isClosed (length path)) pathLonLat →
  ∃ o', appendLineDataLonLat pathLonLat isClosed e o = Done o'
        ∧ built isClosed (vectorsLonLat e pathLonLat) o o'.
Proof.
  intros Hn. unfold appendLineDataLonLat.
  set (o0 := set_extent (reset_extent (outExtent o)) o).
  pose proof (segmentsLonLat_mesh isClosed e (length pathLonLat) 0 pathLonLat
                (leading_pair o0)) as E.
  rewrite mesh_of_leading_pair, mesh_segments_done in E.
  2:{ apply Forall_fmap. eapply Forall_impl; [exact Hn|]. intros path. apply has_capsLonLat. }
  destruct (segmentsLonLat _ _ _ _ _ _) as [st|st]; [|done].
  exists st.2. split; [done|].
  cbn [outcome_map m_index m_vertices m_orders m_indexes] in E.
  injection E as _ EV EO EI.
  rewrite <- list_fmap_compose in EO, EI.
  unfold built, vectorsLonLat. rewrite length_fmap, <- !list_fmap_compose.
  split; [|split].
  - rewrite EV. change (outVertices o0) with (outVertices o). f_equal.
    clear -Hn. induction Hn as [|path paths Hpath _ IH]; [done|].
    cbn [fmap list_fmap flat_map]. by rewrite segment_block_capsLonLat, IH.
  - by rewrite EO.
  - by rewrite EI, <- app_assoc.
Qed.

(** ** Layout of the vertex array *)

(** Where the blocks of segment [j] start: every segment before it takes
    twelve numbers per point and twenty-four for its two caps. *)
Definition vertex_offset (lens : list nat) (j : nat) : nat :=
  sum_list ((λ n, n * 12 + 24)%nat <$> take j lens).

Lemma length_segment_vertices last first vs :
  length (segment_vertices last first vs) = (length vs * 12 + 24)%nat.
Proof.
  unfold segment_vertices. rewrite !length_app, !length_quad, length_flat_quad. lia.
Qed.

Lemma length_path_vertices isClosed vs :
  enough_points isClosed (length vs) →
  length (path_vertices isClosed vs) = (length vs * 12 + 24)%nat.
Proof.
  intros Hn. unfold path_vertices.
  destruct (patch_cap_before_Some isClosed vs Hn) as [last ->].
  destruct (patch_cap_after_Some isClosed vs Hn) as [first ->].
  apply length_segment_vertices.
Qed.

Lemma length_flat_path_vertices isClosed vss :
  Forall (λ vs, enough_points isClosed (length vs)) vss →
  length (flat_map (path_vertices isClosed) vss)
  = sum_list ((λ n, n * 12 + 24)%nat <$> (length <$> vss)).
Proof.
  induction 1 as [|vs vss Hvs _ IH]; [done|].
  cbn [flat_map fmap list_fmap sum_list sum_list_with].
  rewrite length_app, length_path_vertices, IH by done. done.
Qed.

(** The blocks of segment [j] inside the whole vertex array. *)
Lemma path_vertices_split isClosed vss j vs last first :
  Forall (λ vs, enough_points isClosed (length vs)) vss →
  vss !! j = Some vs →
  patch_cap_before isClosed vs = Some last →
  patch_cap_after isClosed vs = Some first →
  ∃ V1 V2,
    flat_map (path_vertices isClosed) vss
    = V1 ++ (quad last ++ flat_map quad vs ++ quad first) ++ V2
    ∧ length V1 = vertex_offset (length <$> vss) j.
Proof.
  intros Hn Hj Hlast Hfirst.
  exists (flat_map (path_vertices isClosed) (take j vss)),
         (flat_map (path_vertices isClosed) (drop (S j) vss)).
  split.
  - rewrite <- (take_drop_middle vss j vs Hj) at 1.
    rewrite flat_map_app. cbn [flat_map]. f_equal.
    unfold path_vertices at 1. by rewrite Hlast, Hfirst.
  - rewrite length_flat_path_vertices by (by apply Forall_take).
    unfold vertex_offset. by rewrite fmap_take.
Qed.

Lemma sub_one_nat (n : nat) : (1 ≤ n)%nat → Z.of_nat n - 1 = Z.of_nat (n - 1).
Proof. lia. Qed.

Lemma patch_cap_before_open vs v0 v1 :
  vs !! 0%nat = Some v0 → vs !! 1%nat = Some v1 →
  patch_cap_before false vs = Some (mirror v0 v1).
Proof.
  intros H0 H1. unfold patch_cap_before.
  change 0 with (Z.of_nat 0). change 1 with (Z.of_nat 1).
  by rewrite !dget_nat, H0, H1.
Qed.

Lemma patch_cap_after_open vs vl vm :
  (2 ≤ length vs)%nat →
  vs !! (length vs - 1)%nat = Some vl → vs !! (length vs - 2)%nat = Some vm →
  patch_cap_after false vs = Some (mirror vl vm).
Proof.
  intros Hn Hl Hm. unfold patch_cap_after.
  replace (Z.of_nat (length vs) - 1 - 1) with (Z.of_nat (length vs - 2)) by lia.
  rewrite sub_one_nat by lia.
  by rewrite !dget_nat, Hl, Hm.
Qed.

Lemma patch_cap_before_closed vs :
  (1 ≤ length vs)%nat → patch_cap_before true vs = vs !! (length vs - 1)%nat.
Proof.
  intros Hn. unfold patch_cap_before. by rewrite sub_one_nat, dget_nat.
Qed.

Lemma patch_cap_after_closed vs : patch_cap_after true vs = vs !! 0%nat.
Proof. unfold patch_cap_after. change 0 with (Z.of_nat 0). by rewrite dget_nat. Qed.

(** ** Size of the index array *)

Lemma length_segment_indexes isClosed nseg j index n :
  length (segment_indexes isClosed nseg j index n)
  = (4 * n + 4 + (if (Z.of_nat j <? Z.of_nat nseg - 1)%Z then 2 else 0))%nat.
Proof.
  unfold segment_indexes, seam_indexes.
  rewrite !length_app, length_run_indexes, length_closing_indexes.
  destruct (Z.of_nat j <? Z.of_nat nseg - 1); simpl; lia.
Qed.

(** Four indexes per point, four to close each segment, and a seam pair
    after every segment but the last. *)
Lemma length_shape_indexes isClosed nseg j index lens :
  (j + length lens = nseg)%nat → lens ≠ [] →
  (length (shape_indexes isClosed nseg j index lens) + 2
   = 4 * sum_list lens + 6 * length lens)%nat.
Proof.
  revert j index. induction lens as [|n lens IH]; intros j index Hj Hne; [done|].
  change (sum_list (n :: lens)) with (n + sum_list lens)%nat.
  cbn [shape_indexes length] in *.
  rewrite length_app, length_segment_indexes.
  destruct lens as [|n' lens].
  - change (sum_list []) with 0%nat. cbn [shape_indexes length] in *.
    destruct (Z.ltb_spec (Z.of_nat j) (Z.of_nat nseg - 1)); lia.
  - specialize (IH (S j) (segment_next nseg j index n)).
    cbn [length] in *.
    destruct (Z.ltb_spec (Z.of_nat j) (Z.of_nat nseg - 1)); [|lia].
    rewrite <- Nat.add_assoc, IH by (done || lia). lia.
Qed.

Lemma length_shape_orders lens :
  length (shape_orders lens) = (4 * sum_list lens + 8 * length lens)%nat.
Proof.
  unfold shape_orders. induction lens as [|n lens IH]; [done|].
  change (sum_list (n :: lens)) with (n + sum_list lens)%nat.
  cbn [flat_map length]. rewrite length_app, IH.
  assert (length (concat (replicate (n + 2) order_cycle)) = 4 * (n + 2))%nat as ->.
  { generalize (n + 2)%nat. intros k. induction k as [|k IHk]; [done|].
    cbn [replicate concat]. rewrite length_app, IHk. simpl. lia. }
  lia.
Qed.

(** ** Builds from empty output arrays *)

Definition no_prior_data (o : Out) : Prop :=
  outVertices o = [] ∧ outOrders o = [] ∧ outIndexes o = [].

(** An open segment of at least two points, built alone. *)
Lemma open_segment_layout ell path o :
  no_prior_data o → (2 ≤ length path)%nat →
  ∃ o' p0 p1 pl pm,
    appendLineData3v [path] false ell o = Done o'
    ∧ path !! 0%nat = Some p0 ∧ path !! 1%nat = Some p1
    ∧ path !! (length path - 1)%nat = Some pl
    ∧ path !! (length path - 2)%nat = Some pm
    ∧ outVertices o'
      = quad (mirror (toVec3 p0) (toVec3 p1))
        ++ flat_map quad (toVec3 <$> path)
        ++ quad (mirror (toVec3 pl) (toVec3 pm))
    ∧ length (outVertices o') = (12 * (length path + 2))%nat
    ∧ outOrders o' = concat (replicate (length path + 2) order_cycle).
Proof.
  intros (HV & HO & HI) Hn.
  destruct (appendLineData3v_built [path] false ell o) as (o' & Hrun & EV & EO & _).
  { by apply Forall_singleton. }
  destruct (lookup_lt_is_Some_2 path 0) as [p0 H0]; [lia|].
  destruct (lookup_lt_is_Some_2 path 1) as [p1 H1]; [lia|].
  destruct (lookup_lt_is_Some_2 path (length path - 1)) as [pl Hl]; [lia|].
  destruct (lookup_lt_is_Some_2 path (length path - 2)) as [pm Hm]; [lia|].
  exists o', p0, p1, pl, pm.
  assert (outVertices o'
          = quad (mirror (toVec3 p0) (toVec3 p1))
            ++ flat_map quad (toVec3 <$> path)
            ++ quad (mirror (toVec3 pl) (toVec3 pm))) as EV'.
  { rewrite EV, HV. cbn [vectors3v fmap list_fmap flat_map app]. rewrite app_nil_r.
    unfold path_vertices.
    rewrite (patch_cap_before_open _ (toVec3 p0) (toVec3 p1))
      by (by rewrite list_lookup_fmap, ?H0, ?H1).
    rewrite (patch_cap_after_open _ (toVec3 pl) (toVec3 pm))
      by (rewrite ?length_fmap, ?list_lookup_fmap, ?Hl, ?Hm; done).
    done. }
  repeat split; try done.
  - rewrite EV', !length_app, !length_quad, length_flat_quad, length_fmap. lia.
  - rewrite EO, HO. cbn [vectors3v fmap list_fmap shape_orders flat_map app].
    by rewrite app_nil_r, length_fmap.
Qed.

Lemma lengths_vectors3v path3v : length <$> vectors3v path3v = length <$> path3v.
Proof.
  unfold vectors3v. rewrite <- list_fmap_compose.
  apply list_fmap_ext. intros _ path _. apply length_fmap.
Qed.

Lemma lengths_vectorsLonLat e pathLonLat :
  length <$> vectorsLonLat e pathLonLat = length <$> pathLonLat.
Proof.
  unfold vectorsLonLat. rewrite <- list_fmap_compose.
  apply list_fmap_ext. intros _ path _. apply length_fmap.
Qed.

(** The two builders, on the same positions. *)
Lemma builds_agree e ell pathLonLat path3v isClosed o1 o2 :
  no_prior_data o1 → no_prior_data o2 →
  vectors3v path3v = vectorsLonLat e pathLonLat →
  Forall (λ path, enough_points isClosed (length path)) pathLonLat →
  ∃ o1' o2',
    appendLineDataLonLat pathLonLat isClosed e o1 = Done o1'
    ∧ appendLineData3v path3v isClosed ell o2 = Done o2'
    ∧ outVertices o1' = outVertices o2'
    ∧ outOrders o1' = outOrders o2'
    ∧ outIndexes o1' = outIndexes o2'.
Proof.
  intros (HV1 & HO1 & HI1) (HV2 & HO2 & HI2) Himg Hn.
  destruct (appendLineDataLonLat_built pathLonLat isClosed e o1 Hn)
    as (o1' & Hrun1 & EV1 & EO1 & EI1).
  destruct (appendLineData3v_built path3v isClosed ell o2)
    as (o2' & Hrun2 & EV2 & EO2 & EI2).
  { assert (length <$> path3v = length <$> pathLonLat) as Hlen
      by (by rewrite <- lengths_vectors3v, Himg, lengths_vectorsLonLat).
    apply (Forall_fmap length (λ n, enough_points isClosed n)).
    rewrite Hlen. by apply Forall_fmap. }
  exists o1', o2'. repeat split; try done.
  - by rewrite EV1, EV2, HV1, HV2, Himg.
  - by rewrite EO1, EO2, HO1, HO2, Himg.
  - by rewrite EI1, EI2, HI1, HI2, Himg.
Qed.

(** ** Full rebuilds *)

(** What a rebuild leaves in the polyline: the mesh of the path, and
    everything that is not path data untouched. *)
Definition rebuilt (vss : list (list Vec3)) (p p' : Polyline) : Prop :=
  _vertices p' = flat_map (path_vertices (_closedLine p)) vss
  ∧ _orders p' = shape_orders (length <$> vss)
  ∧ _indexes p'
    = [Some 0; Some 0]
      ++ shape_indexes (_closedLine p) (length vss) 0 (Some 0) (length <$> vss)
  ∧ _closedLine p' = _closedLine p
  ∧ _renderNode p' = _renderNode p
  ∧ _changedBuffers p' = _changedBuffers p
  ∧ _verticesBuffer p' = _verticesBuffer p
  ∧ _ordersBuffer p' = _ordersBuffer p
  ∧ _indexesBuffer p' = _indexesBuffer p.

Lemma _createData3v_rebuilt path3v p rn :
  _renderNode p = Some rn →
  Forall (λ path, enough_points (_closedLine p) (length path)) path3v →
  ∃ p', _createData3v path3v p = Done p' ∧ rebuilt (vectors3v path3v) p p'.
Proof.
  intros Hrn Hn. unfold _createData3v.
  change (_renderNode (_clearData p)) with (_renderNode p). rewrite Hrn.
  destruct (appendLineData3v_built path3v (_closedLine (_clearData p)) (ellipsoid rn)
              (out_of (_clearData p)) Hn) as (o' & -> & EV & EO & EI).
  exists (store_out o' (_clearData p)). split; [done|].
  repeat split.
  - change (_vertices (store_out o' (_clearData p))) with (outVertices o').
    by rewrite EV.
  - change (_orders (store_out o' (_clearData p))) with (outOrders o').
    by rewrite EO.
  - change (_indexes (store_out o' (_clearData p))) with (outIndexes o').
    by rewrite EI.
Qed.

Lemma _createDataLonLat_rebuilt pathLonLat p rn e :
  _renderNode p = Some rn → ellipsoid rn = Some e →
  Forall (λ path, enough_points (_closedLine p) (length path)) pathLonLat →
  ∃ p', _createDataLonLat pathLonLat p = Done p'
        ∧ rebuilt (vectorsLonLat e pathLonLat) p p'.
Proof.
  intros Hrn He Hn. unfold _createDataLonLat.
  change (_renderNode (_clearData p)) with (_renderNode p). rewrite Hrn, He.
  destruct (appendLineDataLonLat_built pathLonLat (_closedLine (_clearData p)) e
              (out_of (_clearData p)) Hn) as (o' & -> & EV & EO & EI).
  exists (store_out o' (_clearData p)). split; [done|].
  repeat split.
  - change (_vertices (store_out o' (_clearData p))) with (outVertices o').
    by rewrite EV.
  - change (_orders (store_out o' (_clearData p))) with (outOrders o').
    by rewrite EO.
  - change (_indexes (store_out o' (_clearData p))) with (outIndexes o').
    by rewrite EI.
Qed.

Lemma rebuilt_index_size vss p p' :
  rebuilt vss p p' → vss ≠ [] →
  length (_indexes p') = (4 * sum_list (length <$> vss) + 6 * length vss)%nat.
Proof.
  intros (_ & _ & EI & _) Hne. rewrite EI, length_app.
  pose proof (length_shape_indexes (_closedLine p) (length vss) 0 (Some 0)
                (length <$> vss)) as E.
  rewrite length_fmap in E. cbn [length].
  assert (length <$> vss ≠ []) as Hne' by (by destruct vss).
  specialize (E eq_refl Hne'). rewrite (Nat.add_comm 2). exact E.
Qed.

(** ** Segments that are too short *)

Lemma cap_before3v_missing isClosed path :
  ¬ enough_points isClosed (length path) → cap_before3v isClosed path = None.
Proof.
  unfold enough_points, cap_before3v. destruct isClosed; intros Hn.
  - rewrite dget_beyond by lia. done.
  - rewrite (dget_beyond path 1) by lia. by destruct (dget path 0).
Qed.

Lemma segment3v_missing isClosed ell nseg j path st :
  ¬ enough_points isClosed (length path) →
  segment3v isClosed ell nseg j path st = Throw (st.1, open_slots j st.2).
Proof. intros Hn. unfold segment3v. by rewrite cap_before3v_missing. Qed.

Lemma segments3v_throw isClosed ell nseg j paths st :
  Exists (λ path, ¬ enough_points isClosed (length path)) paths →
  ∃ st', segments3v isClosed ell nseg j paths st = Throw st'.
Proof.
  revert j st. induction paths as [|path paths IH]; intros j st Hbad.
  - by apply Exists_nil in Hbad.
  - cbn [segments3v].
    destruct (segment3v isClosed ell nseg j path st) as [st1|st1] eqn:Hseg;
      [|by eexists].
    apply Exists_cons in Hbad as [Hhead|Htail]; [|by apply IH].
    by rewrite segment3v_missing in Hseg.
Qed.

Lemma appendLineData3v_throw path3v isClosed ell o :
  Exists (λ path, ¬ enough_points isClosed (length path)) path3v →
  ∃ o', appendLineData3v path3v isClosed ell o = Throw o'.
Proof.
  intros Hbad. unfold appendLineData3v.
  edestruct segments3v_throw as [st' ->]; [exact Hbad|]. by eexists.
Qed.

(** ** Indexes and orders only see the shape *)

(** A path handed to one of the two builders. *)
Inductive PathInput :=
| Cartesian (path3v : list (list Point3)) (ellipsoid : option Ellipsoid)
| Geodetic (pathLonLat : list (list PointLL)) (ellipsoid : Ellipsoid).

Definition build (i : PathInput) (isClosed : bool) (o : Out) : outcome Out :=
  match i with
  | Cartesian path3v ell => appendLineData3v path3v isClosed ell o
  | Geodetic pathLonLat e => appendLineDataLonLat pathLonLat isClosed e o
  end.

(** Number of segments and number of points of each. *)
Definition shape (i : PathInput) : list nat :=
  match i with
  | Cartesian path3v _ => length <$> path3v
  | Geodetic pathLonLat _ => length <$> pathLonLat
  end.

Lemma build_shape i isClosed o :
  no_prior_data o →
  Forall (enough_points isClosed) (shape i) →
  ∃ o', build i isClosed o = Done o'
        ∧ outOrders o' = shape_orders (shape i)
        ∧ outIndexes o'
          = [Some 0; Some 0]
            ++ shape_indexes isClosed (length (shape i)) 0 (Some 0) (shape i).
Proof.
  intros (HV & HO & HI) Hn. destruct i as [path3v ell|pathLonLat e]; simpl in *.
  - destruct (appendLineData3v_built path3v isClosed ell o)
      as (o' & Hrun & _ & EO & EI);
      [by apply (Forall_fmap length (enough_points isClosed))|].
    exists o'. split; [done|].
    rewrite EO, EI, HO, HI, lengths_vectors3v. unfold vectors3v.
    by rewrite !length_fmap.
  - destruct (appendLineDataLonLat_built pathLonLat isClosed e o)
      as (o' & Hrun & _ & EO & EI);
      [by apply (Forall_fmap length (enough_points isClosed))|].
    exists o'. split; [done|].
    rewrite EO, EI, HO, HI, lengths_vectorsLonLat. unfold vectorsLonLat.
    by rewrite !length_fmap.
Qed.

(** ** Builds that stop half way

    A build that throws leaves the arrays as filled so far.  Whether and
    where a build throws depends on the shape alone, as long as a missing
    point makes the conversion throw too. *)

(** The three mesh arrays of the output. *)
Definition mesh_arrays (o : Out) : jsarray A * list Z * list jsidx :=
  (outVertices o, outOrders o, outIndexes o).

(** The running index, the order array and the index array. *)
Definition topology (m : Mesh) : jsidx * list Z * list jsidx :=
  (m_index m, m_orders m, m_indexes m).

Ltac one_sided H :=
  exfalso; destruct H as [H1 H2];
  first [ apply (is_Some_None (A:=Vec3)), H1; by eexists
        | apply (is_Some_None (A:=Vec3)), H2; by eexists ].

Definition same_caps (s1 s2 : option Vec3 * option Vec3 * list Vec3) : Prop :=
  (is_Some s1.1.1 ↔ is_Some s2.1.1) ∧ (is_Some s1.1.2 ↔ is_Some s2.1.2)
  ∧ length s1.2 = length s2.2.

Lemma mesh_segment_topology isClosed nseg j l1 f1 vs1 m1 l2 f2 vs2 m2 :
  same_caps (l1, f1, vs1) (l2, f2, vs2) → topology m1 = topology m2 →
  outcome_map topology (mesh_segment isClosed nseg j l1 f1 vs1 m1)
  = outcome_map topology (mesh_segment isClosed nseg j l2 f2 vs2 m2).
Proof.
  intros (Hl & Hf & Hlen) Hm. simpl in Hl, Hf, Hlen.
  destruct m1 as [i1 V1 O1 I1], m2 as [i2 V2 O2 I2]. injection Hm as -> -> ->.
  unfold mesh_segment.
  destruct l1 as [l1|], l2 as [l2|]; [| by one_sided Hl | by one_sided Hl | done].
  rewrite !mesh_points_run, Hlen.
  destruct f1 as [f1|], f2 as [f2|]; [done | by one_sided Hf | by one_sided Hf | done].
Qed.

Lemma mesh_segments_topology isClosed nseg segs1 : ∀ segs2 j m1 m2,
  Forall2 same_caps segs1 segs2 → topology m1 = topology m2 →
  outcome_map topology (mesh_segments isClosed nseg j segs1 m1)
  = outcome_map topology (mesh_segments isClosed nseg j segs2 m2).
Proof.
  induction segs1 as [|[[l1 f1] vs1] segs1 IH]; intros segs2 j m1 m2 Hcaps Hm.
  - apply Forall2_nil_inv_l in Hcaps as ->. simpl. by rewrite Hm.
  - apply Forall2_cons_inv_l in Hcaps as ([[l2 f2] vs2] & segs2' & Hs & Hrest & ->).
    cbn [mesh_segments].
    pose proof (mesh_segment_topology isClosed nseg j l1 f1 vs1 m1 l2 f2 vs2 m2 Hs Hm) as E.
    destruct (mesh_segment isClosed nseg j l1 f1 vs1 m1) as [m1'|m1'],
             (mesh_segment isClosed nseg j l2 f2 vs2 m2) as [m2'|m2']; try done.
    apply IH; [done|]. simpl in E. congruence.
Qed.

Lemma cap_after3v_missing isClosed path :
  ¬ enough_points isClosed (length path) → cap_after3v isClosed path = None.
Proof.
  unfold enough_points, cap_after3v. destruct isClosed; intros Hn.
  - rewrite dget_beyond by lia. done.
  - rewrite (dget_beyond path (Z.of_nat (length path) - 2)) by lia.
    by destruct (dget path (Z.of_nat (length path) - 1)).
Qed.

Lemma enough_points_dec isClosed n :
  enough_points isClosed n ∨ ¬ enough_points isClosed n.
Proof. unfold enough_points. destruct isClosed; lia. Qed.

(** The caps of a segment are there exactly when it has enough points. *)
Definition caps_by_length (isClosed : bool)
    (s : option Vec3 * option Vec3 * list Vec3) : Prop :=
  (is_Some s.1.1 ↔ enough_points isClosed (length s.2))
  ∧ (is_Some s.1.2 ↔ enough_points isClosed (length s.2)).

Lemma caps3v_by_length isClosed path : caps_by_length isClosed (caps3v isClosed path).
Proof.
  unfold caps_by_length, caps3v. cbn [fst snd]. rewrite length_fmap.
  destruct (enough_points_dec isClosed (length path)) as [Hn|Hn].
  - destruct (has_caps3v isClosed path Hn) as [Hl Hf]. by split; split.
  - rewrite cap_before3v_missing, cap_after3v_missing by done.
    split; split; try done; by intros ?%is_Some_None.
Qed.

Lemma toCartesian_strict e path k :
  lonLatToCartesian_undefined e = None →
  toCartesian e (dget path k)
  = dget ((λ p, lonLatToCartesian e (toLonLat p)) <$> path) k.
Proof. intros He. rewrite dget_fmap. by destruct (dget path k). Qed.

Lemma capsLonLat_strict isClosed e path :
  lonLatToCartesian_undefined e = None →
  capsLonLat isClosed e path
  = caps3v isClosed ((λ p, P3Vec (lonLatToCartesian e (toLonLat p))) <$> path).
Proof.
  intros He. unfold capsLonLat, caps3v.
  rewrite cap_before3v_vectors, cap_after3v_vectors, <- list_fmap_compose.
  change (toVec3 ∘ (λ p, P3Vec (lonLatToCartesian e (toLonLat p))))
    with (λ p, lonLatToCartesian e (toLonLat p)).
  set (vs := _ <$> path).
  assert (cap_beforeLonLat isClosed e path = patch_cap_before isClosed vs) as ->.
  { unfold cap_beforeLonLat, patch_cap_before, vs. rewrite length_fmap.
    rewrite !toCartesian_strict by done. fold vs.
    destruct isClosed; [done|]. by destruct (dget vs 0), (dget vs 1). }
  assert (cap_afterLonLat isClosed e path = patch_cap_after isClosed vs) as ->.
  { unfold cap_afterLonLat, patch_cap_after, vs. rewrite length_fmap.
    replace (Z.of_nat (length path) - 1 - 1) with (Z.of_nat (length path) - 2) by lia.
    rewrite !toCartesian_strict by done. fold vs.
    destruct isClosed; [done|].
    by destruct (dget vs (Z.of_nat (length path) - 1)),
                (dget vs (Z.of_nat (length path) - 2)). }
  done.
Qed.

Lemma capsLonLat_by_length isClosed e path :
  enough_points isClosed (length path) ∨ lonLatToCartesian_undefined e = None →
  caps_by_length isClosed (capsLonLat isClosed e path).
Proof.
  intros [Hn|He].
  - destruct (has_capsLonLat isClosed e path Hn) as [Hl Hf].
    unfold caps_by_length, capsLonLat. cbn [fst snd]. rewrite length_fmap.
    by split; split.
  - rewrite capsLonLat_strict by done.
    pose proof (caps3v_by_length isClosed
                  ((λ p, P3Vec (lonLatToCartesian e (toLonLat p))) <$> path)) as H.
    done.
Qed.

Lemma same_caps_by_length isClosed s1 s2 :
  caps_by_length isClosed s1 → caps_by_length isClosed s2 →
  length s1.2 = length s2.2 → same_caps s1 s2.
Proof.
  intros [Hl1 Hf1] [Hl2 Hf2] Hlen. unfold same_caps.
  rewrite Hl1, Hl2, Hf1, Hf2, Hlen. done.
Qed.

Lemma Forall2_same_caps isClosed segs1 segs2 :
  Forall (caps_by_length isClosed) segs1 →
  Forall (caps_by_length isClosed) segs2 →
  (λ s, length s.2) <$> segs1 = (λ s, length s.2) <$> segs2 →
  Forall2 same_caps segs1 segs2.
Proof.
  intros H1. revert segs2. induction H1 as [|s1 segs1 Hs1 _ IH]; intros segs2 H2 Hlen.
  - destruct segs2; [constructor | done].
  - destruct segs2 as [|s2 segs2]; [done|].
    apply Forall_cons in H2 as [Hs2 H2]. injection Hlen as Hlen Hrest.
    constructor; [by eapply same_caps_by_length | by apply IH].
Qed.

(** *** The builders as runs of the mesh machine *)

Definition caps_vectors (isClosed : bool) (vs : list Vec3)
    : option Vec3 * option Vec3 * list Vec3 :=
  (patch_cap_before isClosed vs, patch_cap_after isClosed vs, vs).

Definition mesh_start (o : Out) : Mesh :=
  mkMesh (lead_index (outIndexes o)) (outVertices o) (outOrders o)
         (outIndexes o ++ [lead_index (outIndexes o); lead_index (outIndexes o)]).

Definition arrays_of (m : Mesh) : jsarray A * list Z * list jsidx :=
  (m_vertices m, m_orders m, m_indexes m).

Lemma outcome_map_compose {S T U} (f : S → T) (g : T → U) (r : outcome S) :
  outcome_map g (outcome_map f r) = outcome_map (g ∘ f) r.
Proof. by destruct r. Qed.

Lemma caps3v_vectors isClosed path3v :
  caps3v isClosed <$> path3v = caps_vectors isClosed <$> vectors3v path3v.
Proof.
  unfold vectors3v. rewrite <- list_fmap_compose. apply list_fmap_ext.
  intros _ path _. unfold caps3v, caps_vectors. simpl.
  by rewrite cap_before3v_vectors, cap_after3v_vectors.
Qed.

Lemma capsLonLat_vectors isClosed e pathLonLat :
  Forall (λ path, enough_points isClosed (length path)) pathLonLat
  ∨ lonLatToCartesian_undefined e = None →
  capsLonLat isClosed e <$> pathLonLat
  = caps_vectors isClosed <$> vectorsLonLat e pathLonLat.
Proof.
  intros H. unfold vectorsLonLat. rewrite <- list_fmap_compose.
  apply Forall_fmap_ext_1. destruct H as [Hn|He].
  - eapply Forall_impl; [exact Hn|]. intros path Hp. simpl.
    unfold capsLonLat, caps_vectors.
    by rewrite cap_beforeLonLat_vectors, cap_afterLonLat_vectors by done.
  - apply Forall_true. intros path. simpl.
    rewrite capsLonLat_strict by done. unfold caps3v, caps_vectors.
    rewrite cap_before3v_vectors, cap_after3v_vectors, <- list_fmap_compose.
    done.
Qed.

Lemma appendLineData3v_run path3v isClosed ell o :
  outcome_map mesh_arrays (appendLineData3v path3v isClosed ell o)
  = outcome_map arrays_of
      (mesh_segments isClosed (length path3v) 0
         (caps_vectors isClosed <$> vectors3v path3v) (mesh_start o)).
Proof.
  unfold appendLineData3v.
  set (o0 := set_extent (reset_extent (outExtent o)) o).
  rewrite <- caps3v_vectors.
  change (mesh_start o) with (mesh_start o0). unfold mesh_start.
  rewrite <- (mesh_of_leading_pair o0), <- (segments3v_mesh isClosed ell).
  by destruct (segments3v _ _ _ _ _ _).
Qed.

Lemma appendLineDataLonLat_run pathLonLat isClosed e o :
  Forall (λ path, enough_points isClosed (length path)) pathLonLat
  ∨ lonLatToCartesian_undefined e = None →
  outcome_map mesh_arrays (appendLineDataLonLat pathLonLat isClosed e o)
  = outcome_map arrays_of
      (mesh_segments isClosed (length pathLonLat) 0
         (caps_vectors isClosed <$> vectorsLonLat e pathLonLat) (mesh_start o)).
Proof.
  intros H. unfold appendLineDataLonLat.
  set (o0 := set_extent (reset_extent (outExtent o)) o).
  rewrite <- capsLonLat_vectors by done.
  change (mesh_start o) with (mesh_start o0). unfold mesh_start.
  rewrite <- (mesh_of_leading_pair o0), <- (segmentsLonLat_mesh isClosed e).
  by destruct (segmentsLonLat _ _ _ _ _ _).
Qed.

Lemma mesh_start_empty o :
  no_prior_data o → mesh_start o = mkMesh (Some 0) [] [] [Some 0; Some 0].
Proof. intros (HV & HO & HI). unfold mesh_start. by rewrite HV, HO, HI. Qed.

(** *** Inputs of either kind *)

(** A geodetic input whose ellipsoid throws on a missing point; a Cartesian
    input always throws there. *)
Definition throws_on_missing (i : PathInput) : Prop :=
  match i with
  | Cartesian _ _ => True
  | Geodetic _ e => lonLatToCartesian_undefined e = None
  end.

Definition vectors_of (i : PathInput) : list (list Vec3) :=
  match i with
  | Cartesian path3v _ => vectors3v path3v
  | Geodetic pathLonLat e => vectorsLonLat e pathLonLat
  end.

Definition indexes_and_orders (o : Out) : list jsidx * list Z :=
  (outIndexes o, outOrders o).

Lemma lengths_vectors_of i : length <$> vectors_of i = shape i.
Proof. destruct i; [apply lengths_vectors3v | apply lengths_vectorsLonLat]. Qed.

Lemma caps_vectors_by_length isClosed vs : caps_by_length isClosed (caps_vectors isClosed vs).
Proof.
  pose proof (caps3v_by_length isClosed (P3Vec <$> vs)) as H.
  assert (toVec3 <$> (P3Vec <$> vs) = vs) as Hvec
    by (rewrite <- list_fmap_compose; apply list_fmap_id).
  unfold caps3v in H. by rewrite cap_before3v_vectors, cap_after3v_vectors, Hvec in H.
Qed.

Lemma build_topology i isClosed o :
  Forall (enough_points isClosed) (shape i) ∨ throws_on_missing i →
  outcome_map indexes_and_orders (build i isClosed o)
  = outcome_map (λ t : jsidx * list Z * list jsidx, (t.2, t.1.2))
      (outcome_map topology
         (mesh_segments isClosed (length (shape i)) 0
            (caps_vectors isClosed <$> vectors_of i) (mesh_start o))).
Proof.
  intros H.
  change indexes_and_orders
    with ((λ a : jsarray A * list Z * list jsidx, (a.2, a.1.2)) ∘ mesh_arrays).
  rewrite <- outcome_map_compose.
  rewrite (outcome_map_compose topology).
  change ((λ t : jsidx * list Z * list jsidx, (t.2, t.1.2)) ∘ topology)
    with ((λ a : jsarray A * list Z * list jsidx, (a.2, a.1.2)) ∘ arrays_of).
  rewrite <- (outcome_map_compose arrays_of). f_equal.
  destruct i as [path3v ell|pathLonLat e]; simpl.
  - rewrite length_fmap. apply appendLineData3v_run.
  - rewrite length_fmap. apply appendLineDataLonLat_run.
    destruct H as [Hn|He]; [left|by right].
    by apply (Forall_fmap length (enough_points isClosed)).
Qed.

(** * The claims on the mesh builders *)


(** C5.  For every ellipsoid and every geodetic path, the geodetic build
    and the Cartesian build of the pointwise [lonLatToCartesian] image (as
    arrays or as [Vec3] objects, with or without an ellipsoid of its own),
    with the same closed flag and both from empty output arrays, end alike
    and with identical vertex, order and index arrays.  This holds when every
    segment has at least two points, and then both builds complete; it holds
    for every path at all when the conversion throws on a missing point, as
    the Cartesian builder does. *)
Theorem geodetic_build_is_cartesian_build_of_image
    (e : Ellipsoid) (ell : option Ellipsoid)
    (pathLonLat : list (list PointLL)) (path3v : list (list Point3))
    (isClosed : bool) (o1 o2 : Out) :
  no_prior_data o1 → no_prior_data o2 →
  vectors3v path3v = vectorsLonLat e pathLonLat →
  Forall (λ path, 2 ≤ length path)%nat pathLonLat
  ∨ lonLatToCartesian_undefined e = None →
  outcome_map mesh_arrays (appendLineDataLonLat pathLonLat isClosed e o1)
  = outcome_map mesh_arrays (appendLineData3v path3v isClosed ell o2)
  ∧ (Forall (λ path, 2 ≤ length path)%nat pathLonLat →
     ∃ o1' o2',
       appendLineDataLonLat pathLonLat isClosed e o1 = Done o1'
       ∧ appendLineData3v path3v isClosed ell o2 = Done o2'
       ∧ outVertices o1' = outVertices o2'
       ∧ outOrders o1' = outOrders o2'
       ∧ outIndexes o1' = outIndexes o2').
Proof.
  intros H1 H2 Himg Hcase.
  assert (∀ path : list PointLL, (2 ≤ length path)%nat →
            enough_points isClosed (length path)) as Henough.
  { intros path Hp. unfold enough_points. destruct isClosed; lia. }
  split.
  - rewrite appendLineData3v_run, appendLineDataLonLat_run.
    + rewrite !mesh_start_empty, Himg by done.
      assert (length path3v = length pathLonLat) as ->; [|done].
      rewrite <- (length_fmap length path3v), <- (length_fmap length pathLonLat).
      by rewrite <- lengths_vectors3v, Himg, lengths_vectorsLonLat.
    + destruct Hcase as [Hn|He]; [left|by right].
      eapply Forall_impl; [exact Hn|]. exact Henough.
  - intros Hn. apply builds_agree; try done.
    eapply Forall_impl; [exact Hn|]. exact Henough.
Qed.

(** C6.  In a closed build, the blocks of a segment are: its last point
    [P(n-1)] four times, its points, its first point [P0] four times.  They
    start where the segments before it end, each of which takes twelve
    numbers per point and twenty-four for its caps.  The blocks are written
    out coordinate by coordinate: [xyz] reads the three coordinates of a
    point, given as an array or as a [Vec3], and [four] is a position four
    times.  Stated for every segment of a multi-segment path and over any
    prior output. *)
Theorem closed_segment_caps (ell : option Ellipsoid)
    (path3v : list (list Point3)) (o : Out) (j : nat) (path : list Point3) :
  let xyz := λ q : Point3,
    match q with
    | P3Array a b c => (a, b, c)
    | P3Vec v => (x v, y v, z v)
    end in
  let four := λ t : A * A * A,
    let '(a, b, c) := t in
    [Some a; Some b; Some c; Some a; Some b; Some c;
     Some a; Some b; Some c; Some a; Some b; Some c] in
  Forall (λ path, 2 ≤ length path)%nat path3v →
  path3v !! j = Some path →
  ∃ o' pl p0 V1 V2,
    appendLineData3v path3v true ell o = Done o'
    ∧ path !! (length path - 1)%nat = Some pl
    ∧ path !! 0%nat = Some p0
    ∧ outVertices o'
      = outVertices o ++ V1
        ++ (four (xyz pl) ++ flat_map (λ q, four (xyz q)) path ++ four (xyz p0))
        ++ V2
    ∧ length V1
      = sum_list ((λ n, n * 12 + 24)%nat <$> take j (length <$> path3v)).
Proof.
  intros xyz four Hn Hj.
  assert (Forall (λ path : list Point3, enough_points true (length path)) path3v) as Hn'.
  { eapply Forall_impl; [exact Hn|]. simpl. lia. }
  destruct (appendLineData3v_built path3v true ell o Hn') as (o' & Hrun & EV & _).
  assert (2 ≤ length path)%nat as Hp by (by eapply (Forall_lookup_1 _ _ _ _ Hn)).
  destruct (lookup_lt_is_Some_2 path (length path - 1)) as [pl Hl]; [lia|].
  destruct (lookup_lt_is_Some_2 path 0) as [p0 H0]; [lia|].
  destruct (path_vertices_split true (vectors3v path3v) j (toVec3 <$> path)
              (toVec3 pl) (toVec3 p0)) as (V1 & V2 & Esplit & HV1).
  - unfold vectors3v. apply Forall_fmap. eapply Forall_impl; [exact Hn'|].
    intros q Hq. simpl. by rewrite length_fmap.
  - unfold vectors3v. by rewrite list_lookup_fmap, Hj.
  - rewrite patch_cap_before_closed by (rewrite length_fmap; lia).
    by rewrite length_fmap, list_lookup_fmap, Hl.
  - by rewrite patch_cap_after_closed, list_lookup_fmap, H0.
  - exists o', pl, p0, V1, V2. repeat split; try done.
    + assert (∀ q, quad (toVec3 q) = four (xyz q)) as Hq by (by intros []).
      assert (∀ l, flat_map quad (toVec3 <$> l) = flat_map (λ q, four (xyz q)) l)
        as Hflat.
      { induction l as [|q l IH]; [done|].
        cbn [fmap list_fmap flat_map]. by rewrite IH, Hq. }
      by rewrite EV, Esplit, !Hq, Hflat.
    + by rewrite HV1, lengths_vectors3v.
Qed.


(** C10.  Two path inputs (each Cartesian or geodetic) with the same
    number of segments and the same segment lengths, built with the same
    closed flag from empty output arrays, end alike and with identical index
    arrays and identical order arrays.  This holds when every segment has at
    least two points, and then both builds complete and both arrays are the
    functions [shape_indexes] and [shape_orders] of the shape; it holds for
    every shape at all when, for a geodetic input, the conversion throws on a
    missing point. *)
Theorem indexes_and_orders_depend_on_shape_only
    (i1 i2 : PathInput) (isClosed : bool) (o1 o2 : Out) :
  no_prior_data o1 → no_prior_data o2 →
  shape i1 = shape i2 →
  Forall (λ n, 2 ≤ n)%nat (shape i1) ∨ (throws_on_missing i1 ∧ throws_on_missing i2) →
  outcome_map indexes_and_orders (build i1 isClosed o1)
  = outcome_map indexes_and_orders (build i2 isClosed o2)
  ∧ (Forall (λ n, 2 ≤ n)%nat (shape i1) →
     ∃ o1' o2',
       build i1 isClosed o1 = Done o1'
       ∧ build i2 isClosed o2 = Done o2'
       ∧ outIndexes o1' = outIndexes o2'
       ∧ outOrders o1' = outOrders o2'
       ∧ outOrders o1' = shape_orders (shape i1)
       ∧ outIndexes o1'
         = [Some 0; Some 0]
           ++ shape_indexes isClosed (length (shape i1)) 0 (Some 0) (shape i1)).
Proof.
  intros H1 H2 Hshape Hcase.
  assert (∀ n, (2 ≤ n)%nat → enough_points isClosed n) as Henough.
  { intros n Hp. unfold enough_points. destruct isClosed; lia. }
  split.
  - rewrite !build_topology.
    + rewrite !mesh_start_empty, Hshape by done. f_equal.
      apply mesh_segments_topology; [|done].
      apply (Forall2_same_caps isClosed).
      * apply Forall_fmap, Forall_true. intros vs. apply caps_vectors_by_length.
      * apply Forall_fmap, Forall_true. intros vs. apply caps_vectors_by_length.
      * rewrite <- !list_fmap_compose. change (length <$> vectors_of i1 = length <$> vectors_of i2).
        by rewrite !lengths_vectors_of.
    + destruct Hcase as [Hn|[_ He]]; [left|by right].
      rewrite <- Hshape. eapply Forall_impl; [exact Hn|]. exact Henough.
    + destruct Hcase as [Hn|[He _]]; [left|by right].
      eapply Forall_impl; [exact Hn|]. exact Henough.
  - intros Hn.
    assert (Forall (enough_points isClosed) (shape i1)) as Hn'
      by (eapply Forall_impl; [exact Hn|]; exact Henough).
    destruct (build_shape i1 isClosed o1 H1 Hn') as (o1' & Hrun1 & EO1 & EI1).
    destruct (build_shape i2 isClosed o2 H2) as (o2' & Hrun2 & EO2 & EI2).
    { by rewrite <- Hshape. }
    exists o1', o2'. repeat split; try done.
    + by rewrite EI1, EI2, Hshape.
    + by rewrite EO1, EO2, Hshape.
Qed.

(** ** The patcher: what a block write changes *)

(** Entry [d] of the twelve numbers written for a position. *)
Definition quad_entry (q : Vec3) (d : nat) : option A := js_read (quad q) d.

Lemma js_read_write_block_inside (v : jsarray A) (k d : nat) (q : Vec3) :
  (d < 12)%nat → js_read (write_block v k q) (k + d) = quad_entry q d.
Proof.
  intros Hd. unfold write_block, quad_entry.
  do 12 (destruct d as [|d];
    [ repeat (rewrite js_read_store;
              destruct (decide _) as [?|?]; [reflexivity || lia|]); lia |]).
  lia.
Qed.

Lemma js_read_write_block_outside (v : jsarray A) (k k' : nat) (q : Vec3) :
  (k' < k ∨ k + 12 ≤ k')%nat → js_read (write_block v k q) k' = js_read v k'.
Proof.
  intros Hk. unfold write_block.
  repeat (rewrite js_read_store; destruct (decide _) as [?|?]; [lia|]).
  done.
Qed.

(** ** The patcher: the geodetic side *)

(** An array of arrays without holes. *)
Definition dense {T} (l : list (list T)) : jsarray (jsarray T) :=
  (λ s : list T, Some (Some <$> s)) <$> l.

(** [a[i] = v] for [i] up to the length: replace, or append at the end. *)
Definition set_point {T} (l : list T) (i : nat) (v : T) : list T :=
  if decide (i < length l)%nat then <[i := v]> l else l ++ [v].

(** All geodetic points an array of arrays holds, holes skipped. *)
Definition stored_points (l : jsarray (jsarray LonLat)) : list LonLat :=
  flat_map (λ s, match s with Some pi => omap id pi | None => [] end) l.

Lemma omap_id_Some {T} (l : list T) : omap id (Some <$> l) = l.
Proof. induction l as [|a l IH]; simpl; [done|]. by f_equal. Qed.

Lemma stored_points_dense (ls : list (list LonLat)) : stored_points (dense ls) = concat ls.
Proof.
  unfold stored_points, dense. induction ls as [|s ls IH]; [done|].
  cbn [fmap list_fmap flat_map concat]. by rewrite omap_id_Some, IH.
Qed.

Lemma js_store_dense {T} (l : list T) (i : nat) (v : T) :
  (i ≤ length l)%nat → js_store (Some <$> l) i v = Some <$> set_point l i v.
Proof.
  intros Hi. unfold js_store, set_point. rewrite length_fmap.
  destruct (decide (i < length l)%nat) as [Hlt|Hge].
  - by rewrite list_fmap_insert.
  - replace (i - length l)%nat with 0%nat by lia. by rewrite fmap_app.
Qed.

Lemma js_read_fmap_Some {T} (l : list T) (k : nat) : js_read (Some <$> l) k = l !! k.
Proof. unfold js_read. rewrite list_lookup_fmap. by destruct (l !! k). Qed.

Lemma js_read_dense {T} (ls : list (list T)) (k : nat) :
  js_read (dense ls) k = (λ s : list T, Some <$> s) <$> ls !! k.
Proof. unfold js_read, dense. rewrite list_lookup_fmap. by destruct (ls !! k). Qed.

Lemma dense_insert {T} (ls : list (list T)) (k : nat) (s : list T) :
  <[k := Some (Some <$> s)]> (dense ls) = dense (<[k := s]> ls).
Proof. unfold dense. by rewrite list_fmap_insert. Qed.

Lemma extent_points_dense (pts : list LonLat) (e : Extent) :
  extent_points (Some <$> pts) e = Done (foldl extend e pts).
Proof. revert e. induction pts as [|g pts IH]; intros e; simpl; [done|]. apply IH. Qed.

Lemma extent_paths_dense (ls : list (list LonLat)) (e : Extent) :
  extent_paths (dense ls) e = Done (foldl extend e (concat ls)).
Proof.
  revert e. induction ls as [|s ls IH]; intros e; [done|].
  cbn [dense fmap list_fmap extent_paths concat].
  rewrite extent_points_dense, foldl_app. apply IH.
Qed.

(** The geodetic arrays can take an edit of point [i] of segment [seg]. *)
Definition geodetic_ready (p : Polyline) (seg i : nat)
    (ls : list (list LonLat)) (lseg : list LonLat) : Prop :=
  _pathLonLat p = dense ls ∧ ls !! seg = Some lseg ∧ (i ≤ length lseg)%nat
  ∧ is_Some (js_read (_pathLonLatMerc p) seg).

(** Fields the geodetic side leaves alone. *)
Definition mesh_untouched (p p' : Polyline) : Prop :=
  _closedLine p' = _closedLine p ∧ _path3v p' = _path3v p
  ∧ _vertices p' = _vertices p ∧ _orders p' = _orders p ∧ _indexes p' = _indexes p
  ∧ _renderNode p' = _renderNode p ∧ _changedBuffers p' = _changedBuffers p.

Lemma patch_geodetic_ready e c seg i p ls lseg :
  geodetic_ready p seg i ls lseg →
  ∃ p', patch_geodetic e c seg i p = Done p'
        ∧ _pathLonLat p' = dense (<[seg := set_point lseg i (cartesianToLonLat e c)]> ls)
        ∧ _extent p'
          = foldl extend (reset_extent (_extent p))
              (concat (<[seg := set_point lseg i (cartesianToLonLat e c)]> ls))
        ∧ mesh_untouched p p'.
Proof.
  intros (Hl & Hseg & Hi & [ms Hm]). unfold patch_geodetic.
  rewrite Hl, js_read_dense, Hseg. cbn [fmap option_fmap option_map].
  rewrite Hm, js_store_dense, dense_insert, extent_paths_dense by done.
  eexists. split; [done|]. by repeat split.
Qed.

(** ** The patcher: offsets *)

Lemma vertex_offset_S lens n len :
  lens !! n = Some len →
  vertex_offset lens (S n) = (vertex_offset lens n + (len * 12 + 24))%nat.
Proof.
  intros Hn. unfold vertex_offset.
  rewrite (take_S_r _ _ _ Hn), fmap_app, sum_list_with_app. simpl. unfold id. lia.
Qed.

Lemma segment_offset_dense (segs : list (list Vec3)) (n : nat) :
  (n ≤ length segs)%nat →
  segment_offset (Some <$> segs) n = Some (vertex_offset (length <$> segs) n).
Proof.
  induction n as [|n IH]; intros Hn; [done|].
  cbn [segment_offset]. rewrite IH by lia.
  destruct (lookup_lt_is_Some_2 segs n) as [s Hs]; [lia|].
  rewrite js_read_fmap_Some, Hs.
  by rewrite (vertex_offset_S _ _ (length s)) by (by rewrite list_lookup_fmap, Hs).
Qed.

Lemma vec3_eta (c : Vec3) : mkVec3 (x c) (y c) (z c) = c.
Proof. by destruct c. Qed.

(** ** The patcher on a built polyline *)

Definition near_start (index : Z) : bool := (index =? 0) || (index =? 1).

Definition near_end (index : Z) (n : nat) : bool :=
  (index =? Z.of_nat n - 1) || (index =? Z.of_nat n - 2).

(** The vertex array after an edit: up to three block writes, in the order
    the patcher makes them. *)
Definition patched_vertices (isClosed : bool) (index : Z) (kk : nat)
    (path : list Vec3) (c : Vec3) (v : jsarray A) : jsarray A :=
  let v1 :=
    if near_start index then
      match patch_cap_before isClosed path with
      | Some last => write_block v kk last
      | None => v
      end
    else v in
  let v2 := write_block v1 (kk + Z.to_nat index * 12 + 12) c in
  if near_end index (length path) then
    match patch_cap_after isClosed path with
    | Some first => write_block v2 (kk + length path * 12 + 12) first
    | None => v2
    end
  else v2.

Lemma setPoint3v_done c index segmentIndex force p rn segs path0 ls lseg :
  let segIdx := default 0 segmentIndex in
  let seg := Z.to_nat segIdx in
  let i := Z.to_nat index in
  let path := <[i := c]> path0 in
  _renderNode p = Some rn →
  _path3v p = Some <$> segs →
  0 ≤ segIdx → segs !! seg = Some path0 →
  0 ≤ index < Z.of_nat (length path0) →
  enough_points (_closedLine p) (length path0) →
  (force = false → is_Some (ellipsoid rn) → geodetic_ready p seg i ls lseg) →
  ∃ p',
    setPoint3v c index segmentIndex force p = Done p'
    ∧ _path3v p' = Some <$> <[seg := path]> segs
    ∧ _vertices p'
      = patched_vertices (_closedLine p) index (vertex_offset (length <$> segs) seg)
          path c (_vertices p)
    ∧ _orders p' = _orders p
    ∧ _indexes p' = _indexes p
    ∧ _changedBuffers p' = js_store (_changedBuffers p) VERTICES_BUFFER true
    ∧ _closedLine p' = _closedLine p
    ∧ _renderNode p' = _renderNode p
    ∧ match (if force then None else ellipsoid rn) with
      | Some e =>
        _pathLonLat p' = dense (<[seg := set_point lseg i (cartesianToLonLat e c)]> ls)
        ∧ _extent p'
          = foldl extend (reset_extent (_extent p))
              (concat (<[seg := set_point lseg i (cartesianToLonLat e c)]> ls))
      | None => _pathLonLat p' = _pathLonLat p ∧ _extent p' = _extent p
      end.
Proof.
  intros segIdx seg i path Hrn Hsegs Hseg0 Hseg Hidx Hcaps Hgeo.
  unfold setPoint3v. fold segIdx. fold seg. fold i.
  rewrite Hrn, Hsegs, segment_offset_dense
    by (apply Nat.lt_le_incl; by eapply lookup_lt_Some).
  unfold js_get. destruct (Z.ltb_spec segIdx 0) as [?|_]; [lia|]. fold seg.
  rewrite js_read_fmap_Some, Hseg.
  destruct (dget_below path0 index Hidx) as [old ->].
  rewrite vec3_eta. fold path.
  set (kk := vertex_offset (length <$> segs) seg).
  assert (length path = length path0) as Hlen by apply length_insert.
  destruct (patch_cap_before_Some (_closedLine p) path) as [last Hlast];
    [by rewrite Hlen|].
  destruct (patch_cap_after_Some (_closedLine p) path) as [first Hfirst];
    [by rewrite Hlen|].
  rewrite <- list_fmap_insert.
  set (p1 := with_path3v _ p).
  unfold patched_vertices, patch_before, patch_after, near_start, near_end.
  change (_closedLine p1) with (_closedLine p).
  rewrite Hlast, Hfirst.
  set (v1 := if (index =? 0) || (index =? 1)
             then write_block (_vertices p) kk last else _vertices p).
  set (p2 := with_vertices v1 p1).
  assert ((if (index =? 0) || (index =? 1)
           then Done (with_vertices (write_block (_vertices p1) kk last) p1)
           else Done p1) = Done p2) as ->.
  { unfold p2, v1. destruct ((index =? 0) || (index =? 1)); [done|].
    by destruct p. }
  unfold patch_lonlat.
  destruct (if force then None else ellipsoid rn) as [e|] eqn:He.
  - destruct (patch_geodetic_ready e c seg i p2 ls lseg)
      as (p3 & -> & Hl3 & Hext3 & Hc3 & Hp3 & Hv3 & Ho3 & Hi3 & Hr3 & Hcb3).
    { change (geodetic_ready p seg i ls lseg). destruct force; [done|].
      apply Hgeo; [done|]. by rewrite He. }
    cbn [_closedLine with_vertices with_mesh].
    rewrite Hc3. change (_closedLine p2) with (_closedLine p). rewrite Hfirst.
    destruct ((index =? Z.of_nat (length path) - 1)
              || (index =? Z.of_nat (length path) - 2));
      (eexists; split; [reflexivity|]; cbn;
       rewrite ?Hp3, ?Hv3, ?Ho3, ?Hi3, ?Hr3, ?Hcb3, ?Hl3, ?Hext3, ?Hc3;
       by repeat split).
  - cbn [_closedLine with_vertices with_mesh].
    change (_closedLine p2) with (_closedLine p). rewrite Hfirst.
    destruct ((index =? Z.of_nat (length path) - 1)
              || (index =? Z.of_nat (length path) - 2));
      (eexists; split; [reflexivity|]; cbn; by repeat split).
Qed.

(** ** The extent as running minimum and maximum *)

Definition lower (m v : A) : A := if nltb v m then v else m.
Definition upper (m v : A) : A := if nltb m v then v else m.

(** [m] is the least, or the greatest, of the numbers [xs]: one of them,
    with none of them below it, or above it. *)
Definition is_min (m : A) (xs : list A) : Prop :=
  m ∈ xs ∧ ∀ v, v ∈ xs → nltb v m = false.

Definition is_max (m : A) (xs : list A) : Prop :=
  m ∈ xs ∧ ∀ v, v ∈ xs → nltb m v = false.

(** The extent is the exact bounding box of the points. *)
Definition exact_extent (e : Extent) (pts : list LonLat) : Prop :=
  is_min (lon (southWest e)) (lon <$> pts)
  ∧ is_min (lat (southWest e)) (lat <$> pts)
  ∧ is_max (lon (northEast e)) (lon <$> pts)
  ∧ is_max (lat (northEast e)) (lat <$> pts).

(** [lo <= v <= hi]: [v] is a bound or lies strictly between the two.
    [NaN], which no comparison places, is not within any bounds. *)
Definition within (lo v hi : A) : Prop :=
  (v = lo ∨ nltb lo v = true) ∧ (v = hi ∨ nltb v hi = true).

(** A geodetic point within [-180, 180] x [-90, 90]. *)
Definition in_range (g : LonLat) : Prop :=
  within (nconst (-180)) (lon g) (nconst 180)
  ∧ within (nconst (-90)) (lat g) (nconst 90).

Lemma foldl_extend (e : Extent) (pts : list LonLat) :
  foldl extend e pts
  = mkExtent
      (mkLonLat (foldl lower (lon (southWest e)) (lon <$> pts))
                (foldl lower (lat (southWest e)) (lat <$> pts))
                (height (southWest e)))
      (mkLonLat (foldl upper (lon (northEast e)) (lon <$> pts))
                (foldl upper (lat (northEast e)) (lat <$> pts))
                (height (northEast e))).
Proof.
  revert e. induction pts as [|g pts IH]; intros [[a b c] [a' b' c']]; [done|].
  cbn [foldl fmap list_fmap]. by rewrite IH.
Qed.

Lemma foldl_lower_invariant `{!NumOrder A} (m0 : A) (xs : list A) :
  (foldl lower m0 xs = m0 ∨ foldl lower m0 xs ∈ xs)
  ∧ ∀ v, v ∈ xs → nltb v (foldl lower m0 xs) = false.
Proof.
  induction xs as [|a xs [Hin Hle]] using rev_ind.
  - split; [by left|]. intros v Hv. by apply elem_of_nil in Hv.
  - rewrite foldl_app. cbn [foldl]. set (m := foldl lower m0 xs) in *.
    unfold lower. destruct (nltb a m) eqn:Ha.
    + split; [right; apply elem_of_app; right; by apply list_elem_of_singleton|].
      intros v [Hv|Hv%list_elem_of_singleton]%elem_of_app.
      * destruct (nltb v a) eqn:Hva; [|done].
        pose proof (Hle v Hv) as Hc. by rewrite (nltb_trans _ _ _ Hva Ha) in Hc.
      * subst v. apply nltb_irrefl.
    + split.
      * destruct Hin as [Hin|Hin]; [by left|].
        right. apply elem_of_app. by left.
      * intros v [Hv|Hv%list_elem_of_singleton]%elem_of_app; [by apply Hle|].
        by subst v.
Qed.

Lemma foldl_upper_invariant `{!NumOrder A} (m0 : A) (xs : list A) :
  (foldl upper m0 xs = m0 ∨ foldl upper m0 xs ∈ xs)
  ∧ ∀ v, v ∈ xs → nltb (foldl upper m0 xs) v = false.
Proof.
  induction xs as [|a xs [Hin Hle]] using rev_ind.
  - split; [by left|]. intros v Hv. by apply elem_of_nil in Hv.
  - rewrite foldl_app. cbn [foldl]. set (m := foldl upper m0 xs) in *.
    unfold upper. destruct (nltb m a) eqn:Ha.
    + split; [right; apply elem_of_app; right; by apply list_elem_of_singleton|].
      intros v [Hv|Hv%list_elem_of_singleton]%elem_of_app.
      * destruct (nltb a v) eqn:Hva; [|done].
        pose proof (Hle v Hv) as Hc. by rewrite (nltb_trans _ _ _ Ha Hva) in Hc.
      * subst v. apply nltb_irrefl.
    + split.
      * destruct Hin as [Hin|Hin]; [by left|].
        right. apply elem_of_app. by left.
      * intros v [Hv|Hv%list_elem_of_singleton]%elem_of_app; [by apply Hle|].
        by subst v.
Qed.

(** Starting from a number that every number of the list equals or is
    below, the running minimum of a list that is not empty is its least
    element: when the start is never undercut, the list holds the start. *)
Lemma foldl_lower_is_min `{!NumOrder A} (m0 : A) (xs : list A) :
  xs ≠ [] → (∀ v, v ∈ xs → v = m0 ∨ nltb v m0 = true) →
  is_min (foldl lower m0 xs) xs.
Proof.
  intros Hne Hbound. destruct (foldl_lower_invariant m0 xs) as [[Hm|Hm] Hle];
    split; try done.
  destruct xs as [|a xs]; [done|].
  assert (a = m0) as <-.
  { destruct (Hbound a) as [Ha|Ha]; [by left|done|].
    pose proof (Hle a ltac:(by left)) as Hc. by rewrite Hm, Ha in Hc. }
  rewrite Hm. by left.
Qed.

Lemma foldl_upper_is_max `{!NumOrder A} (m0 : A) (xs : list A) :
  xs ≠ [] → (∀ v, v ∈ xs → v = m0 ∨ nltb m0 v = true) →
  is_max (foldl upper m0 xs) xs.
Proof.
  intros Hne Hbound. destruct (foldl_upper_invariant m0 xs) as [[Hm|Hm] Hle];
    split; try done.
  destruct xs as [|a xs]; [done|].
  assert (a = m0) as <-.
  { destruct (Hbound a) as [Ha|Ha]; [by left|done|].
    pose proof (Hle a ltac:(by left)) as Hc. by rewrite Hm, Ha in Hc. }
  rewrite Hm. by left.
Qed.

(** From the reset extent, the comparisons of the builders and of the
    patcher end on the exact bounding box of points within range. *)
Lemma foldl_extend_exact `{!NumOrder A} (e : Extent) (pts : list LonLat) :
  pts ≠ [] → Forall in_range pts →
  exact_extent (foldl extend (reset_extent e) pts) pts.
Proof.
  intros Hne Hrange. rewrite foldl_extend. unfold exact_extent.
  cbn [reset_extent LonLat_set southWest northEast lon lat].
  assert (∀ f : LonLat → A, f <$> pts ≠ []) as Hne' by (intros f; by destruct pts).
  rewrite Forall_forall in Hrange.
  split; [|split; [|split]].
  1,2: apply foldl_lower_is_min; [done|];
       intros v (g & -> & Hg)%list_elem_of_fmap; by apply Hrange.
  all: apply foldl_upper_is_max; [done|];
       intros v (g & -> & Hg)%list_elem_of_fmap; by apply Hrange.
Qed.

(** ** Both builders drive one geodetic machine

    What a builder that has an ellipsoid does to the three path arrays and
    to the extent depends on the points only through the pairs (Cartesian
    position, geodetic point). *)

Record Geo := mkGeo {
  g_lonlat : jsarray (jsarray LonLat);
  g_3v : jsarray (list Vec3);
  g_merc : jsarray (jsarray LonLat);
  g_extent : Extent
}.

Definition geo_of (o : Out) : Geo :=
  mkGeo (outPathLonLat o) (outPath3v o) (outPathMerc o) (outExtent o).

Definition geo_open (j : nat) (G : Geo) : Geo :=
  mkGeo (js_store (g_lonlat G) j []) (js_store (g_3v G) j [])
        (js_store (g_merc G) j []) (g_extent G).

Definition geo_record (j : nat) (G : Geo) (cg : Vec3 * LonLat) : Geo :=
  mkGeo (slot_push_js (g_lonlat G) j cg.2) (slot_push (g_3v G) j cg.1)
        (slot_push_js (g_merc G) j (forwardMercator cg.2))
        (extend (g_extent G) cg.2).

Definition geo_segment (j : nat) (G : Geo) (cgs : list (Vec3 * LonLat)) : Geo :=
  foldl (geo_record j) (geo_open j G) cgs.

Fixpoint geo_segments (j : nat) (G : Geo) (cgss : list (list (Vec3 * LonLat))) : Geo :=
  match cgss with
  | [] => G
  | cgs :: rest => geo_segments (S j) (geo_segment j G cgs) rest
  end.

Definition pairs3v (e : Ellipsoid) (path : list Point3) : list (Vec3 * LonLat) :=
  (λ p, (toVec3 p, cartesianToLonLat e (toVec3 p))) <$> path.

Definition pairsLonLat (e : Ellipsoid) (path : list PointLL) : list (Vec3 * LonLat) :=
  (λ p, (lonLatToCartesian e (toLonLat p), toLonLat p)) <$> path.

Lemma geo_of_points3v e j path st :
  geo_of (foldl (point3v (Some e) j) st path).2
  = foldl (geo_record j) (geo_of st.2) (pairs3v e path).
Proof.
  revert st. induction path as [|p path IH]; intros st; [done|].
  cbn [foldl pairs3v fmap list_fmap]. by rewrite IH.
Qed.

Lemma geo_of_pointsLonLat e j path st :
  geo_of (foldl (pointLonLat e j) st path).2
  = foldl (geo_record j) (geo_of st.2) (pairsLonLat e path).
Proof.
  revert st. induction path as [|p path IH]; intros st; [done|].
  cbn [foldl pairsLonLat fmap list_fmap]. by rewrite IH.
Qed.

Lemma geo_of_seam nseg j st : geo_of (seam nseg j st).2 = geo_of st.2.
Proof. unfold seam. by destruct (Z.of_nat j <? Z.of_nat nseg - 1). Qed.

Lemma geo_of_segment3v isClosed e nseg j path st st' :
  segment3v isClosed (Some e) nseg j path st = Done st' →
  geo_of st'.2 = geo_segment j (geo_of st.2) (pairs3v e path).
Proof.
  unfold segment3v.
  destruct (cap_before3v isClosed path) as [last|]; [|done].
  destruct (cap_after3v isClosed path) as [first|]; [|done].
  intros [= <-]. rewrite geo_of_seam.
  set (st1 := foldl _ _ path).
  change (geo_of st1.2 = geo_segment j (geo_of st.2) (pairs3v e path)).
  unfold st1. by rewrite geo_of_points3v.
Qed.

Lemma geo_of_segmentLonLat isClosed e nseg j path st st' :
  segmentLonLat isClosed e nseg j path st = Done st' →
  geo_of st'.2 = geo_segment j (geo_of st.2) (pairsLonLat e path).
Proof.
  unfold segmentLonLat.
  destruct (cap_beforeLonLat isClosed e path) as [last|]; [|done].
  destruct (cap_afterLonLat isClosed e path) as [first|]; [|done].
  intros [= <-]. rewrite geo_of_seam.
  set (st1 := foldl _ _ path).
  change (geo_of st1.2 = geo_segment j (geo_of st.2) (pairsLonLat e path)).
  unfold st1. by rewrite geo_of_pointsLonLat.
Qed.

Lemma geo_of_segments3v isClosed e nseg j paths st st' :
  segments3v isClosed (Some e) nseg j paths st = Done st' →
  geo_of st'.2 = geo_segments j (geo_of st.2) (pairs3v e <$> paths).
Proof.
  revert j st. induction paths as [|path paths IH]; intros j st; simpl.
  - by intros [= <-].
  - destruct (segment3v isClosed (Some e) nseg j path st) as [st1|st1] eqn:Hseg; [|done].
    intros Hrest. rewrite (IH _ _ Hrest). by rewrite (geo_of_segment3v _ _ _ _ _ _ _ Hseg).
Qed.

Lemma geo_of_segmentsLonLat isClosed e nseg j paths st st' :
  segmentsLonLat isClosed e nseg j paths st = Done st' →
  geo_of st'.2 = geo_segments j (geo_of st.2) (pairsLonLat e <$> paths).
Proof.
  revert j st. induction paths as [|path paths IH]; intros j st; simpl.
  - by intros [= <-].
  - destruct (segmentLonLat isClosed e nseg j path st) as [st1|st1] eqn:Hseg; [|done].
    intros Hrest. rewrite (IH _ _ Hrest). by rewrite (geo_of_segmentLonLat _ _ _ _ _ _ _ Hseg).
Qed.

(** *** The machine on arrays without holes *)

Lemma dense_snoc {T} (L : list (list T)) (s : list T) :
  dense (L ++ [s]) = dense L ++ [Some (Some <$> s)].
Proof. unfold dense. by rewrite fmap_app. Qed.

Lemma length_dense {T} (L : list (list T)) : length (dense L) = length L.
Proof. unfold dense. apply length_fmap. Qed.

Lemma slot_push_js_last {T} (L : list (list T)) (s : list T) (v : T) (j : nat) :
  length L = j →
  slot_push_js (dense (L ++ [s])) j v = dense (L ++ [s ++ [v]]).
Proof.
  intros <-. unfold slot_push_js. rewrite js_read_dense.
  rewrite lookup_app_r, Nat.sub_diag by done. cbn [lookup list_lookup fmap option_fmap option_map].
  rewrite !dense_snoc, <- (length_dense L), insert_app_r_alt, Nat.sub_diag by done.
  cbn [insert list_insert]. by rewrite fmap_app.
Qed.

Lemma slot_push_last {T} (L : list (list T)) (s : list T) (v : T) (j : nat) :
  length L = j →
  slot_push (Some <$> (L ++ [s])) j v = Some <$> (L ++ [s ++ [v]]).
Proof.
  intros <-. unfold slot_push. rewrite js_read_fmap_Some.
  rewrite lookup_app_r, Nat.sub_diag by done. cbn [lookup list_lookup].
  rewrite !fmap_app. rewrite <- (length_fmap Some L) at 1.
  rewrite insert_app_r_alt, Nat.sub_diag by done. done.
Qed.

(** The shape of the path arrays after [j] turns of the outer loop: no hole,
    [j] segments each. *)
Definition geo_dense (G : Geo) (L : list (list LonLat)) (C : list (list Vec3))
    (M : list (list LonLat)) : Prop :=
  g_lonlat G = dense L ∧ g_3v G = Some <$> C ∧ g_merc G = dense M.

Lemma geo_points_dense j cgs : ∀ G L C M sL sC sM,
  geo_dense G (L ++ [sL]) (C ++ [sC]) (M ++ [sM]) →
  length L = j → length C = j → length M = j →
  geo_dense (foldl (geo_record j) G cgs)
    (L ++ [sL ++ cgs.*2]) (C ++ [sC ++ cgs.*1])
    (M ++ [sM ++ (forwardMercator <$> cgs.*2)])
  ∧ g_extent (foldl (geo_record j) G cgs) = foldl extend (g_extent G) cgs.*2.
Proof.
  induction cgs as [|[c g] cgs IH]; intros G L C M sL sC sM (HL & HC & HM) lL lC lM.
  - cbn [foldl fmap list_fmap]. by rewrite !app_nil_r.
  - cbn [foldl].
    destruct (IH (geo_record j G (c, g)) L C M (sL ++ [g]) (sC ++ [c])
                (sM ++ [forwardMercator g])) as (Hd & He); try done.
    { unfold geo_record, geo_dense. cbn [g_lonlat g_3v g_merc fst snd].
      rewrite HL, HC, HM.
      by rewrite !slot_push_js_last, slot_push_last by done. }
    cbn [fmap list_fmap fst snd]. rewrite <- !app_assoc in Hd. split; [exact Hd|].
    by rewrite He.
Qed.

Lemma geo_segments_dense cgss : ∀ j G L C M,
  geo_dense G L C M →
  length L = j → length C = j → length M = j →
  geo_dense (geo_segments j G cgss)
    (L ++ ((λ cgs : list (Vec3 * LonLat), cgs.*2) <$> cgss))
    (C ++ ((λ cgs : list (Vec3 * LonLat), cgs.*1) <$> cgss))
    (M ++ ((λ cgs : list (Vec3 * LonLat), forwardMercator <$> cgs.*2) <$> cgss))
  ∧ g_extent (geo_segments j G cgss)
    = foldl extend (g_extent G) (concat ((λ cgs : list (Vec3 * LonLat), cgs.*2) <$> cgss)).
Proof.
  induction cgss as [|cgs cgss IH]; intros j G L C M (HL & HC & HM) lL lC lM.
  - cbn [geo_segments fmap list_fmap concat foldl]. by rewrite !app_nil_r.
  - cbn [geo_segments]. unfold geo_segment.
    destruct (geo_points_dense j cgs (geo_open j G) L C M [] [] []) as (Hd & He);
      try done.
    { unfold geo_open, geo_dense. cbn [g_lonlat g_3v g_merc].
      rewrite HL, HC, HM.
      rewrite !js_store_at_end by (by rewrite ?length_dense, ?length_fmap).
      by rewrite !dense_snoc, fmap_app. }
    cbn [app] in Hd.
    destruct (IH (S j) _ _ _ _ Hd) as (Hd' & He');
      try (rewrite length_app; simpl; lia).
    cbn [fmap list_fmap concat]. rewrite <- !app_assoc in Hd'.
    split; [exact Hd'|]. by rewrite He', He, foldl_app.
Qed.

(** ** What a rebuild stores *)

(** The geodetic points of a path, segment by segment. *)
Definition geodetic3v (e : Ellipsoid) (path3v : list (list Point3)) : list (list LonLat) :=
  (λ path : list Point3, (λ p, cartesianToLonLat e (toVec3 p)) <$> path) <$> path3v.

Definition geodeticLonLat (pathLonLat : list (list PointLL)) : list (list LonLat) :=
  (λ path : list PointLL, toLonLat <$> path) <$> pathLonLat.

Lemma geo_of_leading_pair o : geo_of (leading_pair o).2 = geo_of o.
Proof. unfold leading_pair. by destruct (outIndexes o). Qed.

Lemma geo_of_appendLineData3v path3v isClosed e o o' :
  appendLineData3v path3v isClosed (Some e) o = Done o' →
  geo_of o'
  = geo_segments 0 (geo_of (set_extent (reset_extent (outExtent o)) o))
      (pairs3v e <$> path3v).
Proof.
  unfold appendLineData3v.
  destruct (segments3v _ _ _ _ _ _) as [st|st] eqn:Hrun; [|done].
  intros [= <-]. by rewrite (geo_of_segments3v _ _ _ _ _ _ _ Hrun), geo_of_leading_pair.
Qed.

Lemma geo_of_appendLineDataLonLat pathLonLat isClosed e o o' :
  appendLineDataLonLat pathLonLat isClosed e o = Done o' →
  geo_of o'
  = geo_segments 0 (geo_of (set_extent (reset_extent (outExtent o)) o))
      (pairsLonLat e <$> pathLonLat).
Proof.
  unfold appendLineDataLonLat.
  destruct (segmentsLonLat _ _ _ _ _ _) as [st|st] eqn:Hrun; [|done].
  intros [= <-]. by rewrite (geo_of_segmentsLonLat _ _ _ _ _ _ _ Hrun), geo_of_leading_pair.
Qed.

(** The coordinate arrays and the extent after a rebuild with an
    ellipsoid: index-aligned, without holes, and the extent folded over
    every geodetic point from the reset extent. *)
Definition stored (C : list (list Vec3)) (L : list (list LonLat)) (p p' : Polyline) : Prop :=
  _path3v p' = Some <$> C
  ∧ _pathLonLat p' = dense L
  ∧ _pathLonLatMerc p' = dense ((λ s : list LonLat, forwardMercator <$> s) <$> L)
  ∧ _extent p' = foldl extend (reset_extent (_extent p)) (concat L).

Lemma stored_of_geo (cgss : list (list (Vec3 * LonLat))) (p : Polyline) (o' : Out) :
  geo_of o'
  = geo_segments 0 (geo_of (set_extent (reset_extent (outExtent (out_of (_clearData p))))
                                       (out_of (_clearData p)))) cgss →
  stored ((λ cgs : list (Vec3 * LonLat), cgs.*1) <$> cgss)
         ((λ cgs : list (Vec3 * LonLat), cgs.*2) <$> cgss)
         p (store_out o' (_clearData p)).
Proof.
  intros Hgeo.
  destruct (geo_segments_dense cgss 0
              (geo_of (set_extent (reset_extent (outExtent (out_of (_clearData p))))
                                  (out_of (_clearData p)))) [] [] [])
    as ((HL & HC & HM) & He); try done.
  rewrite <- Hgeo in HL, HC, HM, He. cbn [app] in HL, HC, HM.
  unfold stored.
  split; [exact HC|]. split; [exact HL|]. split; [|exact He].
  rewrite <- list_fmap_compose. exact HM.
Qed.

Lemma _createData3v_stored path3v p rn e :
  _renderNode p = Some rn → ellipsoid rn = Some e →
  Forall (λ path, enough_points (_closedLine p) (length path)) path3v →
  ∃ p', _createData3v path3v p = Done p'
        ∧ rebuilt (vectors3v path3v) p p'
        ∧ stored (vectors3v path3v) (geodetic3v e path3v) p p'.
Proof.
  intros Hrn He Hn.
  destruct (_createData3v_rebuilt path3v p rn Hrn Hn) as (p' & Hrun & Hp').
  exists p'. split; [done|]. split; [done|].
  unfold _createData3v in Hrun.
  change (_renderNode (_clearData p)) with (_renderNode p) in Hrun.
  rewrite Hrn, He in Hrun.
  destruct (appendLineData3v _ _ _ _) as [o'|o'] eqn:Happ; [|done].
  injection Hrun as <-.
  pose proof (stored_of_geo _ p o' (geo_of_appendLineData3v _ _ _ _ _ Happ)) as Hs.
  unfold vectors3v, geodetic3v. unfold pairs3v in Hs.
  rewrite <- !list_fmap_compose in Hs.
  erewrite (list_fmap_ext _ (λ path : list Point3, toVec3 <$> path)) in Hs
    by (intros _ path _; simpl; by rewrite <- list_fmap_compose).
  erewrite (list_fmap_ext _ (λ path : list Point3,
              (λ q, cartesianToLonLat e (toVec3 q)) <$> path) path3v) in Hs
    by (intros _ path _; simpl; by rewrite <- list_fmap_compose).
  exact Hs.
Qed.

Lemma _createDataLonLat_stored pathLonLat p rn e :
  _renderNode p = Some rn → ellipsoid rn = Some e →
  Forall (λ path, enough_points (_closedLine p) (length path)) pathLonLat →
  ∃ p', _createDataLonLat pathLonLat p = Done p'
        ∧ rebuilt (vectorsLonLat e pathLonLat) p p'
        ∧ stored (vectorsLonLat e pathLonLat) (geodeticLonLat pathLonLat) p p'.
Proof.
  intros Hrn He Hn.
  destruct (_createDataLonLat_rebuilt pathLonLat p rn e Hrn He Hn) as (p' & Hrun & Hp').
  exists p'. split; [done|]. split; [done|].
  unfold _createDataLonLat in Hrun.
  change (_renderNode (_clearData p)) with (_renderNode p) in Hrun.
  rewrite Hrn, He in Hrun.
  destruct (appendLineDataLonLat _ _ _ _) as [o'|o'] eqn:Happ; [|done].
  injection Hrun as <-.
  pose proof (stored_of_geo _ p o' (geo_of_appendLineDataLonLat _ _ _ _ _ Happ)) as Hs.
  unfold vectorsLonLat, geodeticLonLat. unfold pairsLonLat in Hs.
  rewrite <- !list_fmap_compose in Hs.
  erewrite (list_fmap_ext _ (λ path : list PointLL,
              (λ q, lonLatToCartesian e (toLonLat q)) <$> path)) in Hs
    by (intros _ path _; simpl; by rewrite <- list_fmap_compose).
  erewrite (list_fmap_ext _ (λ path : list PointLL, toLonLat <$> path) pathLonLat) in Hs
    by (intros _ path _; simpl; by rewrite <- list_fmap_compose).
  exact Hs.
Qed.

(** After a rebuild with an ellipsoid the geodetic arrays can take an edit
    of any stored point. *)
Lemma stored_geodetic_ready C L p p' seg i lseg :
  stored C L p p' → L !! seg = Some lseg → (i ≤ length lseg)%nat →
  geodetic_ready p' seg i L lseg.
Proof.
  intros (_ & HL & HM & _) Hseg Hi. repeat split; try done.
  rewrite HM, js_read_dense, list_lookup_fmap, Hseg. by eexists.
Qed.

(** * The claim on the extent *)

Lemma concat_nonempty {T} (L : list (list T)) (s : list T) (k : nat) :
  L !! k = Some s → s ≠ [] → concat L ≠ [].
Proof.
  intros Hk Hs Hnil. apply Hs.
  assert (s ∈ L) as Hin by (by eapply list_elem_of_lookup_2).
  apply (f_equal length) in Hnil. simpl in Hnil.
  destruct s as [|a s]; [done|].
  apply list_elem_of_split in Hin as (L1 & L2 & ->).
  rewrite concat_app, length_app in Hnil. simpl in Hnil. lia.
Qed.

Lemma set_point_nonempty {T} (l : list T) (i : nat) (v : T) : set_point l i v ≠ [].
Proof.
  unfold set_point. destruct (decide (i < length l)%nat) as [Hlt|Hge].
  - intros Hnil. apply (f_equal length) in Hnil.
    rewrite length_insert in Hnil. simpl in Hnil. lia.
  - by destruct l.
Qed.

Lemma Forall_set_point {T} (P : T → Prop) (l : list T) (i : nat) (v : T) :
  Forall P l → P v → Forall P (set_point l i v).
Proof.
  intros Hl Hv. unfold set_point. destruct (decide (i < length l)%nat).
  - by apply Forall_insert.
  - apply Forall_app. split; [done|]. by apply Forall_singleton.
Qed.

Lemma length_set_point {T} (l : list T) (i : nat) (v : T) :
  (i < length l)%nat → length (set_point l i v) = length l.
Proof.
  intros Hi. unfold set_point. destruct (decide (i < length l)%nat); [|lia].
  apply length_insert.
Qed.

Lemma lengths_insert {T} (L : list (list T)) (k : nat) (s s' : list T) :
  L !! k = Some s → length s' = length s → length <$> <[k := s']> L = length <$> L.
Proof.
  intros Hk Hlen. rewrite list_fmap_insert, Hlen.
  apply list_insert_id. by rewrite list_lookup_fmap, Hk.
Qed.

Lemma lookup_lengths {T} (L : list (list T)) (lens : list nat) (k n : nat) :
  length <$> L = lens → lens !! k = Some n → ∃ s, L !! k = Some s ∧ length s = n.
Proof.
  intros <- Hk. rewrite list_lookup_fmap in Hk.
  destruct (L !! k) as [s|]; [|done]. exists s. split; [done|]. by injection Hk.
Qed.

(** ** The Mercator array under an edit *)

Lemma patch_before_merc index kk path p p' :
  patch_before index kk path p = Done p' → _pathLonLatMerc p' = _pathLonLatMerc p.
Proof.
  unfold patch_before. destruct ((index =? 0) || (index =? 1)).
  - destruct (patch_cap_before _ _); [|done]. by intros [= <-].
  - by intros [= <-].
Qed.

Lemma patch_after_merc index kk path p p' :
  patch_after index kk path p = Done p' → _pathLonLatMerc p' = _pathLonLatMerc p.
Proof.
  unfold patch_after. destruct (_ || _).
  - destruct (patch_cap_after _ _); [|done]. by intros [= <-].
  - by intros [= <-].
Qed.

Lemma patch_geodetic_merc e c seg i p p' ms mseg :
  patch_geodetic e c seg i p = Done p' →
  _pathLonLatMerc p = dense ms → ms !! seg = Some mseg → (i ≤ length mseg)%nat →
  _pathLonLatMerc p'
  = dense (<[seg := set_point mseg i (forwardMercator (cartesianToLonLat e c))]> ms).
Proof.
  unfold patch_geodetic. intros Hrun Hm Hseg Hi.
  rewrite Hm, js_read_dense, Hseg in Hrun. cbn [fmap option_fmap option_map] in Hrun.
  destruct (js_read (_pathLonLat p) seg) as [lsg|]; [|done].
  destruct (extent_paths _ _) as [ex|ex]; [|done].
  injection Hrun as <-. cbn [_pathLonLatMerc with_extent with_paths].
  by rewrite js_store_dense, dense_insert.
Qed.

Lemma setPoint3v_merc c index segmentIndex p p' rn e ms mseg :
  _renderNode p = Some rn → ellipsoid rn = Some e →
  setPoint3v c index segmentIndex false p = Done p' →
  _pathLonLatMerc p = dense ms →
  ms !! Z.to_nat (default 0 segmentIndex) = Some mseg →
  (Z.to_nat index ≤ length mseg)%nat →
  _pathLonLatMerc p'
  = dense (<[Z.to_nat (default 0 segmentIndex)
             := set_point mseg (Z.to_nat index)
                  (forwardMercator (cartesianToLonLat e c))]> ms).
Proof.
  intros Hrn He Hrun Hm Hseg Hi. unfold setPoint3v in Hrun. rewrite Hrn in Hrun.
  destruct (segment_offset _ _) as [kk|]; [|done].
  destruct (js_get _ _) as [path0|]; [|done].
  destruct (dget path0 index) as [old|]; [|done].
  destruct (patch_before _ _ _ _) as [p2|] eqn:Hb; [|done].
  destruct (patch_lonlat _ _ _ _ _ _) as [p3|] eqn:Hl; [|done].
  destruct (patch_after _ _ _ _) as [p5|] eqn:Ha; [|done].
  injection Hrun as <-.
  apply patch_before_merc in Hb. apply patch_after_merc in Ha.
  unfold patch_lonlat in Hl. rewrite He in Hl.
  cbn [_pathLonLatMerc with_changed]. rewrite Ha.
  cbn [_pathLonLatMerc with_vertices with_mesh].
  apply (patch_geodetic_merc _ _ _ _ _ _ _ _ Hl); [|done..].
  by rewrite Hb.
Qed.

(** ** What every edit keeps

    After a rebuild with an ellipsoid the three coordinate arrays are
    without holes and have one shape, every segment has the points its caps
    read, and (when the input is) every geodetic point is in range.  An edit
    of a stored point keeps all of that. *)

Definition editable (lens : list nat) (p : Polyline) : Prop :=
  ∃ (segs : list (list Vec3)) (ls ms : list (list LonLat)),
    _path3v p = Some <$> segs ∧ _pathLonLat p = dense ls ∧ _pathLonLatMerc p = dense ms
    ∧ length <$> segs = lens ∧ length <$> ls = lens ∧ length <$> ms = lens
    ∧ Forall (enough_points (_closedLine p)) lens
    ∧ Forall (Forall in_range) ls.

(** An edit of a stored point to a position whose geodetic image is in
    range. *)
Definition valid_edit (e : Ellipsoid) (lens : list nat) (ed : Edit) : Prop :=
  0 ≤ default 0 (edit_segment ed)
  ∧ (∃ n, lens !! Z.to_nat (default 0 (edit_segment ed)) = Some n
          ∧ 0 ≤ edit_index ed < Z.of_nat n)
  ∧ in_range (cartesianToLonLat e (edit_point ed)).

Lemma stored_editable C L p p' :
  stored C L p p' → _closedLine p' = _closedLine p →
  length <$> L = length <$> C →
  Forall (enough_points (_closedLine p)) (length <$> C) →
  Forall (Forall in_range) L →
  editable (length <$> C) p'.
Proof.
  intros (HC & HL & HM & _) Hcl Hlen Hn Hr.
  exists C, L, ((λ s : list LonLat, forwardMercator <$> s) <$> L).
  rewrite Hcl. repeat split; try done.
  rewrite <- Hlen, <- list_fmap_compose. apply list_fmap_ext.
  intros _ s _. apply length_fmap.
Qed.

Lemma setPoint3v_keeps_editable `{!NumOrder A} lens p rn e ed :
  _renderNode p = Some rn → ellipsoid rn = Some e →
  editable lens p → valid_edit e lens ed →
  ∃ p', setPoint3v (edit_point ed) (edit_index ed) (edit_segment ed) false p = Done p'
        ∧ _renderNode p' = Some rn
        ∧ editable lens p'
        ∧ exact_extent (_extent p') (stored_points (_pathLonLat p')).
Proof.
  intros Hrn He (segs & ls & ms & Hp & Hl & Hm & Hsl & Hll & Hml & Hen & Hr)
    (Hs0 & (n & Hn & Hi) & Hc).
  destruct (lookup_lengths _ _ _ _ Hsl Hn) as (path0 & Hpath0 & Hlen0).
  destruct (lookup_lengths _ _ _ _ Hll Hn) as (lseg & Hlseg & Hlenl).
  destruct (lookup_lengths _ _ _ _ Hml Hn) as (mseg & Hmseg & Hlenm).
  assert (enough_points (_closedLine p) (length path0)) as Hcaps.
  { rewrite Hlen0. by eapply (Forall_lookup_1 _ _ _ _ Hen). }
  assert (geodetic_ready p (Z.to_nat (default 0 (edit_segment ed)))
            (Z.to_nat (edit_index ed)) ls lseg) as Hready.
  { repeat split; [done..|lia|]. rewrite Hm, js_read_dense, Hmseg. by eexists. }
  destruct (setPoint3v_done (edit_point ed) (edit_index ed) (edit_segment ed) false
              p rn segs path0 ls lseg Hrn Hp Hs0 Hpath0)
    as (p' & Hrun & Hp' & _ & _ & _ & _ & Hcl' & Hrn' & Hgeo'); [lia|done|done|].
  cbn match in Hgeo'. rewrite He in Hgeo'. destruct Hgeo' as [HL' Hext'].
  pose proof (setPoint3v_merc _ _ _ _ _ _ _ _ _ Hrn He Hrun Hm Hmseg) as HM'.
  exists p'. split; [done|]. split; [by rewrite Hrn'|].
  assert (Forall (Forall in_range)
            (<[Z.to_nat (default 0 (edit_segment ed))
               := set_point lseg (Z.to_nat (edit_index ed))
                    (cartesianToLonLat e (edit_point ed))]> ls)) as Hr'.
  { apply Forall_insert; [done|]. apply Forall_set_point; [|done].
    by eapply (Forall_lookup_1 _ _ _ _ Hr). }
  split.
  - eexists _, _, _. rewrite Hcl'.
    split; [exact Hp'|]. split; [exact HL'|]. split; [apply HM'; lia|].
    split; [|split; [|split; [|split; [done|done]]]].
    + rewrite <- Hsl. eapply lengths_insert; [done|]. apply length_insert.
    + rewrite <- Hll. eapply lengths_insert; [done|]. apply length_set_point. lia.
    + rewrite <- Hml. eapply lengths_insert; [done|]. apply length_set_point. lia.
  - rewrite HL', Hext', stored_points_dense.
    apply foldl_extend_exact; [|by apply Forall_concat].
    eapply concat_nonempty; [|apply set_point_nonempty].
    apply list_lookup_insert_eq. by eapply lookup_lt_Some.
Qed.

Lemma setPoints_keep_exact `{!NumOrder A} lens rn e edits :
  ellipsoid rn = Some e → Forall (valid_edit e lens) edits →
  ∀ p, _renderNode p = Some rn → editable lens p →
       exact_extent (_extent p) (stored_points (_pathLonLat p)) →
       ∃ p', setPoints edits p = Done p'
             ∧ exact_extent (_extent p') (stored_points (_pathLonLat p')).
Proof.
  intros He. induction 1 as [|ed edits Hed _ IH]; intros p Hrn Hp Hexact.
  - by exists p.
  - destruct (setPoint3v_keeps_editable lens p rn e ed Hrn He Hp Hed)
      as (p1 & Hrun & Hrn1 & Hp1 & Hexact1).
    cbn [setPoints]. rewrite Hrun. by apply IH.
Qed.

Lemma lengths_geodetic3v e path3v :
  length <$> geodetic3v e path3v = length <$> vectors3v path3v.
Proof.
  unfold geodetic3v, vectors3v. rewrite <- !list_fmap_compose.
  apply list_fmap_ext. intros _ path _. simpl. by rewrite !length_fmap.
Qed.

Lemma lengths_geodeticLonLat e pathLonLat :
  length <$> geodeticLonLat pathLonLat = length <$> vectorsLonLat e pathLonLat.
Proof.
  unfold geodeticLonLat, vectorsLonLat. rewrite <- !list_fmap_compose.
  apply list_fmap_ext. intros _ path _. simpl. by rewrite !length_fmap.
Qed.

Lemma first_segment_nonempty {T} isClosed (paths : list (list T)) :
  paths ≠ [] → Forall (λ path, enough_points isClosed (length path)) paths →
  concat paths ≠ [].
Proof.
  intros Hne Hn. destruct paths as [|path paths]; [done|].
  apply Forall_cons in Hn as [Hpath _].
  eapply (concat_nonempty _ path 0); [done|].
  unfold enough_points in Hpath. destruct path; [|done].
  simpl in Hpath. destruct isClosed; lia.
Qed.


(** * The claim on the patcher *)

(** ** A path that holds one [Vec3] at several places *)

(** The assignment on a path without holes, and the path after the
    assignment has shown at each of the [places]. *)
Definition put_dense (c : Vec3) (segs : list (list Vec3)) (place : nat * nat)
    : list (list Vec3) :=
  match segs !! place.1 with
  | Some path => <[place.1 := <[place.2 := c]> path]> segs
  | None => segs
  end.

Definition mutated (c : Vec3) (places : list (nat * nat)) (segs : list (list Vec3))
    : list (list Vec3) :=
  foldl (put_dense c) segs places.

Lemma put_point_dense c segs place :
  put_point c (Some <$> segs) place = Some <$> put_dense c segs place.
Proof.
  unfold put_point, put_dense. rewrite js_read_fmap_Some.
  destruct (segs !! place.1); [|done]. by rewrite list_fmap_insert.
Qed.

Lemma foldl_put_point_dense c places segs :
  foldl (put_point c) (Some <$> segs) places = Some <$> mutated c places segs.
Proof.
  unfold mutated. revert segs. induction places as [|pl places IH]; intros segs; [done|].
  cbn [foldl]. by rewrite put_point_dense, IH.
Qed.

Lemma lengths_put_dense c segs place :
  length <$> put_dense c segs place = length <$> segs.
Proof.
  unfold put_dense. destruct (segs !! place.1) eqn:E; [|done].
  eapply lengths_insert; [done|]. apply length_insert.
Qed.

Lemma lengths_mutated c places segs :
  length <$> mutated c places segs = length <$> segs.
Proof.
  unfold mutated. revert segs. induction places as [|pl places IH]; intros segs; [done|].
  cbn [foldl]. by rewrite IH, lengths_put_dense.
Qed.

Lemma mutated_segment c places segs seg path0 :
  segs !! seg = Some path0 →
  ∃ path, mutated c places segs !! seg = Some path ∧ length path = length path0.
Proof.
  intros Hseg. apply (lookup_lengths _ (length <$> segs)).
  - apply lengths_mutated.
  - by rewrite list_lookup_fmap, Hseg.
Qed.

(** With no other place to show at, the assignment replaces the one
    point. *)
Lemma mutated_alone c seg i segs path0 :
  segs !! seg = Some path0 →
  mutated c [(seg, i)] segs = <[seg := <[i := c]> path0]> segs.
Proof. intros Hseg. unfold mutated, put_dense. cbn. by rewrite Hseg. Qed.

(** The places read after the assignment: [c] at the edited place and at
    every existing place of [same], the old point elsewhere. *)
Lemma put_dense_lookup c segs place s k :
  (put_dense c segs place !! s) ≫= (.!! k)
  = if decide (place = (s, k) ∧ is_Some ((segs !! s) ≫= (.!! k))) then Some c
    else (segs !! s) ≫= (.!! k).
Proof.
  destruct place as [s' k']. unfold put_dense. cbn [fst snd].
  destruct (segs !! s') as [path|] eqn:Es'.
  - destruct (decide (s' = s)) as [->|Hs].
    + rewrite list_lookup_insert_eq by (by eapply lookup_lt_Some).
      rewrite Es'. cbn [mbind option_bind].
      destruct (decide (k' = k)) as [->|Hk].
      * destruct (path !! k) as [old|] eqn:Ek.
        -- rewrite list_lookup_insert_eq by (by eapply lookup_lt_Some).
           rewrite decide_True; [done|]. split; [done|by eexists].
        -- rewrite list_insert_ge by (by apply lookup_ge_None_1).
           rewrite Ek. rewrite decide_False; [done|]. intros [_ [? ?]]. done.
      * rewrite list_lookup_insert_ne by done.
        rewrite decide_False; [done|]. intros [[= ?] _]. done.
    + rewrite list_lookup_insert_ne by done.
      rewrite decide_False; [done|]. intros [[= ? ?] _]. done.
  - rewrite decide_False; [done|]. intros [[= -> ->] Hsome].
    rewrite Es' in Hsome. by destruct Hsome.
Qed.

Lemma mutated_lookup c places segs s k :
  (mutated c places segs !! s) ≫= (.!! k)
  = if decide ((s, k) ∈ places ∧ is_Some ((segs !! s) ≫= (.!! k))) then Some c
    else (segs !! s) ≫= (.!! k).
Proof.
  unfold mutated. revert segs. induction places as [|pl places IH]; intros segs.
  - cbn [foldl]. rewrite decide_False; [done|]. intros [Hin _]. by apply elem_of_nil in Hin.
  - cbn [foldl]. rewrite IH, put_dense_lookup.
    destruct (decide (pl = (s, k) ∧ is_Some ((segs !! s) ≫= (.!! k)))) as [[-> HX]|HD].
    + rewrite (decide_True (P := (s, k) ∈ (s, k) :: places ∧ _))
        by (split; [by left|done]).
      by case_decide.
    + destruct (decide ((s, k) ∈ places ∧ is_Some ((segs !! s) ≫= (.!! k))))
        as [[Hin HX]|Hn].
      * by rewrite decide_True by (split; [by right|done]).
      * rewrite decide_False; [done|]. intros [Hin HX].
        apply elem_of_cons in Hin as [E|Hin]; [apply HD; by split|apply Hn; by split].
Qed.

(** ** The patcher, with the places that share the edited point *)

Lemma setPoint3v_shared_done same c index segmentIndex force p rn segs path0 path
    ls lseg :
  let segIdx := default 0 segmentIndex in
  let seg := Z.to_nat segIdx in
  let i := Z.to_nat index in
  let segs' := mutated c ((seg, i) :: same) segs in
  _renderNode p = Some rn →
  _path3v p = Some <$> segs →
  0 ≤ segIdx → segs !! seg = Some path0 →
  segs' !! seg = Some path →
  0 ≤ index < Z.of_nat (length path0) →
  enough_points (_closedLine p) (length path0) →
  (force = false → is_Some (ellipsoid rn) → geodetic_ready p seg i ls lseg) →
  ∃ p',
    setPoint3v_shared same c index segmentIndex force p = Done p'
    ∧ _path3v p' = Some <$> segs'
    ∧ _vertices p'
      = patched_vertices (_closedLine p) index (vertex_offset (length <$> segs) seg)
          path c (_vertices p)
    ∧ _orders p' = _orders p
    ∧ _indexes p' = _indexes p
    ∧ _changedBuffers p' = js_store (_changedBuffers p) VERTICES_BUFFER true
    ∧ _closedLine p' = _closedLine p
    ∧ _renderNode p' = _renderNode p.
Proof.
  intros segIdx seg i segs' Hrn Hsegs Hseg0 Hseg Hpath Hidx Hcaps Hgeo.
  assert (length path = length path0) as Hlen.
  { destruct (mutated_segment c ((seg, i) :: same) segs seg path0 Hseg)
      as (path' & Hpath' & Hlen). fold segs' in Hpath'. congruence. }
  unfold setPoint3v_shared. fold segIdx. fold seg. fold i.
  rewrite Hrn, Hsegs, segment_offset_dense
    by (apply Nat.lt_le_incl; by eapply lookup_lt_Some).
  unfold js_get. destruct (Z.ltb_spec segIdx 0) as [?|_]; [lia|]. fold seg.
  rewrite js_read_fmap_Some, Hseg.
  destruct (dget_below path0 index Hidx) as [old ->].
  rewrite vec3_eta, foldl_put_point_dense. fold segs'.
  rewrite js_read_fmap_Some, Hpath.
  set (kk := vertex_offset (length <$> segs) seg).
  destruct (patch_cap_before_Some (_closedLine p) path) as [last Hlast];
    [by rewrite Hlen|].
  destruct (patch_cap_after_Some (_closedLine p) path) as [first Hfirst];
    [by rewrite Hlen|].
  set (p1 := with_path3v _ p).
  unfold patched_vertices, patch_before, patch_after, near_start, near_end.
  change (_closedLine p1) with (_closedLine p).
  rewrite Hlast, Hfirst.
  set (v1 := if (index =? 0) || (index =? 1)
             then write_block (_vertices p) kk last else _vertices p).
  set (p2 := with_vertices v1 p1).
  assert ((if (index =? 0) || (index =? 1)
           then Done (with_vertices (write_block (_vertices p1) kk last) p1)
           else Done p1) = Done p2) as ->.
  { unfold p2, v1. destruct ((index =? 0) || (index =? 1)); [done|].
    by destruct p. }
  unfold patch_lonlat.
  destruct (if force then None else ellipsoid rn) as [e|] eqn:He.
  - destruct (patch_geodetic_ready e c seg i p2 ls lseg)
      as (p3 & -> & Hl3 & Hext3 & Hc3 & Hp3 & Hv3 & Ho3 & Hi3 & Hr3 & Hcb3).
    { change (geodetic_ready p seg i ls lseg). destruct force; [done|].
      apply Hgeo; [done|]. by rewrite He. }
    cbn [_closedLine with_vertices with_mesh].
    rewrite Hc3. change (_closedLine p2) with (_closedLine p). rewrite Hfirst.
    destruct ((index =? Z.of_nat (length path) - 1)
              || (index =? Z.of_nat (length path) - 2));
      (eexists; split; [reflexivity|]; cbn;
       rewrite ?Hp3, ?Hv3, ?Ho3, ?Hi3, ?Hr3, ?Hcb3, ?Hl3, ?Hext3, ?Hc3;
       by repeat split).
  - cbn [_closedLine with_vertices with_mesh].
    change (_closedLine p2) with (_closedLine p). rewrite Hfirst.
    destruct ((index =? Z.of_nat (length path) - 1)
              || (index =? Z.of_nat (length path) - 2));
      (eexists; split; [reflexivity|]; cbn; by repeat split).
Qed.

(** Without another place, [setPoint3v_shared] is [setPoint3v]. *)
Lemma setPoint3v_shared_alone c index segmentIndex force p :
  setPoint3v_shared [] c index segmentIndex force p
  = setPoint3v c index segmentIndex force p.
Proof.
  unfold setPoint3v_shared, setPoint3v.
  assert (∀ path0,
            js_get (_path3v p) (default 0 segmentIndex) = Some path0 →
            foldl (put_point (mkVec3 (x c) (y c) (z c))) (_path3v p)
              [(Z.to_nat (default 0 segmentIndex), Z.to_nat index)]
            = <[Z.to_nat (default 0 segmentIndex)
                := Some (<[Z.to_nat index := mkVec3 (x c) (y c) (z c)]> path0)]> (_path3v p)
            ∧ js_read
                (<[Z.to_nat (default 0 segmentIndex)
                   := Some (<[Z.to_nat index := mkVec3 (x c) (y c) (z c)]> path0)]>
                   (_path3v p))
                (Z.to_nat (default 0 segmentIndex))
              = Some (<[Z.to_nat index := mkVec3 (x c) (y c) (z c)]> path0)) as Hput.
  { intros path0 Hget. unfold js_get in Hget.
    destruct (default 0 segmentIndex <? 0); [done|].
    cbn [foldl]. unfold put_point. cbn [fst snd]. rewrite Hget. split; [done|].
    unfold js_read in *.
    destruct (_path3v p !! Z.to_nat (default 0 segmentIndex)) as [o|] eqn:E; [|done].
    by rewrite list_lookup_insert_eq by (by eapply lookup_lt_Some). }
  destruct (_renderNode p) as [rn|].
  - destruct (segment_offset _ _) as [kk|]; [|done].
    destruct (js_get _ _) as [path0|]; [|done].
    destruct (dget path0 index) as [old|]; [|done].
    destruct (Hput path0 eq_refl) as [-> ->]. done.
  - destruct (js_get _ _) as [path0|]; [|done].
    destruct (dget path0 index) as [old|]; [|done].
    destruct (Hput path0 eq_refl) as [-> _]. done.
Qed.


(** * The claims on the buffers *)

(** C8 (amended).  On an attached polyline with both dirty flags set,
    [_update] runs the index-buffer routine first and the vertex-buffer
    routine second (the loop counts down from the last flag), clears each
    flag after its routine, and leaves both flags false.  The calls the
    graphics handler receives, in order: delete orders buffer, delete indexes
    buffer, create orders buffer, create indexes buffer, delete vertices
    buffer, create vertices buffer. *)
Theorem _update_runs_index_routine_first (p : Polyline) (h : Handler) (rn : RenderNode) :
  _renderNode p = Some rn →
  _changedBuffers p = [Some true; Some true] →
  ∃ p' h',
    _update (p, h) = Done (p', h')
    ∧ (p', h')
      = (λ st, (with_changed [Some false; Some false] st.1, st.2))
          (_createVerticesBuffer (_createIndexBuffer (p, h)))
    ∧ gl_calls h'
      = gl_calls h
        ++ [deleteBuffer (_ordersBuffer p);
            deleteBuffer (_indexesBuffer p);
            createArrayBuffer (OrderData (_orders p)) 1 (length_over (_orders p) 2)
              (gl_fresh h);
            createElementArrayBuffer (_indexes p) 1 (Z.of_nat (length (_indexes p)))
              (S (gl_fresh h));
            deleteBuffer (_verticesBuffer p);
            createArrayBuffer (FloatData (_vertices p)) 3 (length_over (_vertices p) 3)
              (S (S (gl_fresh h)))]
    ∧ _changedBuffers p' = [Some false; Some false].
Proof.
  intros Hrn Hcb. destruct p as [c p3 pl pm ex v o i vb ob ib r cb].
  simpl in Hrn, Hcb. subst r cb.
  eexists _, _. split; [reflexivity|]. split; [reflexivity|]. split; [|reflexivity].
  simpl. by rewrite <- !app_assoc.
Qed.

(** What [clear()] does: the vertex, order and index sequences end empty;
    the three coordinate sequences are not touched; on an attached polyline
    the three GPU buffers are deleted and their handles reset, and on a
    polyline that is not attached no GPU call is made. *)
Lemma clear_effect (p : Polyline) (h : Handler) :
  _vertices (clear (p, h)).1 = []
  ∧ _orders (clear (p, h)).1 = []
  ∧ _indexes (clear (p, h)).1 = []
  ∧ _path3v (clear (p, h)).1 = _path3v p
  ∧ _pathLonLat (clear (p, h)).1 = _pathLonLat p
  ∧ _pathLonLatMerc (clear (p, h)).1 = _pathLonLatMerc p
  ∧ (is_Some (_renderNode p) →
       _verticesBuffer (clear (p, h)).1 = None
       ∧ _ordersBuffer (clear (p, h)).1 = None
       ∧ _indexesBuffer (clear (p, h)).1 = None
       ∧ gl_calls (clear (p, h)).2
         = gl_calls h ++ [deleteBuffer (_verticesBuffer p);
                          deleteBuffer (_ordersBuffer p);
                          deleteBuffer (_indexesBuffer p)])
  ∧ (_renderNode p = None →
       _verticesBuffer (clear (p, h)).1 = _verticesBuffer p
       ∧ _ordersBuffer (clear (p, h)).1 = _ordersBuffer p
       ∧ _indexesBuffer (clear (p, h)).1 = _indexesBuffer p
       ∧ (clear (p, h)).2 = h).
Proof.
  destruct p as [c p3 pl pm ex v o i vb ob ib r cb].
  unfold clear, _deleteBuffers. simpl. destruct r as [rn|]; simpl.
  - repeat split; try done. by rewrite <- !app_assoc.
  - repeat split; try done. all: by intros [? ?].
Qed.

(** * Further properties of the builders *)

(** ** Vertices and orders grow together *)

(** [n] blocks more: twelve numbers and four orders each. *)
Definition blocks_added (n : nat) (m m' : Mesh) : Prop :=
  length (m_vertices m') = (length (m_vertices m) + 12 * n)%nat
  ∧ length (m_orders m') = (length (m_orders m) + 4 * n)%nat.

Lemma blocks_added_trans n1 n2 m1 m2 m3 :
  blocks_added n1 m1 m2 → blocks_added n2 m2 m3 → blocks_added (n1 + n2) m1 m3.
Proof. intros [HV1 HO1] [HV2 HO2]. unfold blocks_added. rewrite HV2, HO2, HV1, HO1. lia. Qed.

Lemma mesh_points_blocks vs m : blocks_added (length vs) m (foldl mesh_point m vs).
Proof.
  rewrite mesh_points_run. unfold blocks_added. cbn [m_vertices m_orders].
  rewrite !length_app, length_flat_quad.
  assert (length (concat (replicate (length vs) order_cycle)) = 4 * length vs)%nat as ->.
  { generalize (length vs). intros k. induction k as [|k IH]; [done|].
    cbn [replicate concat]. rewrite length_app, IH. simpl. lia. }
  done.
Qed.

Lemma mesh_segment_blocks isClosed nseg j last first vs m :
  ∃ n, blocks_added n m (state_of (mesh_segment isClosed nseg j last first vs m)).
Proof.
  unfold mesh_segment. destruct last as [l|]; [|exists 0%nat; split; simpl; lia].
  assert (blocks_added (1 + length vs) m (foldl mesh_point (mesh_cap l m) vs)) as H1.
  { eapply blocks_added_trans; [|apply mesh_points_blocks].
    split; cbn [mesh_cap m_vertices m_orders]; rewrite length_app; simpl; lia. }
  destruct first as [f|]; [|by eexists].
  exists (1 + length vs + 1)%nat. eapply blocks_added_trans; [exact H1|].
  split; cbn [state_of mesh_close m_vertices m_orders]; rewrite length_app; simpl; lia.
Qed.

Lemma mesh_segments_blocks isClosed nseg segs : ∀ j m,
  ∃ n, blocks_added n m (state_of (mesh_segments isClosed nseg j segs m)).
Proof.
  induction segs as [|[[last first] vs] segs IH]; intros j m.
  - exists 0%nat. split; simpl; lia.
  - cbn [mesh_segments].
    destruct (mesh_segment_blocks isClosed nseg j last first vs m) as [n1 H1].
    destruct (mesh_segment isClosed nseg j last first vs m) as [m1|m1].
    + destruct (IH (S j) m1) as [n2 H2]. exists (n1 + n2)%nat.
      by eapply blocks_added_trans.
    + by exists n1.
Qed.

Lemma state_of_outcome_map {S T} (f : S → T) (r : outcome S) :
  state_of (outcome_map f r) = f (state_of r).
Proof. by destruct r. Qed.

(** ** Where the indexes point *)

Lemma elem_of_run_indexes (b : Z) (n : nat) (idx : jsidx) :
  idx ∈ run_indexes (Some b) n → ∃ z, idx = Some z ∧ b ≤ z < b + 4 * Z.of_nat n.
Proof.
  revert b. induction n as [|n IH]; intros b Hin.
  - by apply elem_of_nil in Hin.
  - cbn [run_indexes] in Hin. apply elem_of_app in Hin as [Hin|Hin].
    + unfold four_up in Hin. cbn [idx_add fmap option_fmap option_map] in Hin.
      repeat (apply elem_of_cons in Hin as [->|Hin]; [eexists; split; [done|lia]|]).
      by apply elem_of_nil in Hin.
    + destruct (IH (b + 4) Hin) as (z & -> & Hz). exists z. split; [done|lia].
Qed.

(** Sum of the vertex counts of segments of the given lengths: four per
    point and eight for the two caps. *)
Definition vertex_count (lens : list nat) : Z :=
  Z.of_nat (sum_list ((λ n, 4 * n + 8)%nat <$> lens)).

Lemma shape_indexes_bound isClosed nseg lens : ∀ j b idx,
  (j + length lens = nseg)%nat → Forall (enough_points isClosed) lens →
  idx ∈ shape_indexes isClosed nseg j (Some b) lens →
  ∃ z, idx = Some z ∧ b ≤ z ∧ z + 9 ≤ b + vertex_count lens.
Proof.
  unfold vertex_count.
  induction lens as [|n lens IH]; intros j b idx Hj Hn Hin.
  - by apply elem_of_nil in Hin.
  - apply Forall_cons in Hn as [Hn Hrest].
    assert (1 ≤ n)%nat as Hn1 by (unfold enough_points in Hn; destruct isClosed; lia).
    cbn [shape_indexes] in Hin. cbn [fmap list_fmap sum_list sum_list_with length] in *.
    unfold id in *.
    apply elem_of_app in Hin as [Hin|Hin].
    + unfold segment_indexes in Hin.
      apply elem_of_app in Hin as [Hin|Hin];
        [|apply elem_of_app in Hin as [Hin|Hin]].
      * destruct (elem_of_run_indexes b n idx Hin) as (z & -> & Hz).
        exists z. split; [done|lia].
      * unfold closing_indexes in Hin.
        cbn [idx_add fmap option_fmap option_map] in Hin.
        destruct isClosed;
          repeat (apply elem_of_cons in Hin as [->|Hin]; [eexists; split; [done|lia]|]);
          by apply elem_of_nil in Hin.
      * unfold seam_indexes in Hin.
        destruct (Z.ltb_spec (Z.of_nat j) (Z.of_nat nseg - 1)) as [Hlt|Hge];
          [|by apply elem_of_nil in Hin].
        cbn [idx_add fmap option_fmap option_map] in Hin.
        destruct lens as [|n' lens]; [simpl in Hj; lia|].
        apply Forall_cons in Hrest as [Hn' _].
        assert (1 ≤ n')%nat by (unfold enough_points in Hn'; destruct isClosed; lia).
        cbn [fmap list_fmap sum_list sum_list_with] in *.
        repeat (apply elem_of_cons in Hin as [->|Hin]; [eexists; split; [done|lia]|]).
        by apply elem_of_nil in Hin.
    + destruct lens as [|n' lens]; [by apply elem_of_nil in Hin|].
      unfold segment_next, seam_next in Hin.
      destruct (Z.ltb_spec (Z.of_nat j) (Z.of_nat nseg - 1)) as [Hlt|Hge];
        [|simpl in Hj; lia].
      cbn [idx_add fmap option_fmap option_map] in Hin.
      destruct (IH (S j) (b + 4 * Z.of_nat n + 8) idx) as (z & -> & Hz1 & Hz2);
        [simpl in *; lia|done|done|].
      exists z. split; [done|]. lia.
Qed.

Lemma vertex_count_length isClosed vss :
  Forall (λ vs, enough_points isClosed (length vs)) vss →
  Z.of_nat (length (flat_map (path_vertices isClosed) vss))
  = 3 * vertex_count (length <$> vss).
Proof.
  intros Hn. rewrite length_flat_path_vertices by done. unfold vertex_count.
  generalize (length <$> vss). clear. intros lens.
  induction lens as [|n lens IH]; [done|].
  change (Z.of_nat ((n * 12 + 24) + sum_list ((λ n, n * 12 + 24)%nat <$> lens))
          = 3 * Z.of_nat ((4 * n + 8) + sum_list ((λ n, 4 * n + 8)%nat <$> lens))).
  lia.
Qed.

(** Twelve numbers and four orders are pushed together, [n] times over. *)
Definition grown_together (o o' : Out) : Prop :=
  ∃ n, length (outVertices o') = (length (outVertices o) + 12 * n)%nat
       ∧ length (outOrders o') = (length (outOrders o) + 4 * n)%nat.

Lemma appendLineData3v_grown path3v isClosed ell o :
  grown_together o (state_of (appendLineData3v path3v isClosed ell o)).
Proof.
  unfold appendLineData3v.
  set (o0 := set_extent (reset_extent (outExtent o)) o).
  pose proof (segments3v_mesh isClosed ell (length path3v) 0 path3v (leading_pair o0)) as E.
  destruct (mesh_segments_blocks isClosed (length path3v) (caps3v isClosed <$> path3v)
              0 (mesh_of (leading_pair o0))) as (n & HV & HO).
  rewrite <- E, state_of_outcome_map in HV, HO.
  rewrite mesh_of_leading_pair in HV, HO. cbn [mesh_of m_vertices m_orders] in HV, HO.
  exists n. by destruct (segments3v _ _ _ _ _ _).
Qed.

Lemma appendLineDataLonLat_grown pathLonLat isClosed e o :
  grown_together o (state_of (appendLineDataLonLat pathLonLat isClosed e o)).
Proof.
  unfold appendLineDataLonLat.
  set (o0 := set_extent (reset_extent (outExtent o)) o).
  pose proof (segmentsLonLat_mesh isClosed e (length pathLonLat) 0 pathLonLat
                (leading_pair o0)) as E.
  destruct (mesh_segments_blocks isClosed (length pathLonLat)
              (capsLonLat isClosed e <$> pathLonLat) 0 (mesh_of (leading_pair o0)))
    as (n & HV & HO).
  rewrite <- E, state_of_outcome_map in HV, HO.
  rewrite mesh_of_leading_pair in HV, HO. cbn [mesh_of m_vertices m_orders] in HV, HO.
  exists n. by destruct (segmentsLonLat _ _ _ _ _ _).
Qed.

(** X1.  The builders push vertices and orders together: whatever the
    path, the closed flag and the ellipsoid, and whether the build completes
    or throws half way, [appendLineData3v] and [appendLineDataLonLat] add
    twelve numbers to the vertex array for every four they add to the order
    array.  After [_createData3v] or [_createDataLonLat], completed or not,
    the vertex array is exactly three times as long as the order array. *)
Theorem orders_follow_vertices
    (path3v : list (list Point3)) (pathLonLat : list (list PointLL)) :
  (∀ isClosed ell o,
     grown_together o (state_of (appendLineData3v path3v isClosed ell o)))
  ∧ (∀ isClosed e o,
       grown_together o (state_of (appendLineDataLonLat pathLonLat isClosed e o)))
  ∧ (∀ p, length (_vertices (state_of (_createData3v path3v p)))
          = (3 * length (_orders (state_of (_createData3v path3v p))))%nat)
  ∧ (∀ p, length (_vertices (state_of (_createDataLonLat pathLonLat p)))
          = (3 * length (_orders (state_of (_createDataLonLat pathLonLat p))))%nat).
Proof.
  split; [intros; apply appendLineData3v_grown|].
  split; [intros; apply appendLineDataLonLat_grown|].
  split; intros p.
  - unfold _createData3v. destruct (_renderNode (_clearData p)) as [rn|]; [|done].
    destruct (appendLineData3v_grown path3v (_closedLine (_clearData p)) (ellipsoid rn)
                (out_of (_clearData p))) as (n & HV & HO).
    destruct (appendLineData3v _ _ _ _) as [o'|o']; simpl in *; lia.
  - unfold _createDataLonLat. destruct (_renderNode (_clearData p)) as [rn|]; [|done].
    destruct (ellipsoid rn) as [e|]; [|by destruct pathLonLat].
    destruct (appendLineDataLonLat_grown pathLonLat (_closedLine (_clearData p)) e
                (out_of (_clearData p))) as (n & HV & HO).
    destruct (appendLineDataLonLat _ _ _ _) as [o'|o']; simpl in *; lia.
Qed.

(** An index whose three vertices (itself, four on and eight on) lie
    inside a vertex array of the given length. *)
Definition addresses_vertices (nfloats : nat) (idx : jsidx) : Prop :=
  ∃ z, idx = Some z ∧ 0 ≤ z ∧ 3 * (z + 9) ≤ Z.of_nat nfloats.

Lemma rebuilt_indexes_inside vss p p' :
  rebuilt vss p p' → vss ≠ [] →
  Forall (λ vs, enough_points (_closedLine p) (length vs)) vss →
  Forall (addresses_vertices (length (_vertices p'))) (_indexes p').
Proof.
  intros (EV & _ & EI & _) Hne Hn. rewrite EV, EI.
  pose proof (vertex_count_length (_closedLine p) vss Hn) as Hlen.
  assert (12 ≤ vertex_count (length <$> vss)) as Hfirst.
  { destruct vss as [|vs vss]; [done|]. apply Forall_cons in Hn as [Hvs _].
    unfold vertex_count. cbn [fmap list_fmap].
    change (12 ≤ Z.of_nat ((4 * length vs + 8)
                           + sum_list ((λ n, 4 * n + 8)%nat <$> (length <$> vss)))).
    unfold enough_points in Hvs. destruct (_closedLine p); lia. }
  apply Forall_app. split.
  - repeat constructor; exists 0; (split; [done|lia]).
  - apply Forall_forall. intros idx Hin.
    destruct (shape_indexes_bound (_closedLine p) (length vss) (length <$> vss) 0 0 idx)
      as (z & -> & Hz1 & Hz2); [by rewrite length_fmap|by apply Forall_fmap|done|].
    exists z. split; [done|]. lia.
Qed.


(** ** Appending to arrays that hold a mesh already *)

Lemma seam_shift nseg j d index :
  seam_indexes (nseg + d) (j + d) index = seam_indexes nseg j index
  ∧ seam_next (nseg + d) (j + d) index = seam_next nseg j index.
Proof.
  unfold seam_indexes, seam_next.
  destruct (Z.ltb_spec (Z.of_nat (j + d)) (Z.of_nat (nseg + d) - 1)),
           (Z.ltb_spec (Z.of_nat j) (Z.of_nat nseg - 1)); (done || lia).
Qed.

(** Only the distance to the last segment matters to the seams. *)
Lemma shape_indexes_shift isClosed d lens : ∀ nseg j index,
  shape_indexes isClosed (nseg + d) (j + d) index lens
  = shape_indexes isClosed nseg j index lens.
Proof.
  induction lens as [|n lens IH]; intros nseg j index; [done|].
  cbn [shape_indexes]. unfold segment_indexes, segment_next.
  destruct (seam_shift nseg j d (idx_add index (4 * Z.of_nat n))) as [-> ->].
  f_equal. apply (IH nseg (S j)).
Qed.

(** The index array of a path followed by another: the index array of the
    first, a seam pair, and the index array of the second from there on. *)
Lemma shape_indexes_app isClosed k2 lens2 lens1 : ∀ nseg1 nseg j index,
  (1 ≤ k2)%nat → lens1 ≠ [] →
  (j + length lens1 = nseg1)%nat → (nseg = nseg1 + k2)%nat →
  shape_indexes isClosed nseg j index (lens1 ++ lens2)
  = shape_indexes isClosed nseg1 j index lens1
    ++ [idx_add (shape_next nseg1 j index lens1) 8;
        idx_add (shape_next nseg1 j index lens1) 8]
    ++ shape_indexes isClosed nseg nseg1
         (idx_add (shape_next nseg1 j index lens1) 8) lens2.
Proof.
  induction lens1 as [|n lens1 IH]; intros nseg1 nseg j index Hk2 Hne Hj Hnseg; [done|].
  destruct lens1 as [|n' lens1].
  - cbn [app shape_indexes shape_next length] in *.
    unfold segment_indexes, segment_next, seam_indexes, seam_next.
    destruct (Z.ltb_spec (Z.of_nat j) (Z.of_nat nseg - 1)); [|lia].
    destruct (Z.ltb_spec (Z.of_nat j) (Z.of_nat nseg1 - 1)); [lia|].
    rewrite !app_nil_r, <- !app_assoc. cbn [app].
    by replace (S j) with nseg1 by lia.
  - change ((n :: n' :: lens1) ++ lens2) with (n :: ((n' :: lens1) ++ lens2)).
    cbn [shape_indexes shape_next].
    assert (segment_indexes isClosed nseg j index n
            = segment_indexes isClosed nseg1 j index n
            ∧ segment_next nseg j index n = segment_next nseg1 j index n) as [-> ->].
    { unfold segment_indexes, segment_next, seam_indexes, seam_next.
      cbn [length] in Hj.
      destruct (Z.ltb_spec (Z.of_nat j) (Z.of_nat nseg - 1)); [|lia].
      destruct (Z.ltb_spec (Z.of_nat j) (Z.of_nat nseg1 - 1)); [done|lia]. }
    rewrite (IH nseg1 nseg (S j)); [|done|done|cbn [length] in *; lia|done].
    cbn [shape_indexes shape_next]. by rewrite <- !app_assoc.
Qed.

(** The fifth index from the end of a built index array is the last index
    of the last point. *)
Lemma shape_indexes_tail isClosed lens : ∀ nseg j index,
  (j + length lens = nseg)%nat → lens ≠ [] → Forall (enough_points isClosed) lens →
  ∃ X Y, shape_indexes isClosed nseg j index lens
         = X ++ idx_add (shape_next nseg j index lens) (-1) :: Y
         ∧ length Y = 4%nat.
Proof.
  induction lens as [|n lens IH]; intros nseg j index Hj Hne Hn; [done|].
  apply Forall_cons in Hn as [Hn Hrest].
  destruct lens as [|n' lens].
  - cbn [shape_indexes shape_next length] in *.
    unfold segment_indexes, segment_next, seam_indexes, seam_next.
    destruct (Z.ltb_spec (Z.of_nat j) (Z.of_nat nseg - 1)); [lia|].
    destruct n as [|n]; [unfold enough_points in Hn; destruct isClosed; lia|].
    rewrite run_indexes_snoc. unfold four_up.
    exists (run_indexes index n
            ++ [idx_add index (4 * Z.of_nat n);
                idx_add (idx_add index (4 * Z.of_nat n)) 1;
                idx_add (idx_add index (4 * Z.of_nat n)) 2]),
           (closing_indexes isClosed index (idx_add index (4 * Z.of_nat (S n)))).
    split; [|apply length_closing_indexes].
    rewrite !app_nil_r, <- !app_assoc. cbn [app]. rewrite !idx_add_add.
    by replace (4 * Z.of_nat (S n) + -1) with (4 * Z.of_nat n + 3) by lia.
  - destruct (IH nseg (S j) (segment_next nseg j index n)) as (X & Y & HXY & HY);
      [cbn [length] in *; lia|done|done|].
    exists (segment_indexes isClosed nseg j index n ++ X), Y.
    split; [|done].
    change (shape_indexes isClosed nseg j index (n :: n' :: lens))
      with (segment_indexes isClosed nseg j index n
            ++ shape_indexes isClosed nseg (S j) (segment_next nseg j index n)
                 (n' :: lens)).
    rewrite HXY. by rewrite <- app_assoc.
Qed.

Lemma lead_index_tail (X Y : list jsidx) (i : jsidx) :
  length Y = 4%nat → lead_index (X ++ i :: Y) = idx_add i 9.
Proof.
  intros HY. unfold lead_index.
  destruct (X ++ i :: Y) as [|a L] eqn:E; [by destruct X|]. rewrite <- E.
  rewrite length_app. cbn [length]. rewrite HY.
  replace (Z.of_nat (length X + 5) - 5) with (Z.of_nat (length X)) by lia.
  rewrite dget_nat, lookup_app_r, Nat.sub_diag by done. done.
Qed.

Lemma built_twice isClosed vss1 vss2 o o1 o2 o12 :
  vss1 ≠ [] → vss2 ≠ [] →
  Forall (λ vs, enough_points isClosed (length vs)) vss1 →
  built isClosed vss1 o o1 → built isClosed vss2 o1 o2 →
  built isClosed (vss1 ++ vss2) o o12 →
  mesh_arrays o2 = mesh_arrays o12.
Proof.
  intros Hne1 Hne2 Hn (EV1 & EO1 & EI1) (EV2 & EO2 & EI2) (EV & EO & EI).
  unfold mesh_arrays. f_equal; [f_equal|].
  - by rewrite EV2, EV1, EV, flat_map_app, app_assoc.
  - rewrite EO2, EO1, EO, fmap_app. unfold shape_orders.
    by rewrite flat_map_app, app_assoc.
  - rewrite EI2, EI, fmap_app, length_app.
    set (l0 := lead_index (outIndexes o)) in *.
    destruct (shape_indexes_tail isClosed (length <$> vss1) (length vss1) 0 l0)
      as (X & Y & HXY & HY);
      [by rewrite length_fmap|by destruct vss1|by apply Forall_fmap|].
    assert (lead_index (outIndexes o1)
            = idx_add (shape_next (length vss1) 0 l0 (length <$> vss1)) 8) as ->.
    { rewrite EI1, HXY, !app_assoc, lead_index_tail, idx_add_add by done. done. }
    rewrite (shape_indexes_app isClosed (length vss2) _ _ (length vss1));
      [|destruct vss2; [done|simpl; lia]|by destruct vss1|by rewrite length_fmap|done].
    rewrite EI1, <- !app_assoc. do 3 f_equal.
    cbn [app]. do 2 f_equal.
    rewrite (Nat.add_comm (length vss1)).
    exact (eq_sym (shape_indexes_shift isClosed (length vss1) (length <$> vss2)
                     (length vss2) 0 _)).
Qed.

(** X3.  Appending composes.  Building a path into the output arrays and
    then appending a second path to them leaves the same vertex, order and
    index arrays as building the two paths as one: the leading pair of the
    second call ([outIndexes[length - 5] + 9]) is the seam pair of the single
    call.  Both paths are not empty and their segments have the points the
    caps read; it holds for the Cartesian and for the geodetic builder, and
    whatever the arrays held before. *)
Theorem append_is_build_of_concatenation (isClosed : bool) (o : Out) :
  (∀ (path1 path2 : list (list Point3)) (ell1 ell2 ell : option Ellipsoid),
     path1 ≠ [] → path2 ≠ [] →
     Forall (λ path, enough_points isClosed (length path)) path1 →
     Forall (λ path, enough_points isClosed (length path)) path2 →
     ∃ o1 o2 o12,
       appendLineData3v path1 isClosed ell1 o = Done o1
       ∧ appendLineData3v path2 isClosed ell2 o1 = Done o2
       ∧ appendLineData3v (path1 ++ path2) isClosed ell o = Done o12
       ∧ mesh_arrays o2 = mesh_arrays o12)
  ∧ (∀ (path1 path2 : list (list PointLL)) (e : Ellipsoid),
       path1 ≠ [] → path2 ≠ [] →
       Forall (λ path, enough_points isClosed (length path)) path1 →
       Forall (λ path, enough_points isClosed (length path)) path2 →
       ∃ o1 o2 o12,
         appendLineDataLonLat path1 isClosed e o = Done o1
         ∧ appendLineDataLonLat path2 isClosed e o1 = Done o2
         ∧ appendLineDataLonLat (path1 ++ path2) isClosed e o = Done o12
         ∧ mesh_arrays o2 = mesh_arrays o12).
Proof.
  split.
  - intros path1 path2 ell1 ell2 ell Hne1 Hne2 Hn1 Hn2.
    destruct (appendLineData3v_built path1 isClosed ell1 o Hn1) as (o1 & Hrun1 & H1).
    destruct (appendLineData3v_built path2 isClosed ell2 o1 Hn2) as (o2 & Hrun2 & H2).
    destruct (appendLineData3v_built (path1 ++ path2) isClosed ell o)
      as (o12 & Hrun & H12); [by apply Forall_app|].
    exists o1, o2, o12. repeat split; try done.
    apply (built_twice isClosed (vectors3v path1) (vectors3v path2) o o1);
      [by destruct path1|by destruct path2| |done|done|].
    + unfold vectors3v. apply Forall_fmap. eapply Forall_impl; [exact Hn1|].
      intros path Hpath. simpl. by rewrite length_fmap.
    + unfold vectors3v in *. by rewrite <- fmap_app.
  - intros path1 path2 e Hne1 Hne2 Hn1 Hn2.
    destruct (appendLineDataLonLat_built path1 isClosed e o Hn1) as (o1 & Hrun1 & H1).
    destruct (appendLineDataLonLat_built path2 isClosed e o1 Hn2) as (o2 & Hrun2 & H2).
    destruct (appendLineDataLonLat_built (path1 ++ path2) isClosed e o)
      as (o12 & Hrun & H12); [by apply Forall_app|].
    exists o1, o2, o12. repeat split; try done.
    apply (built_twice isClosed (vectorsLonLat e path1) (vectorsLonLat e path2) o o1);
      [by destruct path1|by destruct path2| |done|done|].
    + unfold vectorsLonLat. apply Forall_fmap. eapply Forall_impl; [exact Hn1|].
      intros path Hpath. simpl. by rewrite length_fmap.
    + unfold vectorsLonLat in *. by rewrite <- fmap_app.
Qed.

(** ** An index array too short to continue *)

Lemma run_indexes_nan (n : nat) : Forall (λ i, i = None) (run_indexes None n).
Proof.
  induction n as [|n IH]; [constructor|].
  cbn [run_indexes]. apply Forall_app. split; [by repeat constructor|exact IH].
Qed.

Lemma shape_indexes_nan isClosed nseg lens : ∀ j,
  Forall (λ i, i = None) (shape_indexes isClosed nseg j None lens).
Proof.
  induction lens as [|n lens IH]; intros j; [constructor|].
  cbn [shape_indexes]. apply Forall_app. split.
  - unfold segment_indexes. apply Forall_app. split; [apply run_indexes_nan|].
    apply Forall_app. split.
    + unfold closing_indexes. destruct isClosed; by repeat constructor.
    + unfold seam_indexes. destruct (_ <? _); by repeat constructor.
  - assert (segment_next nseg j None n = None) as ->; [|apply IH].
    unfold segment_next, seam_next. by destruct (_ <? _).
Qed.

(** X4.  The leading pair of an append reads the fifth index from the
    end.  When the index array holds fewer than five entries (as after the
    build of an empty path, which leaves the pair [0, 0]), that read is
    [undefined], the running index is [NaN] from the start, and every index
    the build pushes is [NaN]; vertices and orders are built as usual. *)
Theorem short_index_array_gives_nan_indexes
    (path3v : list (list Point3)) (isClosed : bool) (ell : option Ellipsoid) (o : Out) :
  (0 < length (outIndexes o) < 5)%nat →
  Forall (λ path, enough_points isClosed (length path)) path3v →
  ∃ o' nan,
    appendLineData3v path3v isClosed ell o = Done o'
    ∧ outIndexes o' = outIndexes o ++ nan
    ∧ Forall (λ i, i = None) nan ∧ (2 ≤ length nan)%nat
    ∧ outVertices o' = outVertices o ++ flat_map (path_vertices isClosed) (vectors3v path3v).
Proof.
  intros Hlen Hn.
  destruct (appendLineData3v_built path3v isClosed ell o Hn) as (o' & Hrun & EV & _ & EI).
  assert (lead_index (outIndexes o) = None) as Hlead.
  { unfold lead_index. destruct (outIndexes o) as [|i I]; [simpl in Hlen; lia|].
    by rewrite dget_beyond by lia. }
  rewrite Hlead in EI.
  eexists o', _. split; [done|]. split; [exact EI|]. split; [|split; [|done]].
  - apply Forall_app. split; [by repeat constructor|apply shape_indexes_nan].
  - rewrite length_app. simpl. lia.
Qed.

(** ** A Cartesian build without an ellipsoid *)

Lemma geo_of_points3v_plain j path st :
  geo_of (foldl (point3v None j) st path).2 = geo_of st.2.
Proof. revert st. induction path as [|q path IH]; intros st; [done|]. cbn [foldl]. by rewrite IH. Qed.

Lemma segments3v_slots isClosed nseg paths : ∀ j st st',
  segments3v isClosed None nseg j paths st = Done st' →
  length (outPathLonLat st.2) = j → length (outPath3v st.2) = j →
  length (outPathMerc st.2) = j →
  geo_of st'.2
  = mkGeo (outPathLonLat st.2 ++ replicate (length paths) (Some []))
          (outPath3v st.2 ++ replicate (length paths) (Some []))
          (outPathMerc st.2 ++ replicate (length paths) (Some []))
          (outExtent st.2).
Proof.
  induction paths as [|path paths IH]; intros j st st'.
  - intros [= <-] _ _ _. cbn [length replicate]. by rewrite !app_nil_r.
  - cbn [segments3v].
    destruct (segment3v isClosed None nseg j path st) as [st1|st1] eqn:Hseg; [|done].
    intros Hrest HL HC HM.
    assert (geo_of st1.2 = geo_of (open_slots j st.2)) as Hst1.
    { unfold segment3v in Hseg.
      destruct (cap_before3v isClosed path) as [last|]; [|done].
      destruct (cap_after3v isClosed path) as [first|]; [|done].
      injection Hseg as <-. rewrite geo_of_seam.
      set (st0 := foldl _ _ path).
      change (geo_of st0.2 = geo_of (open_slots j st.2)).
      unfold st0. by rewrite geo_of_points3v_plain. }
    unfold geo_of, open_slots in Hst1. cbn in Hst1.
    rewrite !js_store_at_end in Hst1 by done.
    injection Hst1 as EL EC EM EE.
    rewrite (IH (S j) st1 st' Hrest);
      [|rewrite ?EL, ?EC, ?EM, length_app; simpl; lia..].
    rewrite EL, EC, EM, EE, <- !app_assoc. done.
Qed.

Lemma setPoint3v_missing c index segmentIndex forceLonLat p :
  (∀ path, js_get (_path3v p) (default 0 segmentIndex) = Some path →
           ¬ (0 ≤ index < Z.of_nat (length path))) →
  setPoint3v c index segmentIndex forceLonLat p = Throw p.
Proof.
  intros Hmiss. unfold setPoint3v.
  destruct (js_get (_path3v p) (default 0 segmentIndex)) as [path0|] eqn:Hget.
  - rewrite dget_beyond by (specialize (Hmiss path0 eq_refl); lia).
    destruct (_renderNode p); [|done]. by destruct (segment_offset _ _).
  - destruct (_renderNode p); [|done]. by destruct (segment_offset _ _).
Qed.

Lemma js_get_replicate_empty {T} (k : nat) (i : Z) (path : list T) :
  js_get (replicate k (Some [])) i = Some path → path = [].
Proof.
  unfold js_get, js_read. destruct (i <? 0); [done|].
  destruct (replicate k (Some []) !! Z.to_nat i) as [s|] eqn:E; [|done].
  apply lookup_replicate in E as [-> _]. by intros [= <-].
Qed.

(** X5.  The Cartesian builder stores a point in the three path arrays
    only inside [if (ellipsoid)].  A rebuild on a render node without an
    ellipsoid therefore builds the whole mesh but leaves [_path3v],
    [_pathLonLat] and [_pathLonLatMerc] as one empty array per segment and
    the extent at its reset corners; after it every [setPoint3v], whatever
    its arguments, throws on the missing point and changes nothing. *)
Theorem rebuild_without_ellipsoid_stores_no_point
    (p : Polyline) (rn : RenderNode) (path3v : list (list Point3)) :
  _renderNode p = Some rn → ellipsoid rn = None →
  Forall (λ path, enough_points (_closedLine p) (length path)) path3v →
  ∃ p', _createData3v path3v p = Done p'
        ∧ _vertices p' = flat_map (path_vertices (_closedLine p)) (vectors3v path3v)
        ∧ _path3v p' = replicate (length path3v) (Some [])
        ∧ _pathLonLat p' = replicate (length path3v) (Some [])
        ∧ _pathLonLatMerc p' = replicate (length path3v) (Some [])
        ∧ _extent p' = reset_extent (_extent p)
        ∧ ∀ c index segmentIndex forceLonLat,
            setPoint3v c index segmentIndex forceLonLat p' = Throw p'.
Proof.
  intros Hrn He Hn.
  destruct (_createData3v_rebuilt path3v p rn Hrn Hn) as (p' & Hrun & EV & _).
  exists p'. split; [done|]. split; [done|].
  unfold _createData3v in Hrun.
  change (_renderNode (_clearData p)) with (_renderNode p) in Hrun.
  rewrite Hrn, He in Hrun. unfold appendLineData3v in Hrun.
  destruct (segments3v _ _ _ _ _ _) as [st|st] eqn:Hsegs; [|done].
  injection Hrun as <-.
  pose proof (segments3v_slots _ _ _ _ _ _ Hsegs) as Hgeo.
  specialize (Hgeo eq_refl eq_refl eq_refl). unfold geo_of in Hgeo. cbn in Hgeo.
  injection Hgeo as EL EC EM EE.
  assert (_path3v (store_out st.2 (_clearData p)) = replicate (length path3v) (Some []))
    as HC by exact EC.
  split; [exact HC|]. split; [exact EL|]. split; [exact EM|]. split; [exact EE|].
  intros c index segmentIndex forceLonLat. apply setPoint3v_missing.
  intros path Hget. rewrite HC in Hget.
  apply js_get_replicate_empty in Hget as ->. simpl. lia.
Qed.

(** X6.  [setPoint3v] reads the point to move before it writes anything.
    When the segment is missing, or the index is not that of a stored point
    of the segment, the call throws and leaves the polyline exactly as it
    was, attached or not: no vertex, no coordinate and no flag is written. *)
Theorem setPoint3v_rejects_missing_point
    (c : Vec3) (index : Z) (segmentIndex : option Z) (forceLonLat : bool) (p : Polyline) :
  (∀ path, js_get (_path3v p) (default 0 segmentIndex) = Some path →
           ¬ (0 ≤ index < Z.of_nat (length path))) →
  setPoint3v c index segmentIndex forceLonLat p = Throw p.
Proof. apply setPoint3v_missing. Qed.

(** * An edit against a rebuild *)

(** ** Block writes inside a dense array *)

Lemma js_store_app_r {T} (X Z : jsarray T) (k : nat) (v : T) :
  (length X ≤ k)%nat → js_store (X ++ Z) k v = X ++ js_store Z (k - length X) v.
Proof.
  intros Hk. unfold js_store. rewrite length_app.
  destruct (decide (k < length X + length Z)%nat) as [Hlt|Hge].
  - rewrite decide_True by lia. by rewrite insert_app_r_alt by done.
  - rewrite decide_False by lia. rewrite <- app_assoc.
    by replace (k - length X - length Z)%nat with (k - (length X + length Z))%nat by lia.
Qed.

Lemma write_block_app_r (X Z : jsarray A) (k : nat) (q : Vec3) :
  (length X ≤ k)%nat → write_block (X ++ Z) k q = X ++ write_block Z (k - length X) q.
Proof.
  intros Hk. unfold write_block.
  rewrite !js_store_app_r by lia.
  by do 11 (match goal with
            | |- context [(k + ?d - length X)%nat] =>
              replace (k + d - length X)%nat with (k - length X + d)%nat by lia
            end).
Qed.

Lemma write_block_quad (q p : Vec3) (Y : jsarray A) :
  write_block (quad q ++ Y) 0 p = quad p ++ Y.
Proof.
  unfold write_block, quad. cbn [app Nat.add].
  by repeat (rewrite js_store_in_range by (cbn [length insert list_insert]; lia);
             cbn [insert list_insert]).
Qed.

Lemma write_block_at (X Y : jsarray A) (k : nat) (q p : Vec3) :
  length X = k → write_block (X ++ quad q ++ Y) k p = X ++ quad p ++ Y.
Proof.
  intros <-. rewrite write_block_app_r, Nat.sub_diag by done.
  by rewrite write_block_quad.
Qed.

Lemma flat_map_middle {U T} (f : U → list T) (l : list U) (k : nat) (s s' : U) :
  l !! k = Some s →
  flat_map f l = flat_map f (take k l) ++ f s ++ flat_map f (drop (S k) l)
  ∧ flat_map f (<[k := s']> l) = flat_map f (take k l) ++ f s' ++ flat_map f (drop (S k) l).
Proof.
  intros Hk. split.
  - rewrite <- (take_drop_middle l k s Hk) at 1. by rewrite flat_map_app.
  - rewrite insert_take_drop by (by eapply lookup_lt_Some).
    by rewrite flat_map_app.
Qed.

(** The vertex array after an edit of point [index]: the blocks of the
    edited segment, with the caps of the edited path where the patcher
    recomputes them and the caps as they were where it does not. *)
Lemma patched_vertices_blocks isClosed index kk vs0 c V1 V2 last0 first0 last' first' :
  length V1 = kk → 0 ≤ index < Z.of_nat (length vs0) →
  patch_cap_before isClosed (<[Z.to_nat index := c]> vs0) = Some last' →
  patch_cap_after isClosed (<[Z.to_nat index := c]> vs0) = Some first' →
  patched_vertices isClosed index kk (<[Z.to_nat index := c]> vs0) c
    (V1 ++ segment_vertices last0 first0 vs0 ++ V2)
  = V1 ++ segment_vertices (if near_start index then last' else last0)
            (if near_end index (length vs0) then first' else first0)
            (<[Z.to_nat index := c]> vs0)
       ++ V2.
Proof.
  intros HV1 Hidx Hlast Hfirst. unfold patched_vertices.
  rewrite Hlast, Hfirst, length_insert.
  destruct (lookup_lt_is_Some_2 vs0 (Z.to_nat index)) as [v Hv]; [lia|].
  destruct (flat_map_middle quad vs0 (Z.to_nat index) v c Hv) as [Hold Hnew].
  unfold segment_vertices. rewrite Hold, Hnew.
  set (P1 := flat_map quad (take (Z.to_nat index) vs0)).
  set (P2 := flat_map quad (drop (S (Z.to_nat index)) vs0)).
  assert (length P1 = Z.to_nat index * 12)%nat as HP1.
  { unfold P1. rewrite length_flat_quad, length_take. lia. }
  assert (length (P1 ++ quad c ++ P2) = length vs0 * 12)%nat as HP.
  { unfold P1, P2. rewrite <- Hnew, length_flat_quad, length_insert. lia. }
  set (l1 := if near_start index then last' else last0).
  set (f1 := if near_end index (length vs0) then first' else first0).
  assert ((if near_start index
           then write_block (V1 ++ (quad last0 ++ (P1 ++ quad v ++ P2) ++ quad first0) ++ V2)
                  kk last'
           else V1 ++ (quad last0 ++ (P1 ++ quad v ++ P2) ++ quad first0) ++ V2)
          = V1 ++ quad l1 ++ ((P1 ++ quad v ++ P2) ++ quad first0) ++ V2) as ->.
  { unfold l1. destruct (near_start index).
    - rewrite <- !app_assoc. by rewrite write_block_at by done.
    - by rewrite <- !app_assoc. }
  assert (write_block (V1 ++ quad l1 ++ ((P1 ++ quad v ++ P2) ++ quad first0) ++ V2)
            (kk + Z.to_nat index * 12 + 12) c
          = (V1 ++ quad l1 ++ P1 ++ quad c ++ P2) ++ quad first0 ++ V2) as ->.
  { rewrite <- !app_assoc.
    rewrite (app_assoc V1 (quad l1)), (app_assoc (V1 ++ quad l1) P1).
    rewrite write_block_at by (rewrite !length_app, length_quad; lia).
    by rewrite <- !app_assoc. }
  assert ((if near_end index (length vs0)
           then write_block ((V1 ++ quad l1 ++ P1 ++ quad c ++ P2) ++ quad first0 ++ V2)
                  (kk + length vs0 * 12 + 12) first'
           else (V1 ++ quad l1 ++ P1 ++ quad c ++ P2) ++ quad first0 ++ V2)
          = (V1 ++ quad l1 ++ P1 ++ quad c ++ P2) ++ quad f1 ++ V2) as ->.
  { unfold f1. destruct (near_end index (length vs0)); [|done].
    rewrite write_block_at; [done|].
    rewrite !length_app, length_quad. rewrite !length_app in HP. lia. }
  by rewrite <- !app_assoc.
Qed.

(** The caps of an open path depend on its two first and its two last
    points only. *)
Lemma open_caps_after_edit vs0 c index :
  0 ≤ index < Z.of_nat (length vs0) → (2 ≤ length vs0)%nat →
  (near_start index = false →
   patch_cap_before false (<[Z.to_nat index := c]> vs0) = patch_cap_before false vs0)
  ∧ (near_end index (length vs0) = false →
     patch_cap_after false (<[Z.to_nat index := c]> vs0) = patch_cap_after false vs0).
Proof.
  intros Hidx Hn. unfold near_start, near_end, patch_cap_before, patch_cap_after.
  rewrite length_insert. split; intros Hnear.
  - apply orb_false_iff in Hnear as [H0%Z.eqb_neq H1%Z.eqb_neq].
    change 0 with (Z.of_nat 0). change 1 with (Z.of_nat 1).
    by rewrite !dget_nat, !list_lookup_insert_ne by lia.
  - apply orb_false_iff in Hnear as [H0%Z.eqb_neq H1%Z.eqb_neq].
    replace (Z.of_nat (length vs0) - 1 - 1) with (Z.of_nat (length vs0 - 2)) by lia.
    rewrite sub_one_nat by lia.
    by rewrite !dget_nat, !list_lookup_insert_ne by lia.
Qed.

(** ** What an edit leaves alone *)

Definition buffers_of (p : Polyline) : option nat * option nat * option nat :=
  (_verticesBuffer p, _ordersBuffer p, _indexesBuffer p).

Lemma setPoint3v_buffers c index segmentIndex forceLonLat p :
  buffers_of (state_of (setPoint3v c index segmentIndex forceLonLat p)) = buffers_of p.
Proof.
  unfold setPoint3v.
  destruct (_renderNode p) as [rn|].
  - destruct (segment_offset _ _) as [kk|]; [|done].
    destruct (js_get _ _) as [path0|]; [|done].
    destruct (dget path0 index) as [old|]; [|done].
    set (p1 := with_path3v _ p). change (buffers_of p) with (buffers_of p1).
    generalize p1. clear p1. intros p1.
    assert (∀ i k path q, buffers_of (state_of (patch_before i k path q)) = buffers_of q)
      as Hb.
    { intros i k path q. unfold patch_before.
      destruct (_ || _); [|done]. by destruct (patch_cap_before _ _). }
    assert (∀ i k path q, buffers_of (state_of (patch_after i k path q)) = buffers_of q)
      as Ha.
    { intros i k path q. unfold patch_after.
      destruct (_ || _); [|done]. by destruct (patch_cap_after _ _). }
    assert (∀ s i q, buffers_of (state_of (patch_lonlat rn forceLonLat c s i q))
                     = buffers_of q) as Hl.
    { intros s i q. unfold patch_lonlat.
      destruct (if forceLonLat then None else ellipsoid rn) as [e|]; [|done].
      unfold patch_geodetic. destruct (js_read (_pathLonLat q) s); [|done].
      destruct (js_read (_pathLonLatMerc q) s); [|done].
      by destruct (extent_paths _ _). }
    specialize (Hb index kk (<[Z.to_nat index := mkVec3 (x c) (y c) (z c)]> path0) p1).
    destruct (patch_before _ _ _ _) as [p2|p2]; [|done].
    specialize (Hl (Z.to_nat (default 0 segmentIndex)) (Z.to_nat index) p2).
    destruct (patch_lonlat _ _ _ _ _ _) as [p3|p3]; [|by rewrite <- Hb].
    set (p4 := with_vertices _ p3).
    specialize (Ha index kk (<[Z.to_nat index := mkVec3 (x c) (y c) (z c)]> path0) p4).
    destruct (patch_after _ _ _ _) as [p5|p5];
      cbn [state_of] in *; rewrite <- Hb, <- Hl; exact Ha.
  - destruct (js_get _ _) as [path0|]; [|done].
    by destruct (dget path0 index).
Qed.

Lemma reset_extent_foldl (e0 : Extent) (pts : list LonLat) :
  reset_extent (foldl extend (reset_extent e0) pts) = reset_extent e0.
Proof. by rewrite foldl_extend. Qed.

Lemma polyline_eq (p q : Polyline) :
  _closedLine p = _closedLine q → _path3v p = _path3v q →
  _pathLonLat p = _pathLonLat q → _pathLonLatMerc p = _pathLonLatMerc q →
  _extent p = _extent q → _vertices p = _vertices q → _orders p = _orders q →
  _indexes p = _indexes q → buffers_of p = buffers_of q →
  _renderNode p = _renderNode q → _changedBuffers p = _changedBuffers q →
  p = q.
Proof.
  destruct p, q. unfold buffers_of. simpl. intros. simplify_eq. done.
Qed.

(** ** An edit after a rebuild, next to the rebuild of the edited path *)

Lemma vectors3v_insert path3v seg path0 i c :
  vectors3v (<[seg := <[i := P3Vec c]> path0]> path3v)
  = <[seg := <[i := c]> (toVec3 <$> path0)]> (vectors3v path3v).
Proof. unfold vectors3v. by rewrite !list_fmap_insert. Qed.

Lemma geodetic3v_insert e path3v seg path0 i c :
  geodetic3v e (<[seg := <[i := P3Vec c]> path0]> path3v)
  = <[seg := <[i := cartesianToLonLat e c]>
               ((λ q, cartesianToLonLat e (toVec3 q)) <$> path0)]> (geodetic3v e path3v).
Proof. unfold geodetic3v. by rewrite !list_fmap_insert. Qed.

Lemma set_point_inside {T} (l : list T) (i : nat) (v : T) :
  (i < length l)%nat → set_point l i v = <[i := v]> l.
Proof. intros Hi. unfold set_point. by rewrite decide_True. Qed.

Lemma edit_after_rebuild p rn e path3v c index segmentIndex path0 :
  let seg := Z.to_nat (default 0 segmentIndex) in
  let vs0 := toVec3 <$> path0 in
  let vs' := <[Z.to_nat index := c]> vs0 in
  let path3v' := <[seg := <[Z.to_nat index := P3Vec c]> path0]> path3v in
  _renderNode p = Some rn → ellipsoid rn = Some e →
  Forall (λ path, enough_points (_closedLine p) (length path)) path3v →
  0 ≤ default 0 segmentIndex → path3v !! seg = Some path0 →
  0 ≤ index < Z.of_nat (length path0) →
  ∃ p1 p2 p3 last0 first0 last' first' T1 T2,
    _createData3v path3v p = Done p1
    ∧ setPoint3v c index segmentIndex false p1 = Done p2
    ∧ _createData3v path3v' p = Done p3
    ∧ patch_cap_before (_closedLine p) vs0 = Some last0
    ∧ patch_cap_after (_closedLine p) vs0 = Some first0
    ∧ patch_cap_before (_closedLine p) vs' = Some last'
    ∧ patch_cap_after (_closedLine p) vs' = Some first'
    ∧ length T1 = vertex_offset (length <$> path3v) seg
    ∧ _vertices p2
      = T1 ++ segment_vertices (if near_start index then last' else last0)
                (if near_end index (length path0) then first' else first0) vs'
           ++ T2
    ∧ _vertices p3 = T1 ++ segment_vertices last' first' vs' ++ T2
    ∧ p2 = with_changed (js_store (_changedBuffers p3) VERTICES_BUFFER true)
             (with_vertices (_vertices p2) p3).
Proof.
  intros seg vs0 vs' path3v' Hrn He Hn Hseg0 Hseg Hidx.
  assert (Forall (λ path, enough_points (_closedLine p) (length path)) path3v') as Hn'.
  { apply Forall_insert; [done|]. rewrite length_insert.
    by eapply (Forall_lookup_1 _ _ _ _ Hn). }
  assert (enough_points (_closedLine p) (length vs0)) as Hvs0.
  { unfold vs0. rewrite length_fmap. by eapply (Forall_lookup_1 _ _ _ _ Hn). }
  assert (length vs' = length vs0) as Hlen' by apply length_insert.
  destruct (_createData3v_stored path3v p rn e Hrn He Hn)
    as (p1 & Hrun1 & (EV1 & EO1 & EI1 & Hcl1 & Hrn1 & Hcb1 & Hvb1 & Hob1 & Hib1)
        & (HC1 & HL1 & HM1 & HE1)).
  destruct (_createData3v_stored path3v' p rn e Hrn He Hn')
    as (p3 & Hrun3 & (EV3 & EO3 & EI3 & Hcl3 & Hrn3 & Hcb3 & Hvb3 & Hob3 & Hib3)
        & (HC3 & HL3 & HM3 & HE3)).
  set (V := vectors3v path3v) in *. set (G := geodetic3v e path3v) in *.
  set (lseg := (λ q, cartesianToLonLat e (toVec3 q)) <$> path0).
  assert (V !! seg = Some vs0) as HVseg
    by (unfold V, vectors3v; by rewrite list_lookup_fmap, Hseg).
  assert (G !! seg = Some lseg) as HGseg
    by (unfold G, geodetic3v; by rewrite list_lookup_fmap, Hseg).
  assert (length lseg = length path0) as Hlseg by apply length_fmap.
  assert (length vs0 = length path0) as Hlvs0 by apply length_fmap.
  destruct (setPoint3v_done c index segmentIndex false p1 rn V vs0 G lseg)
    as (p2 & Hrun2 & Hp2 & HV2 & HO2 & HI2 & Hcb2 & Hcl2 & Hrn2 & Hgeo2);
    [by rewrite Hrn1|done|done|done|lia|by rewrite Hcl1| |].
  { intros _ _. repeat split; [done|done|lia|]. fold seg.
    rewrite HM1, js_read_dense, list_lookup_fmap, HGseg. by eexists. }
  fold seg in Hp2, HV2, Hgeo2.
  cbn match in Hgeo2. rewrite He in Hgeo2. destruct Hgeo2 as [HL2 HE2].
  assert (_pathLonLatMerc p2
          = dense (<[seg := set_point (forwardMercator <$> lseg) (Z.to_nat index)
                              (forwardMercator (cartesianToLonLat e c))]>
                     ((λ s : list LonLat, forwardMercator <$> s) <$> G))) as HM2.
  { apply (setPoint3v_merc c index segmentIndex p1 p2 rn e); try done.
    - by rewrite Hrn1.
    - fold seg. by rewrite list_lookup_fmap, HGseg.
    - rewrite length_fmap. lia. }
  pose proof (setPoint3v_buffers c index segmentIndex false p1) as Hbuf.
  rewrite Hrun2 in Hbuf. cbn [state_of] in Hbuf.
  destruct (patch_cap_before_Some (_closedLine p) vs0 Hvs0) as [last0 Hlast0].
  destruct (patch_cap_after_Some (_closedLine p) vs0 Hvs0) as [first0 Hfirst0].
  destruct (patch_cap_before_Some (_closedLine p) vs') as [last' Hlast'];
    [by rewrite Hlen'|].
  destruct (patch_cap_after_Some (_closedLine p) vs') as [first' Hfirst'];
    [by rewrite Hlen'|].
  destruct (flat_map_middle (path_vertices (_closedLine p)) V seg vs0 vs' HVseg)
    as [Hold Hnew].
  set (T1 := flat_map (path_vertices (_closedLine p)) (take seg V)) in *.
  set (T2 := flat_map (path_vertices (_closedLine p)) (drop (S seg) V)) in *.
  assert (Forall (λ vs, enough_points (_closedLine p) (length vs)) V) as HnV.
  { unfold V, vectors3v. apply Forall_fmap. eapply Forall_impl; [exact Hn|].
    intros path Hpath. simpl. by rewrite length_fmap. }
  assert (length T1 = vertex_offset (length <$> V) seg) as HT1.
  { unfold T1. rewrite length_flat_path_vertices by (by apply Forall_take).
    unfold vertex_offset. by rewrite fmap_take. }
  assert (path_vertices (_closedLine p) vs0 = segment_vertices last0 first0 vs0) as Hpv0
    by (unfold path_vertices; by rewrite Hlast0, Hfirst0).
  assert (path_vertices (_closedLine p) vs' = segment_vertices last' first' vs') as Hpv'
    by (unfold path_vertices; by rewrite Hlast', Hfirst').
  assert (_vertices p2
          = T1 ++ segment_vertices (if near_start index then last' else last0)
                    (if near_end index (length path0) then first' else first0) vs'
               ++ T2) as EV2.
  { rewrite HV2, EV1, Hold, Hpv0, Hcl1, <- Hlvs0.
    apply patched_vertices_blocks; try done. lia. }
  assert (_vertices p3 = T1 ++ segment_vertices last' first' vs' ++ T2) as EV3'.
  { rewrite EV3. unfold path3v'. rewrite vectors3v_insert. fold vs0 vs' V.
    by rewrite Hnew, Hpv'. }
  exists p1, p2, p3, last0, first0, last', first', T1, T2.
  split; [done|]. split; [done|]. split; [done|].
  split; [done|]. split; [done|]. split; [done|]. split; [done|].
  split; [by rewrite HT1; unfold V; rewrite lengths_vectors3v|].
  split; [done|]. split; [done|].
  assert (length <$> vectors3v path3v' = length <$> V) as Hshape.
  { unfold path3v'. rewrite vectors3v_insert. fold V vs0 vs'.
    by apply (lengths_insert V seg vs0). }
  assert (length (vectors3v path3v') = length V) as Hcount.
  { unfold path3v'. rewrite vectors3v_insert. apply length_insert. }
  apply polyline_eq; cbn.
  - by rewrite Hcl2, Hcl1, Hcl3.
  - rewrite Hp2, HC3. unfold path3v'. by rewrite vectors3v_insert.
  - rewrite HL2, HL3. unfold path3v'. rewrite geodetic3v_insert.
    fold lseg G. by rewrite set_point_inside by lia.
  - rewrite HM2, HM3. unfold path3v'. rewrite geodetic3v_insert. fold lseg G.
    rewrite set_point_inside by (rewrite length_fmap; lia).
    by rewrite !list_fmap_insert.
  - rewrite HE2, HE3, HE1, reset_extent_foldl. unfold path3v'.
    rewrite geodetic3v_insert. fold lseg G. by rewrite set_point_inside by lia.
  - done.
  - by rewrite HO2, EO1, EO3, Hshape.
  - by rewrite HI2, EI1, EI3, Hshape, Hcount.
  - rewrite Hbuf. unfold buffers_of. cbn. by rewrite Hvb1, Hob1, Hib1, Hvb3, Hob3, Hib3.
  - by rewrite Hrn2, Hrn1, Hrn3.
  - by rewrite Hcb2, Hcb1, Hcb3.
Qed.

Lemma with_vertices_same (p : Polyline) : with_vertices (_vertices p) p = p.
Proof. by destruct p. Qed.

(** X7.  On an open polyline with an ellipsoid, moving a point whose
    [Vec3] is stored at that one place ([same] is empty, as it is for every
    point that was given as an array) is the same as rebuilding.  After a
    rebuild from a Cartesian path, a [setPoint3v] of such a point
    ([forceLonLat] false) leaves the polyline in the state a rebuild from
    the path with that point replaced leaves it in: the same vertex, order
    and index arrays, Cartesian, geodetic and Mercator paths, extent and
    buffers.  The one difference is the vertex-buffer flag, which the edit
    sets and a rebuild by itself does not touch. *)
Theorem setPoint3v_is_rebuild_of_edited_path
    (p : Polyline) (rn : RenderNode) (e : Ellipsoid) (path3v : list (list Point3))
    (c : Vec3) (index : Z) (segmentIndex : option Z) (path0 : list Point3) :
  _renderNode p = Some rn → ellipsoid rn = Some e → _closedLine p = false →
  Forall (λ path, 2 ≤ length path)%nat path3v →
  0 ≤ default 0 segmentIndex →
  path3v !! Z.to_nat (default 0 segmentIndex) = Some path0 →
  0 ≤ index < Z.of_nat (length path0) →
  ∃ p1 p2 p3,
    _createData3v path3v p = Done p1
    ∧ setPoint3v_shared [] c index segmentIndex false p1 = Done p2
    ∧ _createData3v
        (<[Z.to_nat (default 0 segmentIndex) := <[Z.to_nat index := P3Vec c]> path0]> path3v)
        p
      = Done p3
    ∧ p2 = with_changed (js_store (_changedBuffers p3) VERTICES_BUFFER true) p3.
Proof.
  intros Hrn He Hopen Hn Hseg0 Hseg Hidx.
  destruct (edit_after_rebuild p rn e path3v c index segmentIndex path0)
    as (p1 & p2 & p3 & last0 & first0 & last' & first' & T1 & T2
        & Hrun1 & Hrun2 & Hrun3 & Hl0 & Hf0 & Hl' & Hf' & _ & EV2 & EV3 & Heq);
    try done.
  { rewrite Hopen. exact Hn. }
  exists p1, p2, p3. split; [done|].
  split; [by rewrite setPoint3v_shared_alone|]. split; [done|].
  rewrite Hopen in Hl0, Hf0, Hl', Hf'.
  assert (2 ≤ length (toVec3 <$> path0))%nat as Hlen.
  { rewrite length_fmap. by eapply (Forall_lookup_1 _ _ _ _ Hn). }
  destruct (open_caps_after_edit (toVec3 <$> path0) c index) as [Hbefore Hafter];
    [by rewrite length_fmap|done|].
  assert ((if near_start index then last' else last0) = last') as El.
  { destruct (near_start index); [done|].
    rewrite Hbefore, Hl0 in Hl' by done. by injection Hl'. }
  assert ((if near_end index (length path0) then first' else first0) = first') as Ef.
  { rewrite length_fmap in Hafter. destruct (near_end index (length path0)); [done|].
    rewrite Hafter, Hf0 in Hf' by done. by injection Hf'. }
  rewrite El, Ef, <- EV3 in EV2. rewrite EV2 in Heq.
  by rewrite with_vertices_same in Heq.
Qed.

Lemma js_read_block (X Y : jsarray A) (k d : nat) (q : Vec3) :
  length X = k → (d < 12)%nat → js_read (X ++ quad q ++ Y) (k + d) = quad_entry q d.
Proof.
  intros <- Hd. unfold js_read, quad_entry, js_read.
  rewrite lookup_app_r by lia.
  replace (length X + d - length X)%nat with d by lia.
  by rewrite lookup_app_l by (rewrite length_quad; lia).
Qed.

(** X8.  On a closed polyline the patcher recomputes the cap before the
    first point only for [index] 0 or 1, and the cap after the last point
    only for the last index or the one before.  But the cap before the first
    point is the last point, and the cap after the last point is the first
    point.  So on a closed segment of three points or more, moving the last
    point leaves the block before the first point holding the old last point,
    and moving the first point leaves the block after the last point holding
    the old first point, where a rebuild of the edited path holds the new
    position. *)
Theorem closed_edit_leaves_far_cap_stale
    (p : Polyline) (rn : RenderNode) (e : Ellipsoid) (path3v : list (list Point3))
    (c : Vec3) (segmentIndex : option Z) (path0 : list Point3) :
  let seg := Z.to_nat (default 0 segmentIndex) in
  let n := length path0 in
  let kk := vertex_offset (length <$> path3v) seg in
  _renderNode p = Some rn → ellipsoid rn = Some e → _closedLine p = true →
  Forall (λ path, 1 ≤ length path)%nat path3v →
  0 ≤ default 0 segmentIndex → path3v !! seg = Some path0 → (3 ≤ n)%nat →
  ∃ p1,
    _createData3v path3v p = Done p1
    ∧ (∃ p2 p3 old_last,
         path0 !! (n - 1)%nat = Some old_last
         ∧ setPoint3v c (Z.of_nat n - 1) segmentIndex false p1 = Done p2
         ∧ _createData3v (<[seg := <[(n - 1)%nat := P3Vec c]> path0]> path3v) p = Done p3
         ∧ ∀ d, (d < 12)%nat →
             js_read (_vertices p2) (kk + d) = quad_entry (toVec3 old_last) d
             ∧ js_read (_vertices p3) (kk + d) = quad_entry c d)
    ∧ (∃ p2 p3 old_first,
         path0 !! 0%nat = Some old_first
         ∧ setPoint3v c 0 segmentIndex false p1 = Done p2
         ∧ _createData3v (<[seg := <[0%nat := P3Vec c]> path0]> path3v) p = Done p3
         ∧ ∀ d, (d < 12)%nat →
             js_read (_vertices p2) (kk + n * 12 + 12 + d)
             = quad_entry (toVec3 old_first) d
             ∧ js_read (_vertices p3) (kk + n * 12 + 12 + d) = quad_entry c d).
Proof.
  intros seg n kk Hrn He Hclosed Hn Hseg0 Hseg Hn3.
  assert (Forall (λ path, enough_points (_closedLine p) (length path)) path3v) as Hn'
    by (by rewrite Hclosed).
  destruct (lookup_lt_is_Some_2 path0 (n - 1)) as [old_last Hlast]; [lia|].
  destruct (lookup_lt_is_Some_2 path0 0) as [old_first Hfirst]; [lia|].
  destruct (edit_after_rebuild p rn e path3v c (Z.of_nat n - 1) segmentIndex path0)
    as (p1 & p2 & p3 & last0 & first0 & last' & first' & T1 & T2
        & Hrun1 & Hrun2 & Hrun3 & Hl0 & Hf0 & Hl' & Hf' & HT1 & EV2 & EV3 & _);
    [done|done|done|done|done|lia|].
  destruct (edit_after_rebuild p rn e path3v c 0 segmentIndex path0)
    as (q1 & q2 & q3 & qlast0 & qfirst0 & qlast' & qfirst' & U1 & U2
        & Hqrun1 & Hqrun2 & Hqrun3 & Hql0 & Hqf0 & Hql' & Hqf' & HU1 & EW2 & EW3 & _);
    [done|done|done|done|done|lia|].
  rewrite Hrun1 in Hqrun1. injection Hqrun1 as <-.
  exists p1. split; [done|]. split.
  - exists p2, p3, old_last. split; [done|]. split; [done|].
    replace (Z.to_nat (Z.of_nat n - 1)) with (n - 1)%nat in * by lia.
    split; [done|]. intros d Hd.
    rewrite Hclosed in Hl0, Hl'.
    rewrite patch_cap_before_closed, length_fmap, list_lookup_fmap in Hl0
      by (rewrite length_fmap; lia).
    fold n in Hl0. rewrite Hlast in Hl0. injection Hl0 as <-.
    rewrite patch_cap_before_closed, length_insert, length_fmap in Hl'
      by (rewrite length_insert, length_fmap; lia).
    fold n in Hl'. rewrite list_lookup_insert_eq in Hl' by (rewrite length_fmap; lia).
    injection Hl' as <-.
    assert (near_start (Z.of_nat n - 1) = false) as Hns.
    { unfold near_start. apply orb_false_iff. split; apply Z.eqb_neq; lia. }
    rewrite Hns in EV2. rewrite EV2, EV3. unfold segment_vertices. fold kk in HT1.
    split; by apply js_read_block.
  - exists q2, q3, old_first. split; [done|]. split; [done|].
    change (Z.to_nat 0) with 0%nat in *.
    split; [done|]. intros d Hd.
    rewrite Hclosed in Hqf0, Hqf'.
    rewrite patch_cap_after_closed, list_lookup_fmap, Hfirst in Hqf0.
    injection Hqf0 as <-.
    rewrite patch_cap_after_closed, list_lookup_insert_eq in Hqf'
      by (rewrite length_fmap; lia).
    injection Hqf' as <-.
    assert (near_end 0 (length path0) = false) as Hne.
    { unfold near_end. apply orb_false_iff. split; apply Z.eqb_neq; lia. }
    rewrite Hne in EW2. rewrite EW2, EW3. unfold segment_vertices. fold kk in HU1.
    rewrite <- !app_assoc.
    rewrite !(app_assoc U1 (quad _)), !(app_assoc (U1 ++ quad _) (flat_map quad _)).
    split; apply js_read_block; try done;
      rewrite !length_app, length_quad, length_flat_quad, length_insert, length_fmap, HU1;
      unfold n, kk, seg; lia.
Qed.

(** * The equal-length setters *)

(** ** _setEqualPath3v

    The path is an array of arrays of [Vec3] objects: the setter reads
    [path[i].x] without the conversion from arrays the builders make.  The
    vertex array is overwritten in place from its start ([v[k++] = ...]);
    the index and order arrays and [_path3v] are not written. *)

(** [l[j][i] = lonLat; m[j][i] = lonLat.forwardMercator()] and the four
    comparisons.  A missing [l[j]] or [m[j]] throws. *)
Definition store_geodetic (j i : nat) (g : LonLat) (p : Polyline) : outcome Polyline :=
  match js_read (_pathLonLat p) j with
  | None => Throw p
  | Some ls =>
    let l' := <[j := Some (js_store ls i g)]> (_pathLonLat p) in
    match js_read (_pathLonLatMerc p) j with
    | None => Throw (with_paths (_path3v p) l' (_pathLonLatMerc p) p)
    | Some ms =>
      let m' := <[j := Some (js_store ms i (forwardMercator g))]> (_pathLonLatMerc p) in
      Done (with_extent (extend (_extent p) g) (with_paths (_path3v p) l' m' p))
    end
  end.

(** The inner loop from point [i] on, with [k] the next free place in the
    vertex array. *)
Fixpoint equal_points3v (ell : option Ellipsoid) (j i k : nat) (path : list Vec3)
    (p : Polyline) : outcome (nat * Polyline) :=
  match path with
  | [] => Done (k, p)
  | cur :: rest =>
    match (match ell with
           | Some e => store_geodetic j i (cartesianToLonLat e cur) p
           | None => Done p
           end) with
    | Throw q => Throw (k, q)
    | Done p1 =>
      equal_points3v ell j (S i) (k + 12) rest
        (with_vertices (write_block (_vertices p1) k cur) p1)
    end
  end.

(** One turn of the outer loop. *)
Definition equal_segment3v (ell : option Ellipsoid) (j : nat) (path : list Vec3)
    (st : nat * Polyline) : outcome (nat * Polyline) :=
  match patch_cap_before (_closedLine st.2) path with
  | None => Throw st
  | Some last =>
    match equal_points3v ell j 0 (st.1 + 12) path
            (with_vertices (write_block (_vertices st.2) st.1 last) st.2) with
    | Throw st1 => Throw st1
    | Done st1 =>
      match patch_cap_after (_closedLine st1.2) path with
      | None => Throw st1
      | Some first =>
        Done ((st1.1 + 12)%nat,
              with_vertices (write_block (_vertices st1.2) st1.1 first) st1.2)
      end
    end
  end.

Fixpoint equal_segments3v (ell : option Ellipsoid) (j : nat) (paths : list (list Vec3))
    (st : nat * Polyline) : outcome (nat * Polyline) :=
  match paths with
  | [] => Done st
  | path :: rest =>
    match equal_segment3v ell j path st with
    | Done st' => equal_segments3v ell (S j) rest st'
    | Throw st' => Throw st'
    end
  end.

(** The extent is reset before [this._renderNode.ellipsoid] is read. *)
Definition _setEqualPath3v (path3v : list (list Vec3)) (p : Polyline) : outcome Polyline :=
  let p0 := with_extent (reset_extent (_extent p)) p in
  match _renderNode p0 with
  | None => Throw p0
  | Some rn => outcome_map snd (equal_segments3v (ellipsoid rn) 0 path3v (0%nat, p0))
  end.

(** ** setPath3v

    For a path whose points are [Vec3] objects, the form all three branches
    read.  Not attached, the polyline keeps a copy of the outer array and
    builds nothing. *)
Definition setPath3v (path3v : list (list Vec3)) (forceEqual : bool) (p : Polyline)
    : outcome Polyline :=
  match _renderNode p with
  | Some _ =>
    if forceEqual then
      match _setEqualPath3v path3v p with
      | Done p' => Done (with_changed (js_store (_changedBuffers p') VERTICES_BUFFER true) p')
      | Throw q => Throw q
      end
    else
      match _createData3v ((λ path : list Vec3, P3Vec <$> path) <$> path3v) p with
      | Done p' =>
        Done (with_changed
                (js_store (js_store (_changedBuffers p') VERTICES_BUFFER true)
                   INDEX_BUFFER true) p')
      | Throw q => Throw q
      end
  | None => Done (with_path3v (Some <$> path3v) p)
  end.

(** ** What the equal-length setter leaves alone *)

Definition kept_by_setter (p : Polyline) :=
  (_closedLine p, _path3v p, _orders p, _indexes p, buffers_of p, _renderNode p,
   _changedBuffers p).

Lemma store_geodetic_kept j i g p :
  kept_by_setter (state_of (store_geodetic j i g p)) = kept_by_setter p
  ∧ _vertices (state_of (store_geodetic j i g p)) = _vertices p.
Proof.
  unfold store_geodetic. destruct (js_read (_pathLonLat p) j); [|done].
  by destruct (js_read (_pathLonLatMerc p) j).
Qed.

Lemma equal_points3v_kept ell j path : ∀ i k p,
  kept_by_setter (state_of (equal_points3v ell j i k path p)).2 = kept_by_setter p.
Proof.
  induction path as [|cur path IH]; intros i k p; [done|].
  cbn [equal_points3v]. destruct ell as [e|].
  - destruct (store_geodetic_kept j i (cartesianToLonLat e cur) p) as [Hk _].
    destruct (store_geodetic j i (cartesianToLonLat e cur) p) as [p1|p1];
      cbn [state_of] in *; [|done].
    by rewrite IH.
  - by rewrite IH.
Qed.

Lemma equal_segment3v_kept ell j path st :
  kept_by_setter (state_of (equal_segment3v ell j path st)).2 = kept_by_setter st.2.
Proof.
  unfold equal_segment3v.
  destruct (patch_cap_before _ path) as [last|]; [|done].
  pose proof (equal_points3v_kept ell j path 0 (st.1 + 12)
                (with_vertices (write_block (_vertices st.2) st.1 last) st.2)) as Hk.
  destruct (equal_points3v _ _ _ _ _ _) as [st1|st1]; cbn [state_of] in *; [|done].
  by destruct (patch_cap_after _ path).
Qed.

Lemma equal_segments3v_kept ell paths : ∀ j st,
  kept_by_setter (state_of (equal_segments3v ell j paths st)).2 = kept_by_setter st.2.
Proof.
  induction paths as [|path paths IH]; intros j st; [done|].
  cbn [equal_segments3v].
  pose proof (equal_segment3v_kept ell j path st) as Hk.
  destruct (equal_segment3v ell j path st) as [st1|st1]; cbn [state_of] in *; [|done].
  by rewrite IH.
Qed.

Lemma _setEqualPath3v_kept path3v p :
  kept_by_setter (state_of (_setEqualPath3v path3v p)) = kept_by_setter p.
Proof.
  unfold _setEqualPath3v.
  destruct (_renderNode _) as [rn|]; [|done].
  rewrite state_of_outcome_map. by rewrite equal_segments3v_kept.
Qed.

(** ** The vertex array under the equal-length setter *)

Lemma write_block_front (R : jsarray A) (q : Vec3) :
  (12 ≤ length R)%nat → write_block R 0 q = quad q ++ drop 12 R.
Proof.
  intros HR.
  do 12 (destruct R as [|? R]; [simpl in HR; lia|]).
  unfold write_block, quad. cbn [app Nat.add drop].
  by repeat (rewrite js_store_in_range by (cbn [length insert list_insert]; lia);
             cbn [insert list_insert]).
Qed.

Lemma write_block_next (X R : jsarray A) (k : nat) (q : Vec3) :
  length X = k → (12 ≤ length R)%nat →
  write_block (X ++ R) k q = (X ++ quad q) ++ drop 12 R.
Proof.
  intros <- HR. rewrite write_block_app_r, Nat.sub_diag by done.
  by rewrite write_block_front, app_assoc by done.
Qed.

Lemma equal_points3v_vertices ell j path : ∀ i k p X R st',
  equal_points3v ell j i k path p = Done st' →
  _vertices p = X ++ R → length X = k → (12 * length path ≤ length R)%nat →
  st'.1 = (k + 12 * length path)%nat
  ∧ _vertices st'.2 = (X ++ flat_map quad path) ++ drop (12 * length path) R.
Proof.
  induction path as [|cur path IH]; intros i k p X R st' Hrun HV HX HR.
  - injection Hrun as <-. cbn. rewrite app_nil_r. split; [lia|done].
  - cbn [equal_points3v] in Hrun. cbn [length] in HR.
    set (r := match ell with
              | Some e => store_geodetic j i (cartesianToLonLat e cur) p
              | None => Done p
              end) in *.
    assert (_vertices (state_of r) = _vertices p) as Hsame.
    { unfold r. destruct ell as [e|]; [|done]. apply store_geodetic_kept. }
    destruct r as [p1|p1]; [|done]. cbn [state_of] in Hsame.
    destruct (IH (S i) (k + 12)%nat _ (X ++ quad cur) (drop 12 R) st' Hrun)
      as [Hk HV']; cbn [_vertices with_vertices with_mesh].
    + rewrite Hsame, HV. apply write_block_next; [done|lia].
    + rewrite length_app, length_quad. lia.
    + rewrite length_drop. lia.
    + split; [cbn [length]; lia|].
      rewrite HV', drop_drop. cbn [flat_map length]. rewrite <- !app_assoc.
      by replace (12 + 12 * length path)%nat with (12 * S (length path))%nat by lia.
Qed.

Lemma equal_segment3v_vertices ell j path st st' X R last first :
  equal_segment3v ell j path st = Done st' →
  patch_cap_before (_closedLine st.2) path = Some last →
  patch_cap_after (_closedLine st.2) path = Some first →
  _vertices st.2 = X ++ R → length X = st.1 → (12 * (length path + 2) ≤ length R)%nat →
  st'.1 = (st.1 + 12 * (length path + 2))%nat
  ∧ _vertices st'.2
    = (X ++ segment_vertices last first path) ++ drop (12 * (length path + 2)) R.
Proof.
  intros Hrun Hlast Hfirst HV HX HR. unfold equal_segment3v in Hrun.
  rewrite Hlast in Hrun.
  pose proof (equal_points3v_kept ell j path 0 (st.1 + 12)
                (with_vertices (write_block (_vertices st.2) st.1 last) st.2)) as Hk.
  destruct (equal_points3v _ _ _ _ _ _) as [st1|st1] eqn:Hpts; [|done].
  cbn [state_of] in Hk.
  assert (_closedLine st1.2 = _closedLine st.2) as Hcl
    by (by injection Hk).
  rewrite Hcl, Hfirst in Hrun. injection Hrun as <-.
  destruct (equal_points3v_vertices ell j path 0 (st.1 + 12)%nat _
              (X ++ quad last) (drop 12 R) st1 Hpts) as [Hk1 HV1];
    cbn [_vertices with_vertices with_mesh].
  - rewrite HV. apply write_block_next; [done|lia].
  - rewrite length_app, length_quad. lia.
  - rewrite length_drop. lia.
  - cbn [fst snd _vertices with_vertices with_mesh]. split; [lia|].
    rewrite HV1, drop_drop.
    rewrite write_block_next.
    + unfold segment_vertices. rewrite drop_drop, <- !app_assoc.
      by replace (12 + 12 * length path + 12)%nat with (12 * (length path + 2))%nat by lia.
    + rewrite !length_app, length_quad, length_flat_quad. lia.
    + rewrite length_drop. lia.
Qed.

Lemma equal_segments3v_vertices ell paths : ∀ j st st' X R,
  equal_segments3v ell j paths st = Done st' →
  Forall (λ path, enough_points (_closedLine st.2) (length path)) paths →
  _vertices st.2 = X ++ R → length X = st.1 →
  (length (flat_map (path_vertices (_closedLine st.2)) paths) ≤ length R)%nat →
  _vertices st'.2
  = (X ++ flat_map (path_vertices (_closedLine st.2)) paths)
    ++ drop (length (flat_map (path_vertices (_closedLine st.2)) paths)) R.
Proof.
  induction paths as [|path paths IH]; intros j st st' X R Hrun Hn HV HX HR.
  - injection Hrun as <-. cbn. by rewrite app_nil_r.
  - cbn [equal_segments3v] in Hrun. apply Forall_cons in Hn as [Hpath Hn].
    pose proof (equal_segment3v_kept ell j path st) as Hk.
    destruct (equal_segment3v ell j path st) as [st1|st1] eqn:Hseg; [|done].
    cbn [state_of] in Hk.
    assert (_closedLine st1.2 = _closedLine st.2) as Hcl by (by injection Hk).
    destruct (patch_cap_before_Some _ path Hpath) as [last Hlast].
    destruct (patch_cap_after_Some _ path Hpath) as [first Hfirst].
    cbn [flat_map] in *. rewrite length_app in *.
    rewrite (length_path_vertices _ path Hpath) in *.
    assert (path_vertices (_closedLine st.2) path = segment_vertices last first path)
      as Hpv by (unfold path_vertices; by rewrite Hlast, Hfirst).
    destruct (equal_segment3v_vertices ell j path st st1 X R last first Hseg)
      as [Hk1 HV1]; [done|done|done|done|lia|].
    rewrite (IH (S j) st1 st' (X ++ segment_vertices last first path)
                (drop (12 * (length path + 2)) R) Hrun); rewrite ?Hcl.
    + rewrite drop_drop, Hpv, <- !app_assoc. do 3 f_equal. f_equal. lia.
    + done.
    + done.
    + rewrite length_app, length_segment_vertices, Hk1. lia.
    + rewrite length_drop. lia.
Qed.

(** ** The geodetic arrays under the equal-length setter *)

Lemma store_geodetic_dense j i g p G M gl ml :
  _pathLonLat p = dense G → _pathLonLatMerc p = dense M →
  G !! j = Some gl → M !! j = Some ml → (i < length gl)%nat → (i < length ml)%nat →
  store_geodetic j i g p
  = Done (with_extent (extend (_extent p) g)
            (with_paths (_path3v p) (dense (<[j := <[i := g]> gl]> G))
               (dense (<[j := <[i := forwardMercator g]> ml]> M)) p)).
Proof.
  intros HL HM HG HMl Hi Hi'. unfold store_geodetic.
  rewrite HL, HM, !js_read_dense, HG, HMl. cbn [fmap option_fmap option_map].
  rewrite !js_store_dense by lia. rewrite !set_point_inside by done.
  by rewrite !dense_insert.
Qed.

Lemma take_S_insert {T} (l : list T) (i : nat) (v : T) :
  (i < length l)%nat → take (S i) (<[i := v]> l) = take i l ++ [v].
Proof.
  intros Hi. rewrite (take_S_r _ _ v) by (by apply list_lookup_insert_eq).
  by rewrite take_insert_ge by done.
Qed.

Lemma equal_points3v_geodetic e j path : ∀ i k p G M gl ml,
  _pathLonLat p = dense G → _pathLonLatMerc p = dense M →
  G !! j = Some gl → M !! j = Some ml →
  (i + length path ≤ length gl)%nat → (i + length path ≤ length ml)%nat →
  ∃ st', equal_points3v (Some e) j i k path p = Done st'
    ∧ _pathLonLat st'.2
      = dense (<[j := take i gl ++ (cartesianToLonLat e <$> path)
                        ++ drop (i + length path) gl]> G)
    ∧ _pathLonLatMerc st'.2
      = dense (<[j := take i ml ++ ((λ c, forwardMercator (cartesianToLonLat e c)) <$> path)
                        ++ drop (i + length path) ml]> M)
    ∧ _extent st'.2 = foldl extend (_extent p) (cartesianToLonLat e <$> path).
Proof.
  induction path as [|cur path IH]; intros i k p G M gl ml HL HM HG HMl Hi Hi'.
  - eexists. split; [done|]. cbn [fmap list_fmap length app foldl snd].
    by rewrite Nat.add_0_r, !take_drop, !list_insert_id.
  - cbn [equal_points3v length] in *.
    rewrite (store_geodetic_dense j i _ p G M gl ml) by (done || lia).
    set (g := cartesianToLonLat e cur).
    destruct (IH (S i) (k + 12)%nat
                (with_vertices
                   (write_block
                      (_vertices
                         (with_extent (extend (_extent p) g)
                            (with_paths (_path3v p) (dense (<[j := <[i := g]> gl]> G))
                               (dense (<[j := <[i := forwardMercator g]> ml]> M)) p)))
                      k cur)
                   (with_extent (extend (_extent p) g)
                      (with_paths (_path3v p) (dense (<[j := <[i := g]> gl]> G))
                         (dense (<[j := <[i := forwardMercator g]> ml]> M)) p)))
                (<[j := <[i := g]> gl]> G) (<[j := <[i := forwardMercator g]> ml]> M)
                (<[i := g]> gl) (<[i := forwardMercator g]> ml))
      as (st' & Hrun & HL' & HM' & HE'); try done.
    + apply list_lookup_insert_eq. by eapply lookup_lt_Some.
    + apply list_lookup_insert_eq. by eapply lookup_lt_Some.
    + rewrite length_insert. lia.
    + rewrite length_insert. lia.
    + exists st'. split; [exact Hrun|].
      rewrite HL', HM', HE', !list_insert_insert_eq.
      rewrite !take_S_insert, !drop_insert_lt by lia.
      cbn [fmap list_fmap foldl _extent with_vertices with_mesh with_extent].
      rewrite <- !app_assoc. cbn [app].
      by replace (i + S (length path))%nat with (S i + length path)%nat by lia.
Qed.

Lemma equal_points3v_plain j path : ∀ i k p,
  ∃ st', equal_points3v None j i k path p = Done st'
         ∧ _pathLonLat st'.2 = _pathLonLat p
         ∧ _pathLonLatMerc st'.2 = _pathLonLatMerc p
         ∧ _extent st'.2 = _extent p.
Proof.
  induction path as [|cur path IH]; intros i k p; [by eexists|].
  cbn [equal_points3v].
  destruct (IH (S i) (k + 12)%nat (with_vertices (write_block (_vertices p) k cur) p))
    as (st' & Hrun & HL & HM & HE).
  by exists st'.
Qed.

(** What the geodetic arrays and the extent hold after the setter has run
    over the segments [paths], from segment [j] on. *)
Definition geodetic_after (ell : option Ellipsoid) (j : nat) (paths : list (list Vec3))
    (G M : list (list LonLat)) (ex : Extent)
    : list (list LonLat) * list (list LonLat) * Extent :=
  match ell with
  | Some e =>
    (take j G ++ ((λ path : list Vec3, cartesianToLonLat e <$> path) <$> paths)
       ++ drop (j + length paths) G,
     take j M
       ++ ((λ path : list Vec3, (λ c, forwardMercator (cartesianToLonLat e c)) <$> path)
             <$> paths)
       ++ drop (j + length paths) M,
     foldl extend ex
       (concat ((λ path : list Vec3, cartesianToLonLat e <$> path) <$> paths)))
  | None => (G, M, ex)
  end.

Lemma shape_head {T} (path : list Vec3) (paths : list (list Vec3)) (G : list (list T)) j :
  length <$> (path :: paths) = take (length (path :: paths)) (drop j (length <$> G)) →
  (∃ gl, G !! j = Some gl ∧ length gl = length path)
  ∧ length <$> paths = take (length paths) (drop (S j) (length <$> G)).
Proof.
  intros Hshape. destruct ((length <$> G) !! j) as [n|] eqn:Hj.
  - rewrite (drop_S _ _ _ Hj) in Hshape. cbn in Hshape. injection Hshape as Hn Hrest.
    split; [|done]. rewrite list_lookup_fmap in Hj.
    destruct (G !! j) as [gl|]; [|done]. exists gl. split; [done|].
    injection Hj as <-. done.
  - rewrite drop_ge in Hshape by (by apply lookup_ge_None). done.
Qed.

Lemma equal_segments3v_geodetic ell paths : ∀ j st G M,
  Forall (λ path, enough_points (_closedLine st.2) (length path)) paths →
  _pathLonLat st.2 = dense G → _pathLonLatMerc st.2 = dense M →
  (is_Some ell →
   length <$> paths = take (length paths) (drop j (length <$> G))
   ∧ length <$> paths = take (length paths) (drop j (length <$> M))) →
  ∃ st', equal_segments3v ell j paths st = Done st'
    ∧ _pathLonLat st'.2 = dense (geodetic_after ell j paths G M (_extent st.2)).1.1
    ∧ _pathLonLatMerc st'.2 = dense (geodetic_after ell j paths G M (_extent st.2)).1.2
    ∧ _extent st'.2 = (geodetic_after ell j paths G M (_extent st.2)).2.
Proof.
  induction paths as [|path paths IH]; intros j st G M Hn HL HM Hshape.
  - exists st. split; [done|]. unfold geodetic_after. destruct ell as [e|]; [|done].
    cbn [fmap list_fmap length app concat foldl fst snd].
    by rewrite Nat.add_0_r, !take_drop.
  - apply Forall_cons in Hn as [Hpath Hn]. cbn [equal_segments3v].
    destruct (patch_cap_before_Some _ path Hpath) as [last Hlast].
    destruct (patch_cap_after_Some _ path Hpath) as [first Hfirst].
    unfold equal_segment3v. rewrite Hlast.
    set (p0 := with_vertices (write_block (_vertices st.2) st.1 last) st.2).
    pose proof (equal_points3v_kept ell j path 0 (st.1 + 12) p0) as Hk.
    destruct ell as [e|].
    + destruct (Hshape (ltac:(by eexists))) as [HsG HsM].
      apply shape_head in HsG as [(gl & HG & Hgl) HsG].
      apply shape_head in HsM as [(ml & HMl & Hml) HsM].
      destruct (equal_points3v_geodetic e j path 0 (st.1 + 12) p0 G M gl ml)
        as (st1 & Hrun & HL1 & HM1 & HE1); [done|done|done|done|lia|lia|].
      rewrite Hrun in Hk |- *. cbn [state_of] in Hk.
      assert (_closedLine st1.2 = _closedLine st.2) as Hcl by (by injection Hk).
      rewrite Hcl, Hfirst.
      rewrite !drop_ge, !app_nil_r in HL1, HM1 by lia. cbn [take app] in HL1, HM1.
      destruct (IH (S j) ((st1.1 + 12)%nat,
                          with_vertices (write_block (_vertices st1.2) st1.1 first) st1.2)
                  (<[j := cartesianToLonLat e <$> path]> G)
                  (<[j := (λ c, forwardMercator (cartesianToLonLat e c)) <$> path]> M))
        as (st' & Hrun' & HL' & HM' & HE').
      * cbn [snd _closedLine with_vertices with_mesh]. by rewrite Hcl.
      * exact HL1.
      * exact HM1.
      * intros _. split.
        -- rewrite (lengths_insert G j gl) by (by rewrite ?length_fmap). exact HsG.
        -- rewrite (lengths_insert M j ml) by (by rewrite ?length_fmap). exact HsM.
      * exists st'. split; [exact Hrun'|].
        rewrite HL', HM', HE'. unfold geodetic_after.
        cbn [fst snd length fmap list_fmap concat _extent with_vertices with_mesh].
        rewrite !take_S_insert by (by eapply lookup_lt_Some).
        rewrite !drop_insert_lt by lia.
        rewrite HE1, foldl_app, <- !app_assoc. cbn [app].
        by replace (j + S (length paths))%nat with (S j + length paths)%nat by lia.
    + destruct (equal_points3v_plain j path 0 (st.1 + 12) p0)
        as (st1 & Hrun & HL1 & HM1 & HE1).
      rewrite Hrun in Hk |- *. cbn [state_of] in Hk.
      assert (_closedLine st1.2 = _closedLine st.2) as Hcl by (by injection Hk).
      rewrite Hcl, Hfirst.
      destruct (IH (S j) ((st1.1 + 12)%nat,
                          with_vertices (write_block (_vertices st1.2) st1.1 first) st1.2)
                  G M)
        as (st' & Hrun' & HL' & HM' & HE').
      * cbn [snd _closedLine with_vertices with_mesh]. by rewrite Hcl.
      * cbn. by rewrite HL1.
      * cbn. by rewrite HM1.
      * by intros [? ?].
      * exists st'. split; [exact Hrun'|]. cbn in *. by rewrite HE' , HE1.
Qed.

Lemma kept_fields p q :
  kept_by_setter q = kept_by_setter p →
  _closedLine q = _closedLine p ∧ _path3v q = _path3v p ∧ _orders q = _orders p
  ∧ _indexes q = _indexes p ∧ buffers_of q = buffers_of p
  ∧ _renderNode q = _renderNode p ∧ _changedBuffers q = _changedBuffers p.
Proof. unfold kept_by_setter. intros H. repeat split; congruence. Qed.

Lemma _setEqualPath3v_run p rn path3v G M :
  _renderNode p = Some rn →
  Forall (λ path, enough_points (_closedLine p) (length path)) path3v →
  (length (flat_map (path_vertices (_closedLine p)) path3v) ≤ length (_vertices p))%nat →
  _pathLonLat p = dense G → _pathLonLatMerc p = dense M →
  (is_Some (ellipsoid rn) →
   length <$> path3v = take (length path3v) (length <$> G)
   ∧ length <$> path3v = take (length path3v) (length <$> M)) →
  ∃ p', _setEqualPath3v path3v p = Done p'
    ∧ _vertices p'
      = flat_map (path_vertices (_closedLine p)) path3v
        ++ drop (length (flat_map (path_vertices (_closedLine p)) path3v)) (_vertices p)
    ∧ _pathLonLat p'
      = dense (geodetic_after (ellipsoid rn) 0 path3v G M (reset_extent (_extent p))).1.1
    ∧ _pathLonLatMerc p'
      = dense (geodetic_after (ellipsoid rn) 0 path3v G M (reset_extent (_extent p))).1.2
    ∧ _extent p' = (geodetic_after (ellipsoid rn) 0 path3v G M (reset_extent (_extent p))).2
    ∧ kept_by_setter p' = kept_by_setter p.
Proof.
  intros Hrn Hn Hlen HL HM Hshape.
  pose proof (_setEqualPath3v_kept path3v p) as Hkept.
  unfold _setEqualPath3v in *.
  change (_renderNode (with_extent (reset_extent (_extent p)) p)) with (_renderNode p) in *.
  rewrite Hrn in *.
  set (p0 := with_extent (reset_extent (_extent p)) p) in *.
  destruct (equal_segments3v_geodetic (ellipsoid rn) path3v 0 (0%nat, p0) G M)
    as (st' & Hrun & HL' & HM' & HE'); try done.
  rewrite Hrun in *. cbn [outcome_map state_of] in *.
  exists st'.2. split; [done|].
  split; [|done].
  by rewrite (equal_segments3v_vertices (ellipsoid rn) path3v 0 (0%nat, p0) st' []
            (_vertices p) Hrun).
Qed.


Lemma vectors3v_objects (path3v : list (list Vec3)) :
  vectors3v ((λ path : list Vec3, P3Vec <$> path) <$> path3v) = path3v.
Proof.
  unfold vectors3v. rewrite <- list_fmap_compose.
  rewrite <- (list_fmap_id path3v) at 2. apply list_fmap_ext. intros _ path _. cbn.
  rewrite <- list_fmap_compose. apply list_fmap_id.
Qed.

Lemma geodetic3v_objects e (path3v : list (list Vec3)) :
  geodetic3v e ((λ path : list Vec3, P3Vec <$> path) <$> path3v)
  = (λ path : list Vec3, cartesianToLonLat e <$> path) <$> path3v.
Proof.
  unfold geodetic3v. rewrite <- list_fmap_compose.
  apply list_fmap_ext. intros _ path _. cbn. by rewrite <- list_fmap_compose.
Qed.


(** ** A path with more segments than are stored *)

Lemma store_geodetic_slots j i g p :
  length (_pathLonLat (state_of (store_geodetic j i g p))) = length (_pathLonLat p).
Proof.
  unfold store_geodetic. destruct (js_read (_pathLonLat p) j); [|done].
  destruct (js_read (_pathLonLatMerc p) j); cbn; apply length_insert.
Qed.

Lemma equal_points3v_slots ell j path : ∀ i k p,
  length (_pathLonLat (state_of (equal_points3v ell j i k path p)).2)
  = length (_pathLonLat p).
Proof.
  induction path as [|cur path IH]; intros i k p; [done|].
  cbn [equal_points3v]. destruct ell as [e|]; [|by rewrite IH].
  pose proof (store_geodetic_slots j i (cartesianToLonLat e cur) p) as Hs.
  destruct (store_geodetic j i (cartesianToLonLat e cur) p) as [p1|p1];
    cbn [state_of] in *; [|done].
  by rewrite IH.
Qed.

Lemma equal_segment3v_slots ell j path st :
  length (_pathLonLat (state_of (equal_segment3v ell j path st)).2)
  = length (_pathLonLat st.2).
Proof.
  unfold equal_segment3v.
  destruct (patch_cap_before _ path) as [last|]; [|done].
  pose proof (equal_points3v_slots ell j path 0 (st.1 + 12)
                (with_vertices (write_block (_vertices st.2) st.1 last) st.2)) as Hs.
  destruct (equal_points3v _ _ _ _ _ _) as [st1|st1]; cbn [state_of] in *; [|done].
  by destruct (patch_cap_after _ path).
Qed.

Lemma equal_segment3v_beyond e j path st :
  enough_points (_closedLine st.2) (length path) →
  (length (_pathLonLat st.2) ≤ j)%nat →
  ∃ q, equal_segment3v (Some e) j path st = Throw q.
Proof.
  intros Hpath Hj. unfold equal_segment3v.
  destruct (patch_cap_before_Some _ path Hpath) as [last ->].
  destruct path as [|cur path];
    [unfold enough_points in Hpath; simpl in Hpath; destruct (_closedLine st.2); lia|].
  cbn [equal_points3v]. unfold store_geodetic.
  cbn [_pathLonLat with_vertices with_mesh].
  assert (js_read (_pathLonLat st.2) j = None) as ->; [|by eexists].
  unfold js_read. by rewrite lookup_ge_None_2.
Qed.

Lemma equal_segments3v_beyond e paths : ∀ j st,
  Forall (λ path, enough_points (_closedLine st.2) (length path)) paths →
  (length (_pathLonLat st.2) < j + length paths)%nat → (0 < length paths)%nat →
  ∃ q, equal_segments3v (Some e) j paths st = Throw q.
Proof.
  induction paths as [|path paths IH]; intros j st Hn Hj Hne; [simpl in Hne; lia|].
  apply Forall_cons in Hn as [Hpath Hn]. cbn [equal_segments3v length] in *.
  pose proof (equal_segment3v_slots (Some e) j path st) as Hs.
  pose proof (equal_segment3v_kept (Some e) j path st) as Hk.
  destruct (decide (length (_pathLonLat st.2) ≤ j)%nat) as [Hle|Hgt].
  - destruct (equal_segment3v_beyond e j path st Hpath Hle) as [q ->]. by eexists.
  - destruct (equal_segment3v (Some e) j path st) as [st1|st1]; [|by eexists].
    cbn [state_of] in *. apply kept_fields in Hk as (Hcl & _).
    apply IH; [by rewrite Hcl|lia|lia].
Qed.

(** X11.  With an ellipsoid, [setPath3v(path, true)] assigns into the
    stored geodetic array of every segment it visits.  When the path has
    more segments than geodetic arrays are stored, the call throws on the
    missing array, after it has overwritten the vertex array up to there.
    The vertex-buffer flag is then not set; [_path3v], the index array and the
    order array are as before. *)
Theorem setPath3v_equal_throws_beyond_stored_segments
    (p : Polyline) (rn : RenderNode) (e : Ellipsoid) (path3v : list (list Vec3)) :
  _renderNode p = Some rn → ellipsoid rn = Some e →
  Forall (λ path, enough_points (_closedLine p) (length path)) path3v →
  (length (_pathLonLat p) < length path3v)%nat →
  ∃ q, setPath3v path3v true p = Throw q
       ∧ _changedBuffers q = _changedBuffers p
       ∧ _path3v q = _path3v p ∧ _orders q = _orders p ∧ _indexes q = _indexes p.
Proof.
  intros Hrn He Hn Hlen.
  pose proof (_setEqualPath3v_kept path3v p) as Hkept.
  unfold setPath3v. rewrite Hrn. unfold _setEqualPath3v in *.
  change (_renderNode (with_extent (reset_extent (_extent p)) p)) with (_renderNode p) in *.
  rewrite Hrn, He in *.
  destruct (equal_segments3v_beyond e path3v 0
              (0%nat, with_extent (reset_extent (_extent p)) p)) as [q Hq];
    [done|done|cbn in *; lia|].
  rewrite Hq in *. cbn [outcome_map state_of] in *.
  apply kept_fields in Hkept as (_ & Hp & Ho & Hi & _ & _ & Hc).
  by exists q.2.
Qed.

(** * Setters and the lazy buffer update *)

Lemma update_two_flags (p : Polyline) (h : Handler) (rn : RenderNode) :
  _renderNode p = Some rn → _changedBuffers p = [Some true; Some true] →
  _update (p, h)
  = Done (with_changed [Some false; Some false]
            (_createVerticesBuffer (_createIndexBuffer (p, h))).1,
          (_createVerticesBuffer (_createIndexBuffer (p, h))).2).
Proof.
  intros Hrn Hcb. destruct p as [c p3 pl pm ex v o i vb ob ib r cb].
  simpl in Hrn, Hcb. by subst r cb.
Qed.

Lemma update_vertex_flag (p : Polyline) (h : Handler) (rn : RenderNode) :
  _renderNode p = Some rn → _changedBuffers p = [Some true; Some false] →
  _update (p, h)
  = Done (with_changed [Some false; Some false] (_createVerticesBuffer (p, h)).1,
          (_createVerticesBuffer (p, h)).2).
Proof.
  intros Hrn Hcb. destruct p as [c p3 pl pm ex v o i vb ob ib r cb].
  simpl in Hrn, Hcb. by subst r cb.
Qed.


(** X13.  [setPath3v(path, true)] followed by the pre-draw update.  On an
    attached polyline whose two flags are clear, an equal-length path update
    that completes makes the update replace the vertex buffer only: one
    delete of the old vertex buffer and one create from the new vertex array.
    The order and index buffers are not touched. *)
Theorem setPath3v_equal_then_update_replaces_vertex_buffer_only
    (p p1 : Polyline) (rn : RenderNode) (h : Handler) (path3v : list (list Vec3)) :
  _renderNode p = Some rn → _changedBuffers p = [Some false; Some false] →
  setPath3v path3v true p = Done p1 →
  ∃ p2 h2,
    _update (p1, h) = Done (p2, h2)
    ∧ gl_calls h2
      = gl_calls h
        ++ [deleteBuffer (_verticesBuffer p);
            createArrayBuffer (FloatData (_vertices p1)) 3 (length_over (_vertices p1) 3)
              (gl_fresh h)]
    ∧ buffers_of p2 = (Some (gl_fresh h), _ordersBuffer p, _indexesBuffer p)
    ∧ _changedBuffers p2 = [Some false; Some false].
Proof.
  intros Hrn Hcb Hrun. unfold setPath3v in Hrun. rewrite Hrn in Hrun.
  pose proof (_setEqualPath3v_kept path3v p) as Hkept.
  destruct (_setEqualPath3v path3v p) as [p'|p']; [|done].
  injection Hrun as <-. cbn [state_of] in Hkept.
  apply kept_fields in Hkept as (_ & _ & _ & _ & Hb & Hr & Hc).
  eexists _, _. split.
  - apply (update_vertex_flag _ h rn); cbn; [by rewrite Hr|by rewrite Hc, Hcb].
  - unfold buffers_of in *. cbn. injection Hb as -> -> ->.
    by rewrite <- !app_assoc.
Qed.

(** ** The update loop *)

Lemma callback_keeps k callback st :
  _buffersUpdateCallbacks !! k = Some callback →
  _changedBuffers (callback st).1 = _changedBuffers st.1
  ∧ _renderNode (callback st).1 = _renderNode st.1.
Proof.
  unfold _buffersUpdateCallbacks. destruct k as [|[|k]]; [| |done]; by intros [= <-].
Qed.

Lemma update_loop_clears i : ∀ st st',
  update_loop i st = Done st' →
  (∀ k, (k < i)%nat → js_read (_changedBuffers st'.1) k ≠ Some true)
  ∧ (∀ k, (i ≤ k)%nat →
       js_read (_changedBuffers st'.1) k = js_read (_changedBuffers st.1) k)
  ∧ _renderNode st'.1 = _renderNode st.1
  ∧ length (_changedBuffers st'.1) = length (_changedBuffers st.1).
Proof.
  induction i as [|i IH]; intros st st' Hrun.
  - injection Hrun as <-. repeat split; try done. lia.
  - cbn [update_loop] in Hrun.
    destruct (js_read (_changedBuffers st.1) i) as [[|]|] eqn:Hflag.
    + destruct (_buffersUpdateCallbacks !! i) as [callback|] eqn:Hcall; [|done].
      destruct (callback_keeps i callback st Hcall) as [Hcb Hrn].
      apply IH in Hrun as (Hlow & Hhigh & Hrn' & Hlen).
      cbn [fst snd _changedBuffers _renderNode with_changed] in *.
      assert (i < length (_changedBuffers st.1))%nat as Hi.
      { unfold js_read in Hflag. apply lookup_lt_is_Some.
        destruct (_changedBuffers st.1 !! i); [by eexists|done]. }
      repeat split.
      * intros k Hk. destruct (decide (k = i)) as [->|Hne]; [|apply Hlow; lia].
        rewrite Hhigh, Hcb, js_read_store by lia. by rewrite decide_True.
      * intros k Hk. rewrite Hhigh, Hcb, js_read_store by lia. by rewrite decide_False by lia.
      * by rewrite Hrn'.
      * rewrite Hlen, Hcb, js_store_in_range by done. apply length_insert.
    + apply IH in Hrun as (Hlow & Hhigh & Hrn' & Hlen). repeat split; try done.
      * intros k Hk. destruct (decide (k = i)) as [->|Hne]; [|apply Hlow; lia].
        rewrite Hhigh, Hflag by lia. done.
      * intros k Hk. apply Hhigh. lia.
    + apply IH in Hrun as (Hlow & Hhigh & Hrn' & Hlen). repeat split; try done.
      * intros k Hk. destruct (decide (k = i)) as [->|Hne]; [|apply Hlow; lia].
        rewrite Hhigh, Hflag by lia. done.
      * intros k Hk. apply Hhigh. lia.
Qed.

Lemma update_loop_clean i : ∀ st,
  (∀ k, (k < i)%nat → js_read (_changedBuffers st.1) k ≠ Some true) →
  update_loop i st = Done st.
Proof.
  induction i as [|i IH]; intros st Hclean; [done|].
  cbn [update_loop].
  destruct (js_read (_changedBuffers st.1) i) as [[|]|] eqn:Hflag.
  - exfalso. by apply (Hclean i); [lia|].
  - apply IH. intros k Hk. apply Hclean. lia.
  - apply IH. intros k Hk. apply Hclean. lia.
Qed.

(** X14.  The pre-draw update is lazy.  When no flag is set it makes no
    call to the graphics handler and changes nothing; and an update that has
    completed has cleared every flag it served, so that running it again
    right away does nothing: buffers are created once per change. *)
Theorem _update_is_lazy (st : Polyline * Handler) :
  ((∀ k, js_read (_changedBuffers st.1) k ≠ Some true) → _update st = Done st)
  ∧ (∀ st', _update st = Done st' → _update st' = Done st').
Proof.
  split.
  - intros Hclean. unfold _update. destruct (_renderNode st.1); [|done].
    apply update_loop_clean. intros k _. apply Hclean.
  - intros st' Hrun. unfold _update in *.
    destruct (_renderNode st.1) as [rn|] eqn:Hrn.
    + apply update_loop_clears in Hrun as (Hlow & _ & Hrn' & Hlen).
      rewrite Hrn', Hrn, Hlen. apply update_loop_clean. intros k Hk. apply Hlow. lia.
    + injection Hrun as <-. by rewrite Hrn.
Qed.

(** ** _refresh *)

Lemma refresh_loop_all n : ∀ c : jsarray bool,
  (n ≤ length c)%nat → refresh_loop n c = replicate n (Some true) ++ drop n c.
Proof.
  induction n as [|n IH]; intros c Hn; [done|].
  cbn [refresh_loop]. rewrite IH by (rewrite js_store_in_range, length_insert by lia; lia).
  rewrite js_store_in_range, drop_insert_ge, Nat.sub_diag by lia.
  destruct (lookup_lt_is_Some_2 c n) as [a Ha]; [lia|].
  rewrite (drop_S c a n Ha). cbn [insert list_insert].
  by rewrite replicate_S_end, <- app_assoc.
Qed.

(** X15.  [_refresh] sets every flag, however many there are and whatever
    they held, holes included, and touches nothing else.  On an attached
    polyline with its two flags, a refresh followed by the pre-draw update
    therefore creates all three buffers anew, index routine first. *)
Theorem _refresh_marks_every_buffer (p : Polyline) :
  _changedBuffers (_refresh p) = replicate (length (_changedBuffers p)) (Some true)
  ∧ _refresh p = with_changed (_changedBuffers (_refresh p)) p
  ∧ (∀ rn h, _renderNode p = Some rn → length (_changedBuffers p) = 2%nat →
       ∃ p2 h2,
         _update (_refresh p, h) = Done (p2, h2)
         ∧ gl_calls h2
           = gl_calls h
             ++ [deleteBuffer (_ordersBuffer p);
                 deleteBuffer (_indexesBuffer p);
                 createArrayBuffer (OrderData (_orders p)) 1 (length_over (_orders p) 2)
                   (gl_fresh h);
                 createElementArrayBuffer (_indexes p) 1 (Z.of_nat (length (_indexes p)))
                   (S (gl_fresh h));
                 deleteBuffer (_verticesBuffer p);
                 createArrayBuffer (FloatData (_vertices p)) 3
                   (length_over (_vertices p) 3) (S (S (gl_fresh h)))]
         ∧ _changedBuffers p2 = [Some false; Some false]).
Proof.
  assert (_changedBuffers (_refresh p) = replicate (length (_changedBuffers p)) (Some true))
    as Hall.
  { unfold _refresh. cbn [_changedBuffers with_changed].
    by rewrite refresh_loop_all, drop_all, app_nil_r. }
  split; [exact Hall|]. split; [done|].
  intros rn h Hrn Hlen. rewrite Hlen in Hall.
  eexists _, _. split.
  - apply (update_two_flags _ h rn); [done|exact Hall].
  - cbn. by rewrite <- !app_assoc.
Qed.

(** * The geodetic setters *)

(** ** _setEqualPathLonLat

    The path is an array of arrays of [LonLat] objects.  The inner loop
    assigns [cartesian = ellipsoid.lonLatToCartesian(cur)] to a name that no
    [var], parameter or import of the module declares.  The module is strict
    (it opens with ['use strict'] and is an ES module), so the assignment
    throws a [ReferenceError] once its right-hand side is evaluated, unless
    the global object of the host happens to have a property [cartesian];
    [global_cartesian] says whether it has. *)

(** [c[j][i] = cartesian; m[j][i] = cur.forwardMercator(); l[j][i] = cur].
    The loop counts [i] up from 0 and every turn leaves [c[j]] longer than
    [i], so [i] is never beyond the end of [c[j]]. *)
Definition store_point (j i : nat) (cartesian : Vec3) (cur : LonLat) (p : Polyline)
    : outcome Polyline :=
  match js_read (_path3v p) j with
  | None => Throw p
  | Some cs =>
    let c' := <[j := Some (set_point cs i cartesian)]> (_path3v p) in
    match js_read (_pathLonLatMerc p) j with
    | None => Throw (with_path3v c' p)
    | Some ms =>
      let m' := <[j := Some (js_store ms i (forwardMercator cur))]> (_pathLonLatMerc p) in
      match js_read (_pathLonLat p) j with
      | None => Throw (with_paths c' (_pathLonLat p) m' p)
      | Some ls =>
        Done (with_paths c' (<[j := Some (js_store ls i cur)]> (_pathLonLat p)) m' p)
      end
    end
  end.

Fixpoint equal_pointsLonLat (global_cartesian : bool) (e : Ellipsoid) (j i k : nat)
    (path : list LonLat) (p : Polyline) : outcome (nat * Polyline) :=
  match path with
  | [] => Done (k, p)
  | cur :: rest =>
    if global_cartesian then
      let cartesian := lonLatToCartesian e cur in
      match store_point j i cartesian cur p with
      | Throw q => Throw (k, q)
      | Done p1 =>
        equal_pointsLonLat global_cartesian e j (S i) (k + 12) rest
          (with_extent (extend (_extent p1) cur)
             (with_vertices (write_block (_vertices p1) k cartesian) p1))
      end
    else Throw (k, p)
  end.

(** One turn of the outer loop.  Without an ellipsoid the first conversion
    throws. *)
Definition equal_segmentLonLat (global_cartesian : bool) (ell : option Ellipsoid)
    (j : nat) (path : list LonLat) (st : nat * Polyline) : outcome (nat * Polyline) :=
  match ell with
  | None => Throw st
  | Some e =>
    match cap_beforeLonLat (_closedLine st.2) e (LLObj <$> path) with
    | None => Throw st
    | Some last =>
      match equal_pointsLonLat global_cartesian e j 0 (st.1 + 12) path
              (with_vertices (write_block (_vertices st.2) st.1 last) st.2) with
      | Throw st1 => Throw st1
      | Done st1 =>
        match cap_afterLonLat (_closedLine st1.2) e (LLObj <$> path) with
        | None => Throw st1
        | Some first =>
          Done ((st1.1 + 12)%nat,
                with_vertices (write_block (_vertices st1.2) st1.1 first) st1.2)
        end
      end
    end
  end.

Fixpoint equal_segmentsLonLat (global_cartesian : bool) (ell : option Ellipsoid)
    (j : nat) (paths : list (list LonLat)) (st : nat * Polyline)
    : outcome (nat * Polyline) :=
  match paths with
  | [] => Done st
  | path :: rest =>
    match equal_segmentLonLat global_cartesian ell j path st with
    | Done st' => equal_segmentsLonLat global_cartesian ell (S j) rest st'
    | Throw st' => Throw st'
    end
  end.

Definition _setEqualPathLonLat (global_cartesian : bool) (pathLonLat : list (list LonLat))
    (p : Polyline) : outcome Polyline :=
  let p0 := with_extent (reset_extent (_extent p)) p in
  match _renderNode p0 with
  | None => Throw p0
  | Some rn =>
    outcome_map snd
      (equal_segmentsLonLat global_cartesian (ellipsoid rn) 0 pathLonLat (0%nat, p0))
  end.

(** ** setPathLonLat

    For a path whose points are [LonLat] objects.  Without a render node,
    or on one without an ellipsoid, the polyline keeps a copy of the outer
    array and builds nothing. *)
Definition setPathLonLat (global_cartesian : bool) (pathLonLat : list (list LonLat))
    (forceEqual : bool) (p : Polyline) : outcome Polyline :=
  match mbind ellipsoid (_renderNode p) with
  | Some _ =>
    if forceEqual then
      match _setEqualPathLonLat global_cartesian pathLonLat p with
      | Done p' => Done (with_changed (js_store (_changedBuffers p') VERTICES_BUFFER true) p')
      | Throw q => Throw q
      end
    else
      match _createDataLonLat ((λ path : list LonLat, LLObj <$> path) <$> pathLonLat) p with
      | Done p' =>
        Done (with_changed
                (js_store (js_store (_changedBuffers p') VERTICES_BUFFER true)
                   INDEX_BUFFER true) p')
      | Throw q => Throw q
      end
  | None => Done (with_paths (_path3v p) (dense pathLonLat) (_pathLonLatMerc p) p)
  end.

(** X16.  [setPathLonLat(path, true)] cannot complete in a strict module.
    On an attached polyline with an ellipsoid, when no global [cartesian]
    exists and the first segment of the path has the points its cap reads,
    the call throws at the first point.  By then the extent has been reset to
    its starting corners and the first twelve numbers of the vertex array
    hold the new cap; nothing else has changed, and no flag is set. *)
Theorem setPathLonLat_equal_throws_at_first_point
    (p : Polyline) (rn : RenderNode) (e : Ellipsoid)
    (first_segment : list LonLat) (others : list (list LonLat)) :
  _renderNode p = Some rn → ellipsoid rn = Some e →
  enough_points (_closedLine p) (length first_segment) →
  ∃ last,
    cap_beforeLonLat (_closedLine p) e (LLObj <$> first_segment) = Some last
    ∧ setPathLonLat false (first_segment :: others) true p
      = Throw (with_vertices (write_block (_vertices p) 0 last)
                 (with_extent (reset_extent (_extent p)) p)).
Proof.
  intros Hrn He Hn.
  destruct (has_capsLonLat (_closedLine p) e (LLObj <$> first_segment)) as [[last Hlast] _].
  { by rewrite length_fmap. }
  cbn [capsLonLat fst snd] in Hlast.
  exists last. split; [done|].
  unfold setPathLonLat, _setEqualPathLonLat.
  change (_renderNode (with_extent (reset_extent (_extent p)) p)) with (_renderNode p).
  rewrite Hrn. cbn [mbind option_bind]. rewrite He.
  cbn [equal_segmentsLonLat]. unfold equal_segmentLonLat.
  cbn [fst snd _closedLine with_extent]. rewrite Hlast.
  destruct first_segment as [|cur rest];
    [unfold enough_points in Hn; simpl in Hn; destruct (_closedLine p); lia|].
  reflexivity.
Qed.

Lemma vectorsLonLat_objects e (pathLonLat : list (list LonLat)) :
  vectorsLonLat e ((λ path : list LonLat, LLObj <$> path) <$> pathLonLat)
  = (λ path : list LonLat, lonLatToCartesian e <$> path) <$> pathLonLat.
Proof.
  unfold vectorsLonLat. rewrite <- list_fmap_compose.
  apply list_fmap_ext. intros _ path _. cbn. by rewrite <- list_fmap_compose.
Qed.

Lemma geodeticLonLat_objects (pathLonLat : list (list LonLat)) :
  geodeticLonLat ((λ path : list LonLat, LLObj <$> path) <$> pathLonLat) = pathLonLat.
Proof.
  unfold geodeticLonLat. rewrite <- list_fmap_compose.
  rewrite <- (list_fmap_id pathLonLat) at 2. apply list_fmap_ext. intros _ path _. cbn.
  rewrite <- list_fmap_compose. apply list_fmap_id.
Qed.

Lemma round_trip_paths e (pathLonLat : list (list LonLat)) :
  Forall (Forall (λ g, cartesianToLonLat e (lonLatToCartesian e g) = g)) pathLonLat →
  (λ path : list Vec3, cartesianToLonLat e <$> path)
    <$> ((λ path : list LonLat, lonLatToCartesian e <$> path) <$> pathLonLat)
  = pathLonLat.
Proof.
  intros Hrt. rewrite <- list_fmap_compose.
  rewrite <- (list_fmap_id pathLonLat) at 2. apply Forall_fmap_ext_1.
  eapply Forall_impl; [exact Hrt|]. intros path Hpath. cbn.
  rewrite <- list_fmap_compose.
  rewrite <- (list_fmap_id path) at 2. by apply Forall_fmap_ext_1.
Qed.


End Model.

Arguments Vec3 A : clear implicits.
Arguments LonLat A : clear implicits.
Arguments Extent A : clear implicits.
Arguments Ellipsoid A : clear implicits.
Arguments Point3 A : clear implicits.
Arguments PointLL A : clear implicits.
Arguments Out A : clear implicits.
Arguments RenderNode A : clear implicits.
Arguments Polyline A : clear implicits.
Arguments Handler A : clear implicits.
Arguments GLCall A : clear implicits.
Arguments BufferData A : clear implicits.
Arguments Edit A : clear implicits.

(** ** Two number systems to run the model on *)

#[export] Instance Num_Z : Num Z :=
  {| nadd := Z.add; nsub := Z.sub; nltb := Z.ltb; nconst := λ k, k |}.

Definition float_of_Z (k : Z) : float :=
  if k <? 0 then PrimFloat.opp (PrimFloat.of_uint63 (Uint63.of_Z (- k)))
  else PrimFloat.of_uint63 (Uint63.of_Z k).

#[export] Instance Num_float : Num float :=
  {| nadd := PrimFloat.add; nsub := PrimFloat.sub; nltb := PrimFloat.ltb;
     nconst := float_of_Z |}.

(** A stand-in ellipsoid for running the model: degrees and height are used
    as Cartesian coordinates as they are. *)
Definition flat_ellipsoid {A} : Ellipsoid A :=
  mkEllipsoid (λ v, mkLonLat (x v) (y v) (z v)) (λ g, mkVec3 (lon g) (lat g) (height g)) None.

Definition empty_out {A} `{Num A} : Out A :=
  mkOut [] [] [] [] [] [] (mkExtent (mkLonLat (nconst 0) (nconst 0) (nconst 0))
                                    (mkLonLat (nconst 0) (nconst 0) (nconst 0))).

#[export] Instance NumOrder_Z : NumOrder Z.
Proof.
  split; simpl.
  - intros a. apply Z.ltb_irrefl.
  - intros a b c Hab Hbc. apply Z.ltb_lt in Hab, Hbc. apply Z.ltb_lt. lia.
Qed.

(** [<] on binary64, by its specification on sign, exponent and mantissa
    ([SFcompare]): a number is not below itself, and below is transitive.
    Both hold of every value, the two zeros, the infinities and [NaN]
    included. *)
Lemma SFltb_irrefl (f : spec_float) : SFltb f f = false.
Proof.
  unfold SFltb, SFcompare. destruct f as [s|s| |s m e]; try done; try by destruct s.
  change IntDef.Z.compare with Z.compare.
  change (PosDef.Pos.compare_cont Eq) with Pos.compare.
  rewrite Z.compare_refl, Pos.compare_refl. by destruct s.
Qed.

Lemma SFltb_trans (f g h : spec_float) :
  SFltb f g = true → SFltb g h = true → SFltb f h = true.
Proof.
  unfold SFltb, SFcompare.
  change IntDef.Z.compare with Z.compare.
  change (PosDef.Pos.compare_cont Eq) with Pos.compare.
  destruct f as [s1|s1| |s1 m1 e1], g as [s2|s2| |s2 m2 e2], h as [s3|s3| |s3 m3 e3];
    try done; destruct s1; try done; destruct s2; try done; destruct s3; try done.
  all: destruct (Z.compare_spec e1 e2); try done;
       destruct (Z.compare_spec e2 e3); try done;
       destruct (Z.compare_spec e1 e3); try done; try lia; subst.
  all: destruct (Pos.compare_spec m1 m2); try done;
       destruct (Pos.compare_spec m2 m3); try done;
       destruct (Pos.compare_spec m1 m3); try done; lia.
Qed.

#[export] Instance NumOrder_float : NumOrder float.
Proof.
  split; simpl.
  - intros a. rewrite ltb_spec. apply SFltb_irrefl.
  - intros a b c. rewrite !ltb_spec. apply SFltb_trans.
Qed.

(** In binary64 a value within bounds that are numbers is a number: [NaN]
    is equal to no bound and above none. *)
Lemma within_float_is_number (lo v hi : float) :
  is_nan lo = false → within lo v hi → is_nan v = false.
Proof.
  intros Hlo [[->|Hlt] _]; [done|].
  simpl in Hlt. rewrite ltb_spec in Hlt.
  unfold is_nan. rewrite FloatAxioms.eqb_spec.
  unfold SFltb, SFeqb, SFcompare in *.
  change IntDef.Z.compare with Z.compare in *.
  change (PosDef.Pos.compare_cont Eq) with Pos.compare in *.
  destruct (Prim2SF v) as [s|s| |s m e].
  - done.
  - by destruct s.
  - by destruct (Prim2SF lo).
  - rewrite Z.compare_refl, Pos.compare_refl. by destruct s.
Qed.

Lemma in_range_float_is_number (g : LonLat float) :
  in_range g → is_nan (lon g) = false ∧ is_nan (lat g) = false.
Proof.
  intros [Hlon Hlat]. split.
  - by apply (within_float_is_number (nconst (-180)) _ (nconst 180)).
  - by apply (within_float_is_number (nconst (-90)) _ (nconst 90)).
Qed.

(** In exact arithmetic the mirror image is [2·p0 − p1], coordinate by
    coordinate. *)
Lemma mirror_Z (p0 p1 : Vec3 Z) :
  mirror p0 p1
  = mkVec3 (2 * x p0 - x p1) (2 * y p0 - y p1) (2 * z p0 - z p1).
Proof. unfold mirror. simpl. f_equal; lia. Qed.

(** A stand-in for [forwardMercator]. *)
Definition plain_mercator {A} (g : LonLat A) : LonLat A := g.

(** A polyline as the constructor leaves it ([new Array(2)] for the flags,
    then [_refresh]), attached to a render node: nothing built yet, both
    flags set. *)
Definition attached {A} `{Num A} (isClosed : bool) (ell : option (Ellipsoid A)) : Polyline A :=
  mkPolyline isClosed [] [] []
    (mkExtent (mkLonLat (nconst 0) (nconst 0) (nconst 0))
              (mkLonLat (nconst 0) (nconst 0) (nconst 0)))
    [] [] [] None None None (Some (mkRenderNode ell))
    (_changedBuffers (_refresh (mkPolyline isClosed [] [] []
       (mkExtent (mkLonLat (nconst 0) (nconst 0) (nconst 0))
                 (mkLonLat (nconst 0) (nconst 0) (nconst 0)))
       [] [] [] None None None None [None; None]))).

Definition no_buffers {A} : Handler A := mkHandler [] 0.

(** ** Paths to run the model on *)

(** The path [[(0,0,0), (1,0,0), (1,1,0)]]. *)
Definition corner_path : list (list (Point3 float)) :=
  [[P3Array 0 0 0; P3Array 1 0 0; P3Array 1 1 0]]%float.

(** Two segments, of three and of two points. *)
Definition two_segments : list (list (Point3 float)) :=
  [[P3Array 0 0 0; P3Array 1 0 0; P3Array 1 1 0];
   [P3Array 5 5 0; P3Array 6 5 0]]%float.

(** A geodetic path of two segments, and a point outside the usual range of
    longitudes. *)
Definition geodetic_path : list (list (PointLL float)) :=
  [[LLArray 10 20 0; LLObj (mkLonLat 11 21 0); LLArray 12 19 0];
   [LLArray (-30) 40 0; LLArray (-31) 41 0]]%float.

Definition far_east_path : list (list (PointLL float)) :=
  [[LLArray 200 0 0; LLArray 210 10 0]]%float.

(** * The claim on a single open segment *)

(** C1.  An open segment of [n >= 2] points built by [appendLineData3v]
    into empty arrays: the vertex array has [12·(n + 2)] numbers, namely the
    before-cap [P0 + P0 − P1] four times, every point four times, the
    after-cap [P(n−1) + P(n−1) − P(n−2)] four times; the order array is the
    cycle [(1, -1, 2, -2)] repeated [n + 2] times.  The blocks are written
    out coordinate by coordinate: [xyz] reads the three coordinates of a
    point, given as an array or as a [Vec3], [four] is a position four
    times, [ahead p q] is [p + p − q].  On the path
    [[(0,0,0), (1,0,0), (1,1,0)]], in binary64: the 60 numbers are the
    before-cap [(-1, 0, 0)], the three points and the after-cap [(1, 2, 0)],
    four times each, and the orders are five cycles. *)
Theorem open_segment_mesh :
  (∀ (A : Type) (NumA : Num A) (forwardMercator : LonLat A → LonLat A)
     (ell : option (Ellipsoid A)) (path : list (Point3 A)) (o : Out A),
     let xyz := λ q : Point3 A,
       match q with
       | P3Array a b c => (a, b, c)
       | P3Vec v => (x v, y v, z v)
       end in
     let four := λ t : A * A * A,
       let '(a, b, c) := t in
       [Some a; Some b; Some c; Some a; Some b; Some c;
        Some a; Some b; Some c; Some a; Some b; Some c] in
     let ahead := λ t u : A * A * A,
       let '(a, b, c) := t in
       let '(a', b', c') := u in
       (nsub (nadd a a) a', nsub (nadd b b) b', nsub (nadd c c) c') in
     no_prior_data o → (2 ≤ length path)%nat →
     ∃ o' p0 p1 pl pm,
       appendLineData3v forwardMercator [path] false ell o = Done o'
       ∧ path !! 0%nat = Some p0 ∧ path !! 1%nat = Some p1
       ∧ path !! (length path - 1)%nat = Some pl
       ∧ path !! (length path - 2)%nat = Some pm
       ∧ outVertices o'
         = four (ahead (xyz p0) (xyz p1))
           ++ flat_map (λ q, four (xyz q)) path
           ++ four (ahead (xyz pl) (xyz pm))
       ∧ length (outVertices o') = (12 * (length path + 2))%nat
       ∧ outOrders o' = concat (replicate (length path + 2) [1; -1; 2; -2]))
  ∧ (∀ forwardMercator : LonLat float → LonLat float,
       ∃ o',
         appendLineData3v forwardMercator corner_path false None empty_out = Done o'
         ∧ outVertices o'
           = Some <$> [-1; 0; 0; -1; 0; 0; -1; 0; 0; -1; 0; 0;
                       0; 0; 0; 0; 0; 0; 0; 0; 0; 0; 0; 0;
                       1; 0; 0; 1; 0; 0; 1; 0; 0; 1; 0; 0;
                       1; 1; 0; 1; 1; 0; 1; 1; 0; 1; 1; 0;
                       1; 2; 0; 1; 2; 0; 1; 2; 0; 1; 2; 0]%float
         ∧ length (outVertices o') = 60%nat
         ∧ outOrders o'
           = [1; -1; 2; -2; 1; -1; 2; -2; 1; -1; 2; -2; 1; -1; 2; -2; 1; -1; 2; -2]).
Proof.
  split.
  - intros A NumA forwardMercator ell path o xyz four ahead Hprior Hlen.
    destruct (open_segment_layout forwardMercator ell path o Hprior Hlen)
      as (o' & p0 & p1 & pl & pm & Hrun & H0 & H1 & Hl & Hm & HV & HL & HO).
    exists o', p0, p1, pl, pm. repeat split; try done.
    assert (∀ q r, quad (mirror (toVec3 q) (toVec3 r)) = four (ahead (xyz q) (xyz r)))
      as Hcap by (by intros [] []).
    assert (∀ l, flat_map quad (toVec3 <$> l) = flat_map (λ q, four (xyz q)) l)
      as Hflat.
    { induction l as [|q l IH]; [done|].
      cbn [fmap list_fmap flat_map]. rewrite IH. f_equal. by destruct q. }
    by rewrite HV, !Hcap, Hflat.
  - intros forwardMercator. eexists. split; [vm_compute; reflexivity|].
    vm_compute. by repeat split.
Qed.

(** The corner path built next to the stand-in ellipsoid: the same sixty
    numbers and twenty orders. *)
Lemma open_segment_mesh_witness :
  ∃ o', appendLineData3v plain_mercator corner_path false (Some flat_ellipsoid) empty_out
        = Done o'
        ∧ outVertices o'
          = Some <$> [-1; 0; 0; -1; 0; 0; -1; 0; 0; -1; 0; 0;
                      0; 0; 0; 0; 0; 0; 0; 0; 0; 0; 0; 0;
                      1; 0; 0; 1; 0; 0; 1; 0; 0; 1; 0; 0;
                      1; 1; 0; 1; 1; 0; 1; 1; 0; 1; 1; 0;
                      1; 2; 0; 1; 2; 0; 1; 2; 0; 1; 2; 0]%float
        ∧ length (outVertices o') = 60%nat
        ∧ outOrders o'
          = [1; -1; 2; -2; 1; -1; 2; -2; 1; -1; 2; -2; 1; -1; 2; -2; 1; -1; 2; -2].
Proof.
  destruct (proj1 open_segment_mesh float _ plain_mercator (Some flat_ellipsoid)
              [P3Array 0 0 0; P3Array 1 0 0; P3Array 1 1 0]%float empty_out)
    as (o' & p0 & p1 & pl & pm & Hrun & H0 & H1 & Hl & Hm & HV & Hlen & HO).
  - by repeat split.
  - simpl. lia.
  - exists o'. split; [exact Hrun|].
    assert (o' = state_of (appendLineData3v plain_mercator corner_path false
                             (Some flat_ellipsoid) empty_out)) as ->
      by (unfold corner_path; by rewrite Hrun).
    by vm_compute.
Defined.

(** * The claims at work *)

(** The corner path, built on an attached polyline with the stand-in
    ellipsoid. *)
Definition corner_polyline : Polyline float :=
  state_of (_createData3v plain_mercator corner_path (attached false (Some flat_ellipsoid))).

Definition corner_vectors : list (Vec3 float) :=
  [mkVec3 0 0 0; mkVec3 1 0 0; mkVec3 1 1 0]%float.

Definition corner_lonlats : list (LonLat float) :=
  [mkLonLat 0 0 0; mkLonLat 1 0 0; mkLonLat 1 1 0]%float.

(** A closed ring of four points given as [Vec3]s, the first and the last
    of them one and the same [Vec3]. *)
Definition shared_ring_vectors : list (Vec3 Z) :=
  [mkVec3 1 1 0; mkVec3 2 1 0; mkVec3 2 2 0; mkVec3 1 1 0].

Definition shared_ring_lonlats : list (LonLat Z) :=
  [mkLonLat 1 1 0; mkLonLat 2 1 0; mkLonLat 2 2 0; mkLonLat 1 1 0].

Definition shared_ring : Polyline Z :=
  state_of (_createData3v plain_mercator [P3Vec <$> shared_ring_vectors]
              (attached true (Some flat_ellipsoid))).




(** The image of the geodetic path under the stand-in ellipsoid. *)
Definition geodetic_image : list (list (Point3 float)) :=
  [[P3Vec (mkVec3 10 20 0); P3Array 11 21 0; P3Vec (mkVec3 12 19 0)];
   [P3Array (-30) 40 0; P3Vec (mkVec3 (-31) 41 0)]]%float.

(** On the geodetic path both builds complete with the same arrays; on a
    path with a segment of one point both builds throw, again with the same
    arrays. *)
Lemma geodetic_build_is_cartesian_build_of_image_witness :
  (∃ o1' o2',
     appendLineDataLonLat plain_mercator geodetic_path true flat_ellipsoid empty_out = Done o1'
     ∧ appendLineData3v plain_mercator geodetic_image true None empty_out = Done o2'
     ∧ outVertices o1' = outVertices o2'
     ∧ outOrders o1' = outOrders o2'
     ∧ outIndexes o1' = outIndexes o2')
  ∧ outcome_map mesh_arrays
      (appendLineDataLonLat plain_mercator [[LLArray 10 20 0]]%float false
         flat_ellipsoid empty_out)
    = outcome_map mesh_arrays
        (appendLineData3v plain_mercator [[P3Array 10 20 0]]%float false None empty_out).
Proof.
  split.
  - apply (geodetic_build_is_cartesian_build_of_image plain_mercator flat_ellipsoid None
             geodetic_path geodetic_image true empty_out empty_out).
    + by repeat split.
    + by repeat split.
    + reflexivity.
    + left. repeat constructor.
    + repeat constructor.
  - apply (geodetic_build_is_cartesian_build_of_image plain_mercator flat_ellipsoid None
             [[LLArray 10 20 0]]%float [[P3Array 10 20 0]]%float false empty_out empty_out).
    + by repeat split.
    + by repeat split.
    + reflexivity.
    + right. reflexivity.
Defined.

(** Segment 1 of the two closed segments starts at offset 60: its blocks
    are [(6,5,0)] four times, its two points, [(5,5,0)] four times. *)
Lemma closed_segment_caps_witness :
  ∃ o', appendLineData3v plain_mercator two_segments true None empty_out = Done o'
        ∧ drop 60 (outVertices o')
          = Some <$> [6; 5; 0; 6; 5; 0; 6; 5; 0; 6; 5; 0;
                      5; 5; 0; 5; 5; 0; 5; 5; 0; 5; 5; 0;
                      6; 5; 0; 6; 5; 0; 6; 5; 0; 6; 5; 0;
                      5; 5; 0; 5; 5; 0; 5; 5; 0; 5; 5; 0]%float.
Proof.
  destruct (closed_segment_caps plain_mercator None two_segments empty_out 1
              [P3Array 5 5 0; P3Array 6 5 0]%float)
    as (o' & pl & p0 & V1 & V2 & Hrun & _).
  - repeat constructor.
  - reflexivity.
  - exists o'. split; [exact Hrun|].
    assert (o' = state_of (appendLineData3v plain_mercator two_segments true None
                             empty_out)) as -> by (by rewrite Hrun).
    by vm_compute.
Defined.



(** A Cartesian and a geodetic input of shape [[3, 2]] give the same index
    and order arrays; two Cartesian inputs with a segment of one point throw
    at the same place. *)
Lemma indexes_and_orders_depend_on_shape_only_witness :
  (∃ o1' o2',
     appendLineData3v plain_mercator two_segments false None empty_out = Done o1'
     ∧ appendLineDataLonLat plain_mercator geodetic_path false flat_ellipsoid empty_out
       = Done o2'
     ∧ outIndexes o1' = outIndexes o2'
     ∧ outOrders o1' = outOrders o2')
  ∧ outcome_map indexes_and_orders
      (appendLineData3v plain_mercator [[P3Array 1 2 3]]%float false None empty_out)
    = outcome_map indexes_and_orders
        (appendLineData3v plain_mercator [[P3Array 4 5 6]]%float false
           (Some flat_ellipsoid) empty_out).
Proof.
  split.
  - destruct (proj2 (indexes_and_orders_depend_on_shape_only plain_mercator
                       (Cartesian two_segments None) (Geodetic geodetic_path flat_ellipsoid)
                       false empty_out empty_out
                       ltac:(by repeat split) ltac:(by repeat split) eq_refl
                       ltac:(left; repeat constructor)))
      as (o1' & o2' & H1 & H2 & HI & HO & _).
    + repeat constructor.
    + by exists o1', o2'.
  - apply (indexes_and_orders_depend_on_shape_only plain_mercator
             (Cartesian [[P3Array 1 2 3]]%float None)
             (Cartesian [[P3Array 4 5 6]]%float (Some flat_ellipsoid))
             false empty_out empty_out).
    + by repeat split.
    + by repeat split.
    + reflexivity.
    + right. by split.
Defined.

(** ** The extent *)

Definition ring_path : list (list (PointLL Z)) :=
  [[LLArray 10 20 0; LLArray (-170) 21 0; LLArray 12 (-45) 0];
   [LLArray 30 40 0; LLArray 31 89 0]].

Definition ring_polyline : Polyline Z :=
  state_of (_createDataLonLat plain_mercator ring_path (attached true (Some flat_ellipsoid))).

Definition ring_vectors : list (list (Vec3 Z)) :=
  [[mkVec3 10 20 0; mkVec3 (-170) 21 0; mkVec3 12 (-45) 0];
   [mkVec3 30 40 0; mkVec3 31 89 0]].

Definition ring_lonlats : list (list (LonLat Z)) :=
  [[mkLonLat 10 20 0; mkLonLat (-170) 21 0; mkLonLat 12 (-45) 0];
   [mkLonLat 30 40 0; mkLonLat 31 89 0]].

Lemma in_range_Z (g : LonLat Z) :
  (-180 ≤ lon g ≤ 180) → (-90 ≤ lat g ≤ 90) → in_range g.
Proof.
  intros Hlon Hlat. unfold in_range, within. simpl. rewrite !Z.ltb_lt. lia.
Qed.

Definition ring_edits : list (Edit Z) :=
  [mkEdit (mkVec3 15 0 0) 1 (Some 0); mkEdit (mkVec3 (-100) 5 0) 0 (Some 1)].

(** A path in binary64 that holds both zeros, and two edits of it. *)
Definition zeros_path : list (list (PointLL float)) :=
  [[LLArray 0 0 0; LLArray (-0) 10 0; LLArray 5 (-0) 0];
   [LLArray (-30) 40 0; LLArray (-31) 41 0]]%float.

Definition zeros_edits : list (Edit float) :=
  [mkEdit (mkVec3 15 0 0)%float 1 (Some 0); mkEdit (mkVec3 (-100) 5 0)%float 0 (Some 1)].

Ltac each_point tac :=
  repeat first [apply Forall_nil_2 | apply Forall_cons_2]; tac.

Ltac float_in_range :=
  unfold in_range, within; simpl;
  repeat split; first [left; reflexivity | right; reflexivity].



(** ** The buffers *)

Lemma _update_runs_index_routine_first_witness :
  ∃ p' h',
    _update (corner_polyline, no_buffers) = Done (p', h')
    ∧ _changedBuffers p' = [Some false; Some false]
    ∧ length (gl_calls h') = 6%nat.
Proof.
  destruct (_update_runs_index_routine_first corner_polyline no_buffers
              (mkRenderNode (Some flat_ellipsoid)) eq_refl eq_refl)
    as (p' & h' & Hrun & _ & Hcalls & Hflags).
  exists p', h'. split; [exact Hrun|]. split; [exact Hflags|].
  by rewrite Hcalls.
Defined.

(** With both flags set, the first buffer [_update] creates is the orders
    buffer: the calls are not those of the vertex routine followed by the
    index routine. *)
Lemma _update_does_not_run_vertex_routine_first :
  ∃ st',
    _update (corner_polyline, no_buffers) = Done st'
    ∧ gl_calls st'.2 !! 2%nat
      = Some (createArrayBuffer (OrderData (_orders corner_polyline)) 1
                (length_over (_orders corner_polyline) 2) 0)
    ∧ gl_calls st'.2
      ≠ gl_calls (_createIndexBuffer (_createVerticesBuffer (corner_polyline, no_buffers))).2.
Proof.
  eexists. split; [vm_compute; reflexivity|]. split; [by vm_compute|].
  intros Heq.
  apply (f_equal (λ calls : list (GLCall float),
                    match calls !! 0%nat with
                    | Some (deleteBuffer _) =>
                      match calls !! 1%nat with
                      | Some (createArrayBuffer _ _ _ _) => true
                      | _ => false
                      end
                    | _ => false
                    end)) in Heq.
  vm_compute in Heq. discriminate Heq.
Qed.

(** The corner polyline after its first draw: buffers created, flags
    cleared. *)
Definition drawn_polyline : Polyline float * Handler float :=
  state_of (_update (corner_polyline, no_buffers)).

(** C9.  The claim: after [clear()] the vertex, order and index sequences
    and the three coordinate sequences are empty, and the GPU buffers are
    released.  On the corner polyline, attached and drawn once, the mesh
    sequences end empty, the three buffers are deleted and their handles
    reset, but the Cartesian, geodetic and Mercator sequences still hold the
    three points of the path: [clear] misses what its sibling [_clearData]
    does. *)
Theorem clear_keeps_the_coordinate_sequences :
  _vertices (clear drawn_polyline).1 = []
  ∧ _orders (clear drawn_polyline).1 = []
  ∧ _indexes (clear drawn_polyline).1 = []
  ∧ drop 6 (gl_calls (clear drawn_polyline).2)
    = [deleteBuffer (Some 2%nat); deleteBuffer (Some 0%nat); deleteBuffer (Some 1%nat)]
  ∧ _verticesBuffer (clear drawn_polyline).1 = None
  ∧ _path3v (clear drawn_polyline).1 = [Some corner_vectors]
  ∧ _pathLonLat (clear drawn_polyline).1 = dense [corner_lonlats]
  ∧ _pathLonLatMerc (clear drawn_polyline).1 = dense [corner_lonlats]
  ∧ _path3v (_clearData drawn_polyline.1) = []
  ∧ ¬ (_path3v (clear drawn_polyline).1 = []
       ∧ _pathLonLat (clear drawn_polyline).1 = []
       ∧ _pathLonLatMerc (clear drawn_polyline).1 = []).
Proof.
  do 9 (split; [by vm_compute|]).
  intros (H & _). vm_compute in H. discriminate H.
Qed.

(** * og.math: powers of two

    [isPowerOfTwo] and [nextHighestPowerOfTwo] on arguments that are whole
    numbers (a JavaScript number below 2^53 in size holds them exactly).  The
    bitwise operators convert their operands to signed 32-bit integers first
    ([ToInt32]: the value modulo 2^32, read as two's complement); [+] and
    [-] work on the numbers themselves. *)

Definition toInt32 (z : Z) : Z := (z + 2 ^ 31) mod 2 ^ 32 - 2 ^ 31.

(** [(x & (x - 1)) == 0] *)
Definition isPowerOfTwo (x : Z) : bool :=
  Z.land (toInt32 x) (toInt32 (x - 1)) =? 0.

(** [for (var i = 1; i < 32; i <<= 1) { x = x | x >> i; }], with [fuel]
    turns at most: [None] when they are used up before [i] reaches 32. *)
Fixpoint smear (fuel : nat) (i x : Z) {struct fuel} : option Z :=
  if i <? 32 then
    match fuel with
    | O => None
    | S fuel' =>
      smear fuel' (toInt32 (Z.shiftl (toInt32 i) 1))
        (Z.lor (toInt32 x) (Z.shiftr (toInt32 x) (toInt32 i mod 32)))
    end
  else Some x.

(** [--x; (the loop); return x + 1] *)
Definition nextHighestPowerOfTwo (fuel : nat) (x : Z) : option Z :=
  (λ s, s + 1) <$> smear fuel 1 (x - 1).

Lemma toInt32_small (z : Z) : - 2 ^ 31 ≤ z < 2 ^ 31 → toInt32 z = z.
Proof. intros Hz. unfold toInt32. rewrite Z.mod_small; lia. Qed.

(** Bit [n] of [a] is set exactly when one of the [w] bits of [y] from [n]
    on is. *)
Definition covers (w y a : Z) : Prop :=
  ∀ n, 0 ≤ n → (Z.testbit a n = true ↔ ∃ m, n ≤ m < n + w ∧ Z.testbit y m = true).

Lemma covers_start (y : Z) : covers 1 y y.
Proof.
  intros n Hn. split.
  - intros H. exists n. split; [lia|done].
  - intros (m & Hm & H). by replace n with m by lia.
Qed.

Lemma covers_step (w y a : Z) :
  0 < w → covers w y a → covers (2 * w) y (Z.lor a (Z.shiftr a w)).
Proof.
  intros Hw Ha n Hn. rewrite Z.lor_spec, Z.shiftr_spec, orb_true_iff by done.
  rewrite (Ha n), (Ha (n + w)) by lia. split.
  - intros [(m & Hm & H)|(m & Hm & H)]; exists m; (split; [lia|done]).
  - intros (m & Hm & H). destruct (Z.lt_ge_cases m (n + w)).
    + left. exists m. split; [lia|done].
    + right. exists m. split; [lia|done].
Qed.

Lemma smear_range (a w : Z) :
  0 ≤ a < 2 ^ 31 → 0 ≤ w → 0 ≤ Z.lor a (Z.shiftr a w) < 2 ^ 31.
Proof.
  intros Ha Hw.
  assert (0 ≤ Z.shiftr a w) as Hs by (apply Z.shiftr_nonneg; lia).
  assert (Z.shiftr a w ≤ a) as Hle.
  { rewrite Z.shiftr_div_pow2 by done.
    apply Z.div_le_upper_bound; [by apply Z.pow_pos_nonneg|].
    assert (1 ≤ 2 ^ w) by (by apply Z.pow_le_mono_r with (b := 0); lia). nia. }
  split; [apply Z.lor_nonneg; lia|].
  destruct (Z.eq_dec (Z.lor a (Z.shiftr a w)) 0) as [->|Hne]; [done|].
  assert (0 ≤ Z.lor a (Z.shiftr a w)) by (apply Z.lor_nonneg; lia).
  apply Z.log2_lt_pow2; [lia|].
  rewrite Z.log2_lor by lia.
  assert (Z.log2 (Z.shiftr a w) ≤ Z.log2 a) by (by apply Z.log2_le_mono).
  assert (Z.log2 a < 31).
  { destruct (Z.eq_dec a 0) as [->|Ha0]; [done|]. apply Z.log2_lt_pow2; lia. }
  lia.
Qed.

Lemma smear_turn (fuel : nat) (i a : Z) :
  0 ≤ i < 32 → 0 ≤ a < 2 ^ 31 →
  smear (S fuel) i a = smear fuel (2 * i) (Z.lor a (Z.shiftr a i)).
Proof.
  intros Hi Ha. cbn [smear].
  destruct (Z.ltb_spec i 32) as [_|?]; [|lia].
  assert (2 ^ 31 = 2147483648) as E31 by done.
  rewrite (toInt32_small a), (toInt32_small i) by lia.
  rewrite Z.mod_small, Z.shiftl_mul_pow2 by lia.
  change (2 ^ 1) with 2. rewrite toInt32_small by lia.
  by rewrite Z.mul_comm.
Qed.

Lemma smear_done (fuel : nat) (i a : Z) : 32 ≤ i → smear fuel i a = Some a.
Proof.
  intros Hi. destruct fuel; cbn [smear];
    by destruct (Z.ltb_spec i 32) as [?|_]; [lia|].
Qed.

Lemma smear_covers (fuel : nat) (y : Z) :
  (5 ≤ fuel)%nat → 0 ≤ y < 2 ^ 31 →
  ∃ s, smear fuel 1 y = Some s ∧ covers 32 y s ∧ 0 ≤ s < 2 ^ 31.
Proof.
  intros Hfuel Hy.
  do 5 (destruct fuel as [|fuel]; [lia|]). clear Hfuel.
  pose proof (covers_start y) as C1.
  pose proof (smear_range y 1 Hy) as R1.
  pose proof (covers_step 1 y _ ltac:(lia) C1) as C2.
  pose proof (smear_range _ 2 (R1 ltac:(lia))) as R2.
  pose proof (covers_step 2 y _ ltac:(lia) C2) as C4.
  pose proof (smear_range _ 4 (R2 ltac:(lia))) as R4.
  pose proof (covers_step 4 y _ ltac:(lia) C4) as C8.
  pose proof (smear_range _ 8 (R4 ltac:(lia))) as R8.
  pose proof (covers_step 8 y _ ltac:(lia) C8) as C16.
  pose proof (smear_range _ 16 (R8 ltac:(lia))) as R16.
  pose proof (covers_step 16 y _ ltac:(lia) C16) as C32.
  specialize (R1 ltac:(lia)). specialize (R2 ltac:(lia)). specialize (R4 ltac:(lia)).
  specialize (R8 ltac:(lia)). specialize (R16 ltac:(lia)).
  rewrite smear_turn by (done || lia). change (2 * 1) with 2.
  rewrite smear_turn by (done || lia). change (2 * 2) with 4.
  rewrite smear_turn by (done || lia). change (2 * 4) with 8.
  rewrite smear_turn by (done || lia). change (2 * 8) with 16.
  rewrite smear_turn by (done || lia). change (2 * 16) with 32.
  rewrite smear_done by lia.
  eexists. split; [reflexivity|]. split; [exact C32|exact R16].
Qed.

Lemma covers_all (y s : Z) :
  0 ≤ y < 2 ^ 31 → 0 ≤ s → covers 32 y s →
  s + 1 = 2 ^ (if y =? 0 then 0 else Z.log2 y + 1).
Proof.
  intros Hy Hs Hc. destruct (Z.eqb_spec y 0) as [->|Hy0].
  - assert (s = 0) as ->; [|done].
    apply Z.bits_inj'. intros n Hn. rewrite Z.bits_0.
    destruct (Z.testbit s n) eqn:Hbit; [|done].
    apply (Hc n Hn) in Hbit as (m & _ & Hm). by rewrite Z.bits_0 in Hm.
  - assert (Z.log2 y < 31) as Hlog by (apply Z.log2_lt_pow2; lia).
    pose proof (Z.log2_nonneg y) as Hlog0.
    assert (s = Z.ones (Z.log2 y + 1)) as ->.
    { apply Z.bits_inj'. intros n Hn.
      destruct (Z.lt_ge_cases n (Z.log2 y + 1)) as [Hlow|Hhigh].
      - rewrite Z.ones_spec_low by lia. apply (Hc n Hn).
        exists (Z.log2 y). split; [lia|]. apply Z.bit_log2. lia.
      - rewrite Z.ones_spec_high by lia.
        destruct (Z.testbit s n) eqn:Hbit; [|done].
        apply (Hc n Hn) in Hbit as (m & Hm & Hbit).
        rewrite Z.bits_above_log2 in Hbit by lia. done. }
    rewrite Z.ones_equiv. lia.
Qed.

(** X18.  [isPowerOfTwo] on a number from 0 to 2^31 - 1 answers [true]
    exactly for the powers of two and for 0: zero passes the test
    [(x & (x - 1)) == 0] as well. *)
Theorem isPowerOfTwo_is_true_on_powers_of_two_and_zero (x : Z) :
  0 ≤ x < 2 ^ 31 →
  (isPowerOfTwo x = true ↔ x = 0 ∨ ∃ k, 0 ≤ k ∧ x = 2 ^ k).
Proof.
  intros Hx. unfold isPowerOfTwo.
  assert (2 ^ 31 = 2147483648) as E31 by done.
  rewrite !toInt32_small, Z.eqb_eq by lia.
  destruct (Z.eq_dec x 0) as [->|Hx0]; [split; [by left|done]|].
  split.
  - intros Hland. right. exists (Z.log2 x). split; [apply Z.log2_nonneg|].
    destruct (Z.eq_dec x (2 ^ Z.log2 x)) as [|Hne]; [done|]. exfalso.
    destruct (Z.log2_spec x) as [Hlow Hhigh]; [lia|].
    assert (Z.log2 (x - 1) = Z.log2 x) as Hlog.
    { apply Z.log2_unique; [apply Z.log2_nonneg|lia]. }
    assert (Z.testbit (Z.land x (x - 1)) (Z.log2 x) = true) as Hbit.
    { rewrite Z.land_spec, Z.bit_log2 by lia.
      rewrite <- Hlog. rewrite Z.bit_log2; [done|].
      pose proof (Z.pow_pos_nonneg 2 (Z.log2 x) ltac:(lia) (Z.log2_nonneg x)). lia. }
    by rewrite Hland, Z.bits_0 in Hbit.
  - intros [->|(k & Hk & ->)]; [done|].
    replace (2 ^ k - 1) with (Z.ones k) by (rewrite Z.ones_equiv; lia).
    rewrite Z.land_ones by done. apply Z_mod_same_full.
Qed.

(** X19.  [nextHighestPowerOfTwo] on a number from 1 to 2^31 returns the
    least power of two that is not below it: a power of two [r] with
    [x <= r < 2x].  The loop takes five turns.  On 0 it returns 0. *)
Theorem nextHighestPowerOfTwo_is_least_power_not_below (fuel : nat) (x : Z) :
  (5 ≤ fuel)%nat →
  (1 ≤ x ≤ 2 ^ 31 →
   ∃ k, 0 ≤ k ∧ nextHighestPowerOfTwo fuel x = Some (2 ^ k) ∧ x ≤ 2 ^ k < 2 * x)
  ∧ nextHighestPowerOfTwo fuel 0 = Some 0.
Proof.
  intros Hfuel. split.
  - intros Hx.
    destruct (smear_covers fuel (x - 1) Hfuel) as (s & Hrun & Hc & Hs); [lia|].
    pose proof (covers_all (x - 1) s ltac:(lia) ltac:(lia) Hc) as Hpow.
    unfold nextHighestPowerOfTwo. rewrite Hrun. cbn [fmap option_fmap option_map].
    rewrite Hpow. destruct (Z.eqb_spec (x - 1) 0) as [Hx1|Hx1].
    + exists 0. split; [done|]. split; [done|]. change (2 ^ 0) with 1. lia.
    + exists (Z.log2 (x - 1) + 1).
      pose proof (Z.log2_nonneg (x - 1)) as Hlog0.
      destruct (Z.log2_spec (x - 1)) as [Hlow Hhigh]; [lia|].
      rewrite <- Z.add_1_r in Hhigh.
      split; [lia|]. split; [done|].
      rewrite Z.pow_add_r in * by lia. change (2 ^ 1) with 2 in *. lia.
  - do 5 (destruct fuel as [|fuel]; [lia|]). unfold nextHighestPowerOfTwo.
    cbn [smear]. by rewrite smear_done by done.
Qed.


(** * The further properties on a line over the integers *)

Definition globe : RenderNode Z := mkRenderNode (Some flat_ellipsoid).

Definition bare_node : RenderNode Z := mkRenderNode None.

(** Two segments, of three and of two points, and a second path of the same
    shape. *)
Definition zig_path : list (list (Point3 Z)) :=
  [[P3Array 0 0 0; P3Array 10 0 0; P3Array 10 10 0];
   [P3Array 50 50 0; P3Array 60 50 0]].

Definition zag_path : list (list (Vec3 Z)) :=
  [[mkVec3 1 2 0; mkVec3 3 4 0; mkVec3 5 6 0];
   [mkVec3 7 8 0; mkVec3 9 10 0]].

Definition zig_geodetic : list (list (LonLat Z)) :=
  [[mkLonLat 0 0 0; mkLonLat 10 0 0; mkLonLat 10 10 0];
   [mkLonLat 50 50 0; mkLonLat 60 50 0]].

(** The line built from [zig_path], and the same after its first draw. *)
Definition zig_line (isClosed : bool) : Polyline Z :=
  state_of (_createData3v plain_mercator zig_path (attached isClosed (Some flat_ellipsoid))).

Definition zig_drawn : Polyline Z * Handler Z :=
  state_of (_update (zig_line false, no_buffers)).

(** What a build of no segment leaves of an empty output: the two leading
    indexes alone. *)
Definition stub_out : Out Z :=
  state_of (appendLineData3v plain_mercator [] false None empty_out).


Lemma append_is_build_of_concatenation_witness :
  ∃ o1 o2 o12 : Out Z,
    appendLineData3v plain_mercator zig_path true None empty_out = Done o1
    ∧ appendLineData3v plain_mercator zig_path true None o1 = Done o2
    ∧ appendLineData3v plain_mercator (zig_path ++ zig_path) true None empty_out = Done o12
    ∧ mesh_arrays o2 = mesh_arrays o12.
Proof.
  apply (proj1 (append_is_build_of_concatenation plain_mercator true empty_out));
    [discriminate | discriminate | repeat constructor | repeat constructor].
Defined.

Lemma short_index_array_gives_nan_indexes_witness :
  outIndexes stub_out = [Some 0; Some 0]
  ∧ ∃ o', appendLineData3v plain_mercator zig_path false None stub_out = Done o'
          ∧ Forall (λ i, i = None) (drop 2 (outIndexes o')).
Proof.
  split; [reflexivity|].
  destruct (short_index_array_gives_nan_indexes plain_mercator zig_path false None stub_out)
    as (o' & nan & Hrun & Hidx & Hnan & _).
  - simpl. lia.
  - repeat constructor.
  - exists o'. split; [exact Hrun|]. rewrite Hidx. exact Hnan.
Defined.

Lemma rebuild_without_ellipsoid_stores_no_point_witness :
  ∃ p', _createData3v plain_mercator zig_path (attached false None) = Done p'
        ∧ _path3v p' = [Some []; Some []]
        ∧ setPoint3v plain_mercator (mkVec3 1 1 1) 0 (Some 0) false p' = Throw p'.
Proof.
  destruct (rebuild_without_ellipsoid_stores_no_point plain_mercator
              (attached false None) bare_node zig_path eq_refl eq_refl)
    as (p' & Hrun & _ & Hpath & _ & _ & _ & Hset); [repeat constructor|].
  exists p'. split; [exact Hrun|]. split; [exact Hpath|]. apply Hset.
Defined.

Lemma setPoint3v_rejects_missing_point_witness :
  setPoint3v plain_mercator (mkVec3 1 1 1) 3 (Some 0) false (zig_line false)
  = Throw (zig_line false)
  ∧ setPoint3v plain_mercator (mkVec3 1 1 1) 0 (Some 2) false (zig_line false)
    = Throw (zig_line false).
Proof.
  split; apply setPoint3v_rejects_missing_point; intros path Hpath; vm_compute in Hpath.
  - injection Hpath as <-. simpl. lia.
  - discriminate Hpath.
Defined.

Lemma setPoint3v_is_rebuild_of_edited_path_witness :
  ∃ p1 p2 p3,
    _createData3v plain_mercator zig_path (attached false (Some flat_ellipsoid)) = Done p1
    ∧ setPoint3v_shared plain_mercator [] (mkVec3 7 7 7) 1 (Some 1) false p1 = Done p2
    ∧ _createData3v plain_mercator
        [[P3Array 0 0 0; P3Array 10 0 0; P3Array 10 10 0];
         [P3Array 50 50 0; P3Vec (mkVec3 7 7 7)]]
        (attached false (Some flat_ellipsoid)) = Done p3
    ∧ p2 = with_changed (js_store (_changedBuffers p3) VERTICES_BUFFER true) p3.
Proof.
  apply (setPoint3v_is_rebuild_of_edited_path plain_mercator
           (attached false (Some flat_ellipsoid)) globe flat_ellipsoid zig_path
           (mkVec3 7 7 7) 1 (Some 1) [P3Array 50 50 0; P3Array 60 50 0]
           eq_refl eq_refl eq_refl);
    [repeat constructor | simpl; lia | reflexivity | simpl; lia].
Defined.

Lemma closed_edit_leaves_far_cap_stale_witness :
  ∃ p1 p2 p3,
    _createData3v plain_mercator zig_path (attached true (Some flat_ellipsoid)) = Done p1
    ∧ setPoint3v plain_mercator (mkVec3 7 8 9) 0 (Some 0) false p1 = Done p2
    ∧ _createData3v plain_mercator
        [[P3Vec (mkVec3 7 8 9); P3Array 10 0 0; P3Array 10 10 0];
         [P3Array 50 50 0; P3Array 60 50 0]]
        (attached true (Some flat_ellipsoid)) = Done p3
    ∧ js_read (_vertices p2) 48 = Some 0
    ∧ js_read (_vertices p3) 48 = Some 7.
Proof.
  destruct (closed_edit_leaves_far_cap_stale plain_mercator
              (attached true (Some flat_ellipsoid)) globe flat_ellipsoid zig_path
              (mkVec3 7 8 9) (Some 0) [P3Array 0 0 0; P3Array 10 0 0; P3Array 10 10 0]
              eq_refl eq_refl eq_refl)
    as (p1 & Hrun & _ & p2 & p3 & old & Hold & Hset & Hre & Hd);
    [repeat constructor | simpl; lia | reflexivity | simpl; lia |].
  injection Hold as <-.
  exists p1, p2, p3. split; [exact Hrun|]. split; [exact Hset|]. split; [exact Hre|].
  exact (Hd 0%nat ltac:(lia)).
Defined.



Lemma setPath3v_equal_throws_beyond_stored_segments_witness :
  ∃ q, setPath3v plain_mercator (zag_path ++ [[mkVec3 0 0 0; mkVec3 1 1 1]]) true (zig_line false)
       = Throw q
       ∧ _changedBuffers q = _changedBuffers (zig_line false).
Proof.
  destruct (setPath3v_equal_throws_beyond_stored_segments plain_mercator (zig_line false)
              globe flat_ellipsoid (zag_path ++ [[mkVec3 0 0 0; mkVec3 1 1 1]])
              eq_refl eq_refl)
    as (q & Hrun & Hflags & _); [repeat constructor | vm_compute; lia |].
  exists q. split; [exact Hrun|exact Hflags].
Defined.


Lemma setPath3v_equal_then_update_replaces_vertex_buffer_only_witness :
  ∃ p2 h2,
    _update (state_of (setPath3v plain_mercator zag_path true zig_drawn.1), zig_drawn.2)
    = Done (p2, h2)
    ∧ buffers_of zig_drawn.1 = (Some 2%nat, Some 0%nat, Some 1%nat)
    ∧ buffers_of p2 = (Some 3%nat, Some 0%nat, Some 1%nat).
Proof.
  assert (_renderNode zig_drawn.1 = Some globe) as Hnode by (vm_compute; reflexivity).
  assert (_changedBuffers zig_drawn.1 = [Some false; Some false]) as Hflags
    by (vm_compute; reflexivity).
  assert (setPath3v plain_mercator zag_path true zig_drawn.1
          = Done (state_of (setPath3v plain_mercator zag_path true zig_drawn.1))) as Hset
    by (vm_compute; reflexivity).
  destruct (setPath3v_equal_then_update_replaces_vertex_buffer_only plain_mercator
              zig_drawn.1 _ globe zig_drawn.2 zag_path Hnode Hflags Hset)
    as (p2 & h2 & Hup & _ & Hbuf & _).
  exists p2, h2. split; [exact Hup|]. split; [vm_compute; reflexivity|].
  rewrite Hbuf. vm_compute. reflexivity.
Defined.

Lemma _update_is_lazy_witness :
  _update (zig_line false, no_buffers) = Done zig_drawn ∧ _update zig_drawn = Done zig_drawn.
Proof.
  assert (_update (zig_line false, no_buffers) = Done zig_drawn) as Hup
    by (vm_compute; reflexivity).
  split; [exact Hup|].
  exact (proj2 (_update_is_lazy (zig_line false, no_buffers)) zig_drawn Hup).
Defined.

Lemma _refresh_marks_every_buffer_witness :
  _changedBuffers zig_drawn.1 = [Some false; Some false]
  ∧ ∃ p2 h2, _update (_refresh zig_drawn.1, zig_drawn.2) = Done (p2, h2)
             ∧ length (gl_calls h2) = (length (gl_calls zig_drawn.2) + 6)%nat.
Proof.
  assert (_renderNode zig_drawn.1 = Some globe) as Hnode by (vm_compute; reflexivity).
  assert (_changedBuffers zig_drawn.1 = [Some false; Some false]) as Hflags
    by (vm_compute; reflexivity).
  split; [exact Hflags|].
  destruct (proj2 (proj2 (_refresh_marks_every_buffer zig_drawn.1)) globe zig_drawn.2 Hnode)
    as (p2 & h2 & Hup & Hcalls & _); [by rewrite Hflags|].
  exists p2, h2. split; [exact Hup|]. rewrite Hcalls, length_app. reflexivity.
Defined.

Lemma setPathLonLat_equal_throws_at_first_point_witness :
  ∃ q, setPathLonLat plain_mercator false [[mkLonLat 1 2 0; mkLonLat 3 4 0]] true
         (zig_line false) = Throw q
       ∧ _changedBuffers q = _changedBuffers (zig_line false).
Proof.
  destruct (setPathLonLat_equal_throws_at_first_point plain_mercator (zig_line false) globe
              flat_ellipsoid [mkLonLat 1 2 0; mkLonLat 3 4 0] [] eq_refl eq_refl)
    as (last & _ & Hrun); [repeat constructor|].
  eexists. split; [exact Hrun|]. vm_compute. reflexivity.
Defined.


Lemma isPowerOfTwo_is_true_on_powers_of_two_and_zero_witness :
  isPowerOfTwo 4096 = true ↔ 4096 = 0 ∨ ∃ k, 0 ≤ k ∧ 4096 = 2 ^ k.
Proof.
  apply isPowerOfTwo_is_true_on_powers_of_two_and_zero.
  change (2 ^ 31) with 2147483648. lia.
Defined.

Lemma nextHighestPowerOfTwo_is_least_power_not_below_witness :
  (∃ k, 0 ≤ k ∧ nextHighestPowerOfTwo 5 1000 = Some (2 ^ k) ∧ 1000 ≤ 2 ^ k < 2 * 1000)
  ∧ nextHighestPowerOfTwo 5 0 = Some 0.
Proof.
  destruct (nextHighestPowerOfTwo_is_least_power_not_below 5 1000 ltac:(lia)) as [Hpow Hzero].
  split; [|exact Hzero]. apply Hpow. change (2 ^ 31) with 2147483648. lia.
Defined.
